(** * Corner detector (structure-tensor pipeline): embedding and verification

    Source: [src/corner_detector.cpp], class [CornerDetector] built on OpenCV.

    The program works on single-precision images ([response.at<float>]).  A
    [float] is modelled as its 32-bit IEEE-754 word, a [double] scalar as a
    binary64 value of [SpecFloat]; arithmetic is the IEEE arithmetic of
    [SpecFloat] (round to nearest, ties to even) at the matching precision.
    A [cv::Mat] is a record with its dimensions, its element type and its
    elements in row-major order.  OpenCV calls that can raise [cv::Exception]
    live in a small error monad.

    OpenCV's own functions are modelled after their documentation:
    - [filter2D]: asserts a source and a kernel that have elements, then
      the correlation with the kernel anchored at its centre, border
      BORDER_REFLECT_101, accumulated in single precision in kernel scan
      order;
    - [dilate] with an empty kernel: maximum over the 3x3 neighbourhood,
      pixels outside the image counting as -FLT_MAX;
    - [cv::max(M, s)]: OpenCV's kernel runs a vector loop ([v_max], on x86
      [maxps]: [a > s ? a : s]) and finishes the row with [std::max]; which
      pixels fall in which loop depends on the build and the layout, so it
      is a parameter of the model, and the two differ on a NaN pixel;
    - [min] and the running maximum of [minMaxLoc]: the scalar [std::min]
      and [val > maxVal] of the reference loops;
    - [M > s]: [cv::compare] converts the double scalar to the type of the
      matrix first, so a float pixel is compared with the threshold rounded
      to single precision; [A == B]: dst(I) = (A(I) == B(I));
    - element-wise arithmetic: IEEE single precision, one rounding per
      operation; a matrix expression [s * A.mul(B)] is one [cv::multiply]
      with scale [s], which computes [(s * a) * b]; a 1x1 matrix is taken
      for a scalar by the element-wise operations.
    [detect] is written for single-channel [CV_32F] images
    ([response.at<float>]); the model reads every matrix that way. *)

From Stdlib Require Import ZArith List Bool Lia Arith PeanoNat FinFun.
From Stdlib Require Import Sorted.
From Stdlib Require Import Floats.SpecFloat.
Import ListNotations.

Set Implicit Arguments.

(* ================================================================== *)
(** ** Errors raised by OpenCV assertions *)

Inductive cv_error : Type :=
| StsAssert      (* a failed CV_Assert *)
| StsUnmatchedSizes (* operands of an element-wise operation differ in size or type *)
| StsBadArg.     (* a configuration error raised by a collaborator *)

Inductive result (A : Type) : Type :=
| Ok (a : A)
| Raise (e : cv_error).

Arguments Ok {A} a.
Arguments Raise {A} e.

Definition bind {A B : Type} (c : result A) (k : A -> result B) : result B :=
  match c with
  | Ok a => k a
  | Raise e => Raise e
  end.

Notation "x <- c ;; k" := (bind c (fun x => k))
  (at level 61, c at next level, right associativity).

Definition is_ok {A : Type} (c : result A) : bool :=
  match c with Ok _ => true | Raise _ => false end.

(* ================================================================== *)
(** ** IEEE-754 binary32 words and binary64 scalars *)

Module Binary32.
Local Open Scope Z_scope.

Definition prec : Z := 24.
Definition emax : Z := 128.

(** A [float] is its 32-bit word: sign (bit 31), biased exponent (bits
    30..23), fraction (bits 22..0). *)
Definition f32 : Type := Z.

Definition sign_bit (b : f32) : bool := Z.testbit b 31.
Definition biased_exp (b : f32) : Z := Z.land (Z.shiftr b 23) 255.
Definition fraction (b : f32) : Z := Z.land b (Z.ones 23).

Definition decode (b : f32) : spec_float :=
  let s := sign_bit b in
  let E := biased_exp b in
  let f := fraction b in
  if E =? 0 then
    match f with
    | Zpos m => S754_finite s m (-149)
    | _ => S754_zero s
    end
  else if E =? 255 then
    if f =? 0 then S754_infinity s else S754_nan
  else
    match f + 2 ^ 23 with
    | Zpos m => S754_finite s m (E - 150)
    | _ => S754_nan
    end.

Definition join (s : bool) (E f : Z) : f32 :=
  Z.lor (if s then Z.shiftl 1 31 else 0)
        (Z.lor (Z.shiftl (Z.land E 255) 23) (Z.land f (Z.ones 23))).

(** The quiet NaN 0x7FC00000 stands for every NaN. *)
Definition encode (x : spec_float) : f32 :=
  match x with
  | S754_zero s => join s 0 0
  | S754_infinity s => join s 255 0
  | S754_nan => join false 255 (2 ^ 22)
  | S754_finite s m e =>
      if 2 ^ 23 <=? Zpos m then join s (e + 150) (Zpos m - 2 ^ 23)
      else join s 0 (Zpos m)
  end.

Definition add (a b : f32) : f32 := encode (SFadd prec emax (decode a) (decode b)).
Definition sub (a b : f32) : f32 := encode (SFsub prec emax (decode a) (decode b)).
Definition mul (a b : f32) : f32 := encode (SFmul prec emax (decode a) (decode b)).
Definition div (a b : f32) : f32 := encode (SFdiv prec emax (decode a) (decode b)).

(** C++ [a < b], [a == b] on floats: false as soon as one side is NaN. *)
Definition ltb (a b : f32) : bool := SFltb (decode a) (decode b).
Definition eqb (a b : f32) : bool := SFeqb (decode a) (decode b).
Definition leb (a b : f32) : bool := SFleb (decode a) (decode b).

Definition is_nan (a : f32) : bool :=
  match decode a with S754_nan => true | _ => false end.

Definition is_zero (a : f32) : bool :=
  match decode a with S754_zero _ => true | _ => false end.

(** [std::isfinite]. *)
Definition is_finite (a : f32) : bool :=
  match decode a with S754_zero _ | S754_finite _ _ _ => true | _ => false end.

(** Conversion int -> float. *)
Definition of_int (n : Z) : f32 := encode (binary_normalize prec emax n 0 false).

(** [std::max(a, b)] is [(a < b) ? b : a] and [std::min(a, b)] is
    [(b < a) ? b : a]: the first argument comes back when either is NaN. *)
Definition max (a b : f32) : f32 := if ltb a b then b else a.
Definition min (a b : f32) : f32 := if ltb b a then b else a.

(** The vector maximum of x86, [maxps]: [a > b ? a : b], so the second
    argument comes back when either is NaN. *)
Definition vmax (a b : f32) : f32 := if ltb b a then a else b.

Definition zero : f32 := 0.                      (* +0.0f, 0x00000000 *)
Definition neg_zero : f32 := 0x80000000.         (* -0.0f *)
Definition one : f32 := 0x3F800000.              (* 1.0f *)
Definition three : f32 := 0x40400000.            (* 3.0f *)
Definition minus_one : f32 := 0xBF800000.        (* -1.0f *)
Definition infinity : f32 := 0x7F800000.
Definition neg_infinity : f32 := 0xFF800000.
Definition nan : f32 := 0x7FC00000.
Definition neg_flt_max : f32 := 0xFF7FFFFF.      (* -FLT_MAX *)

End Binary32.

Module Binary64.
Local Open Scope Z_scope.

Definition prec : Z := 53.
Definition emax : Z := 1024.

Definition f64 : Type := spec_float.

(** Conversion float -> double (exact). *)
Definition of_f32 (a : Binary32.f32) : f64 :=
  match Binary32.decode a with
  | S754_finite s m e => binary_round prec emax s m e
  | x => x
  end.

(** Conversion double -> float: rounding to nearest, ties to even. *)
Definition to_f32 (x : f64) : Binary32.f32 :=
  Binary32.encode
    match x with
    | S754_finite s m e => binary_round Binary32.prec Binary32.emax s m e
    | x => x
    end.

Definition mul (x y : f64) : f64 := SFmul prec emax x y.
Definition ltb (x y : f64) : bool := SFltb x y.
Definition leb (x y : f64) : bool := SFleb x y.

Definition zero : f64 := S754_zero false.

End Binary64.

Module F := Binary32.
Module D := Binary64.

(* ================================================================== *)
(** ** cv::Mat *)

(** Element depth of a matrix: [CV_8U] for comparison masks, [CV_32F] for
    images and fields. *)
Inductive Depth : Type := CV_8U | CV_32F.

Definition depth_eqb (a b : Depth) : bool :=
  match a, b with
  | CV_8U, CV_8U | CV_32F, CV_32F => true
  | _, _ => false
  end.

(** Dimensions, element type and the element words in row-major order (a
    float word for [CV_32F], a byte for [CV_8U]).  A [cv::Mat] holds
    rows * cols * channels elements. *)
Record Mat : Type := mkMat {
  rows : nat;
  cols : nat;
  depth : Depth;
  channels : nat;
  data : list Z
}.

(** [M.at<T>(r, c)] of a single-channel matrix, for r < rows and c < cols
    (C++ leaves other accesses undefined; the model never makes one on a
    matrix that holds all its elements). *)
Definition pix (M : Mat) (r c : nat) : Z := nth (r * cols M + c) (data M) 0%Z.

(** The positions of an [r] x [c] matrix in row-major (scan) order. *)
Definition coords (r c : nat) : list (nat * nat) :=
  flat_map (fun i => map (fun j => (i, j)) (seq 0 c)) (seq 0 r).

(** A fresh matrix of the given type filled position by position. *)
Definition build (d : Depth) (ch r c : nat) (f : nat -> nat -> Z) : Mat :=
  {| rows := r; cols := c; depth := d; channels := ch;
     data := map (fun rc => f (fst rc) (snd rc)) (coords r c) |}.

Definition same_shape (A B : Mat) : bool :=
  (rows A =? rows B)%nat && (cols A =? cols B)%nat &&
  depth_eqb (depth A) (depth B) && (channels A =? channels B)%nat.

(** [Mat::empty()]: the matrix has no elements. *)
Definition mat_empty (M : Mat) : bool := (rows M * cols M =? 0)%nat.

(** OpenCV's [checkScalar], for the single-channel matrices of this
    program: a 1x1 matrix of the type of [A] is taken for a scalar. *)
Definition scalar_for (S A : Mat) : bool :=
  (rows S =? 1)%nat && (cols S =? 1)%nat && (channels S =? 1)%nat &&
  (channels A =? 1)%nat && depth_eqb (depth S) (depth A).

(** Element-wise binary operations ([Mat::mul], [+], [-], [/], [cv::min],
    [==], [&]): between matrices of one size and type, or between a matrix
    and a scalar; OpenCV raises on any other pair of operands. *)
Definition binop (d : Depth) (op : Z -> Z -> Z) (A B : Mat) : result Mat :=
  if same_shape A B
  then Ok (build d (channels A) (rows A) (cols A) (fun r c => op (pix A r c) (pix B r c)))
  else if scalar_for B A
  then Ok (build d (channels A) (rows A) (cols A) (fun r c => op (pix A r c) (pix B 0 0)))
  else if scalar_for A B
  then Ok (build d (channels B) (rows B) (cols B) (fun r c => op (pix A 0 0) (pix B r c)))
  else Raise StsUnmatchedSizes.

Definition mat_mul (A B : Mat) : result Mat := binop (depth A) F.mul A B.
Definition mat_add (A B : Mat) : result Mat := binop (depth A) F.add A B.
Definition mat_sub (A B : Mat) : result Mat := binop (depth A) F.sub A B.
Definition mat_div (A B : Mat) : result Mat := binop (depth A) F.div A B.
Definition mat_min (A B : Mat) : result Mat := binop (depth A) F.min A B.

(** [s * A.mul(B)]: the scale is folded into the product, which
    [cv::multiply] computes as [(s * a) * b] in single precision. *)
Definition mat_mul_scaled (s : F.f32) (A B : Mat) : result Mat :=
  binop (depth A) (fun a b => F.mul (F.mul s a) b) A B.

(** [cv::max(M, s)] with a scalar: the pixels that [vector_lane] marks go
    through the vector loop, the others through [std::max]. *)
Definition mat_max_scalar (vector_lane : nat -> nat -> bool) (A : Mat) (s : F.f32) : Mat :=
  build (depth A) (channels A) (rows A) (cols A)
        (fun r c => if vector_lane r c then F.vmax (pix A r c) s else F.max (pix A r c) s).

(** Comparison masks are [CV_8U] with 255 for true and 0 for false. *)
Definition mask_of (b : bool) : Z := if b then 255%Z else 0%Z.

(** [M > s] for a [double] scalar [s]: [cv::compare] converts [s] to the
    type of [M], then dst(I) = (src(I) > (float) s). *)
Definition mat_gt_scalar (A : Mat) (s : D.f64) : Mat :=
  build CV_8U (channels A) (rows A) (cols A) (fun r c => mask_of (F.ltb (D.to_f32 s) (pix A r c))).

(** [A == B] and the bitwise [&] of two masks. *)
Definition mat_eq (A B : Mat) : result Mat :=
  binop CV_8U (fun a b => mask_of (F.eqb a b)) A B.
Definition mat_and (A B : Mat) : result Mat := binop CV_8U Z.land A B.

(* ------------------------------------------------------------------ *)
(** *** cv::filter2D *)

(** [cv::borderInterpolate] for BORDER_REFLECT_101, the default border of
    [filter2D]: gfedcb|abcdefgh|gfedcba. *)
Definition reflect101 (p : Z) (len : nat) : nat :=
  if (len <=? 1)%nat then 0%nat
  else
    let period := (2 * (Z.of_nat len - 1))%Z in
    let q := (p mod period)%Z in
    Z.to_nat (if (q <? Z.of_nat len)%Z then q else (period - q)%Z).

Definition pix_reflect (M : Mat) (y x : Z) : Z :=
  pix M (reflect101 y (rows M)) (reflect101 x (cols M)).

(** The sum that [cv::filter2D(src, dst, -1, kernel)] computes: correlation
    with the kernel anchored at its centre,
      dst(x, y) = sum over (x', y') of kernel(x', y') * src(x + x' - ax, y + y' - ay),
    the sum accumulated in single precision over the kernel in scan order;
    [dst] has the size and type of [src]. *)
Definition correlate (src kernel : Mat) : Mat :=
  let ay := Z.of_nat (rows kernel / 2) in
  let ax := Z.of_nat (cols kernel / 2) in
  build (depth src) (channels src) (rows src) (cols src) (fun y x =>
    fold_left
      (fun acc k =>
         F.add acc
           (F.mul (pix kernel (fst k) (snd k))
                  (pix_reflect src (Z.of_nat y + Z.of_nat (fst k) - ay)
                                   (Z.of_nat x + Z.of_nat (snd k) - ax))))
      (coords (rows kernel) (cols kernel)) F.zero).

(** [cv::filter2D(src, dst, -1, kernel)] begins with
    [CV_Assert(!_src.empty())] and [CV_Assert(!_kernel.empty())]. *)
Definition filter2D (src kernel : Mat) : result Mat :=
  if mat_empty src then Raise StsAssert
  else if mat_empty kernel then Raise StsAssert
  else Ok (correlate src kernel).

(* ------------------------------------------------------------------ *)
(** *** cv::dilate with the default 3x3 structuring element *)

(** Pixels outside the image take the default border value of a dilation,
    [-FLT_MAX] for [CV_32F]. *)
Definition pix_border (M : Mat) (y x : Z) : Z :=
  if ((0 <=? y) && (y <? Z.of_nat (rows M)) && (0 <=? x) && (x <? Z.of_nat (cols M)))%Z
  then pix M (Z.to_nat y) (Z.to_nat x)
  else F.neg_flt_max.

Definition window3x3 (M : Mat) (y x : nat) : list Z :=
  map (fun k => pix_border M (Z.of_nat y + Z.of_nat (fst k) - 1)
                             (Z.of_nat x + Z.of_nat (snd k) - 1))
      (coords 3 3).

(** [cv::dilate(src, dst, cv::Mat())]: each pixel becomes the maximum of its
    3x3 neighbourhood. *)
Definition dilate (src : Mat) : Mat :=
  build (depth src) (channels src) (rows src) (cols src) (fun y x =>
    match window3x3 src y x with
    | [] => F.neg_flt_max
    | w :: ws => fold_left F.max ws w
    end).

(* ------------------------------------------------------------------ *)
(** *** cv::minMaxLoc, cv::findNonZero *)

Definition pixels (M : Mat) : list Z :=
  map (fun rc => pix M (fst rc) (snd rc)) (coords (rows M) (cols M)).

(** The running maximum of [minMaxLoc]: starts at -infinity and is replaced
    by every value that compares greater (a NaN never does). *)
Definition running_max (vs : list Z) : F.f32 :=
  fold_left (fun maxVal val => if F.ltb maxVal val then val else maxVal) vs F.neg_infinity.

(** [cv::minMaxLoc(src, nullptr, &max_val)]: the maximum as a [double]; 0
    for a matrix without elements. *)
Definition minMaxLoc_max (src : Mat) : D.f64 :=
  match pixels src with
  | [] => D.zero
  | vs => D.of_f32 (running_max vs)
  end.

Record Point : Type := mkPoint { pt_x : nat; pt_y : nat }.

(** [cv::findNonZero]: the positions of the non-zero pixels in scan order,
    as points (x = column, y = row). *)
Definition findNonZero (mask : Mat) : list Point :=
  map (fun rc => mkPoint (snd rc) (fst rc))
      (filter (fun rc => negb (pix mask (fst rc) (snd rc) =? 0)%Z)
              (coords (rows mask) (cols mask))).

(** [M.at<float>(point)]. *)
Definition at_point (M : Mat) (p : Point) : Z := pix M (pt_y p) (pt_x p).

(* ================================================================== *)
(** ** CornerDetector *)

Inductive CornerMetric : Type := harris | harmonic_mean | min_eigen.

(** [cv::KeyPoint(Point2f pt, float size, float angle = -1,
    float response = 0, int octave = 0, int class_id = -1)]. *)
Record KeyPoint : Type := mkKeyPoint {
  kp_x : F.f32;
  kp_y : F.f32;
  kp_size : F.f32;
  kp_angle : F.f32;
  kp_response : F.f32;
  kp_octave : Z;
  kp_class_id : Z
}.

Record CornerDetector : Type := mkCornerDetector {
  metric_type_ : CornerMetric;
  do_visualize_ : bool;
  quality_level_ : F.f32;
  window_sigma_ : F.f32;
  g_kernel_ : Mat;
  dg_kernel_ : Mat;
  win_kernel_ : Mat
}.

Section Construction.

(** The two kernel builders are declared outside [corner_detector.cpp];
    the constructor only calls them.  Like any C++ call they may throw. *)
Variable create1DGaussianKernel : F.f32 -> result Mat.
Variable create1DDerivatedGaussianKernel : F.f32 -> result Mat.

(** [CornerDetector::CornerDetector], lines 3-15: every member is
    initialised from its argument; nothing else happens. *)
Definition CornerDetector_new (metric : CornerMetric) (do_visualize : bool)
           (quality_level gradient_sigma window_sigma : F.f32)
  : result CornerDetector :=
  g <- create1DGaussianKernel gradient_sigma ;;
  dg <- create1DDerivatedGaussianKernel gradient_sigma ;;
  win <- create1DGaussianKernel window_sigma ;;
  Ok {| metric_type_ := metric;
        do_visualize_ := do_visualize;
        quality_level_ := quality_level;
        window_sigma_ := window_sigma;
        g_kernel_ := g;
        dg_kernel_ := dg;
        win_kernel_ := win |}.

End Construction.

(** [const float alpha = 0.06f]: the float nearest to 0.06,
    16106127 * 2^-28. *)
Definition alpha : F.f32 := 0x3D75C28F%Z.

(** [CornerDetector::harrisMetric], lines 89-106:
    [det_M = A.mul(C) - B.mul(B)], [trace_M = A + C],
    [response = det_M - alpha * trace_M.mul(trace_M)],
    [response = cv::max(response, 0.0)].  The matrix expression
    [alpha * trace_M.mul(trace_M)] is evaluated as one scaled product. *)
Definition harrisMetric (vector_lane : nat -> nat -> bool) (A B C : Mat) : result Mat :=
  AC <- mat_mul A C ;;
  BB <- mat_mul B B ;;
  det_M <- mat_sub AC BB ;;
  trace_M <- mat_add A C ;;
  alpha_TT <- mat_mul_scaled alpha trace_M trace_M ;;
  response <- mat_sub det_M alpha_TT ;;
  Ok (mat_max_scalar vector_lane response F.zero).

(** [CornerDetector::harmonicMeanMetric], lines 108-117:
    [response = (A.mul(C)) / (A + C)]; B is not used.  On [CV_32F]
    [cv::divide] is the IEEE division, with no special case for a zero
    divisor. *)
Definition harmonicMeanMetric (A B C : Mat) : result Mat :=
  AC <- mat_mul A C ;;
  ApC <- mat_add A C ;;
  mat_div AC ApC.

(** [cv::Mat::zeros(size, CV_32FC3)]. *)
Definition zeros3 (r c : nat) : Mat :=
  {| rows := r; cols := c; depth := CV_32F; channels := 3;
     data := repeat 0%Z (r * c * 3) |}.

(** The conversion [cv::Mat -> cv::Vec3f] that [M.at<cv::Vec3f>(i) = A]
    goes through ([Mat::operator Vec<float, 3>]).  It asserts
    [(rows == 1 || cols == 1) && rows + cols - 1 == 3 && channels() == 1]:
    the matrix must be a single-channel vector of 3 elements. *)
Definition Mat_to_Vec3f (A : Mat) : result (Z * Z * Z) :=
  if ((rows A =? 1) || (cols A =? 1))%nat && (rows A + cols A - 1 =? 3)%nat
     && (channels A =? 1)%nat
  then Ok (nth 0 (data A) 0%Z, nth 1 (data A) 0%Z, nth 2 (data A) 0%Z)
  else Raise StsAssert.

Fixpoint list_set (l : list Z) (i : nat) (v : Z) : list Z :=
  match l, i with
  | [], _ => []
  | _ :: t, O => v :: t
  | h :: t, S j => h :: list_set t j v
  end.

(** [M.at<cv::Vec3f>(i) = v] on a three-channel matrix: element [i] holds
    the words 3i, 3i+1, 3i+2. *)
Definition set_Vec3f (M : Mat) (i : nat) (v : Z * Z * Z) : Mat :=
  let '(a, b, c) := v in
  {| rows := rows M; cols := cols M; depth := depth M; channels := channels M;
     data := list_set (list_set (list_set (data M) (3 * i) a) (3 * i + 1) b) (3 * i + 2) c |}.

(** [M.row(i)]. *)
Definition mat_row (M : Mat) (i : nat) : result Mat :=
  if (i <? rows M)%nat
  then Ok {| rows := 1; cols := cols M; depth := depth M; channels := channels M;
             data := firstn (cols M * channels M) (skipn (i * (cols M * channels M)) (data M)) |}
  else Raise StsAssert.

Section Eigen.

(** The symmetric eigen-solver inside [cv::eigen] (eigenvalues in
    descending order, one per row). *)
Variable eigen_solver : Mat -> Mat.

(** Which pixels the vector loop of [cv::max] handles (a matter of the
    build and of the layout of the matrix). *)
Variable vector_lane : nat -> nat -> bool.

(** [cv::eigen(src, eigenvalues)] asserts [src.rows == src.cols] and
    [type == CV_32F || type == CV_64F] (one channel) before it solves. *)
Definition cv_eigen (src : Mat) : result Mat :=
  if (rows src =? cols src)%nat && depth_eqb (depth src) CV_32F
     && (channels src =? 1)%nat
  then Ok (eigen_solver src)
  else Raise StsAssert.

(** [CornerDetector::minEigenMetric], lines 119-139. *)
Definition minEigenMetric (A B C : Mat) : result Mat :=
  let M := zeros3 (rows A) (cols A) in
  a <- Mat_to_Vec3f A ;;
  let M := set_Vec3f M 0 a in
  b <- Mat_to_Vec3f B ;;
  let M := set_Vec3f M 1 b in
  c <- Mat_to_Vec3f C ;;
  let M := set_Vec3f M 2 c in
  eigenvalues <- cv_eigen M ;;
  lambda1 <- mat_row eigenvalues 0 ;;
  lambda2 <- mat_row eigenvalues 1 ;;
  mat_min lambda1 lambda2.

(** [detect], lines 19-23: the gradient images. *)
Definition gradients (d : CornerDetector) (image : Mat) : result (Mat * Mat) :=
  Ix <- filter2D image (g_kernel_ d) ;;
  Iy <- filter2D image (dg_kernel_ d) ;;
  Ok (Ix, Iy).

(** [detect], lines 25-33: the windowed elements of M. *)
Definition structure_tensor (d : CornerDetector) (Ix Iy : Mat)
  : result (Mat * Mat * Mat) :=
  A <- mat_mul Ix Ix ;;
  B <- mat_mul Ix Iy ;;
  C <- mat_mul Iy Iy ;;
  A <- filter2D A (win_kernel_ d) ;;
  B <- filter2D B (win_kernel_ d) ;;
  C <- filter2D C (win_kernel_ d) ;;
  Ok (A, B, C).

(** [detect], lines 35-50: the metric switch. *)
Definition corner_response (d : CornerDetector) (A B C : Mat) : result Mat :=
  match metric_type_ d with
  | harris => harrisMetric vector_lane A B C
  | harmonic_mean => harmonicMeanMetric A B C
  | min_eigen => minEigenMetric A B C
  end.

(** [detect], lines 56-59: [threshold = quality_level_ * max_val], a
    product of doubles. *)
Definition threshold_of (d : CornerDetector) (response : Mat) : D.f64 :=
  D.mul (D.of_f32 (quality_level_ d)) (minMaxLoc_max response).

(** [detect], lines 52-62: the mask
    [(response > threshold) & (response == local_max)]. *)
Definition strong_local_max (d : CornerDetector) (response : Mat) : result Mat :=
  let local_max := dilate response in
  let threshold := threshold_of d response in
  let is_strong := mat_gt_scalar response threshold in
  is_local_max <- mat_eq response local_max ;;
  mat_and is_strong is_local_max.

(** [detect], lines 66-72:
    [cv::KeyPoint{point, keypoint_size, -1, response.at<float>(point)}]
    with [keypoint_size = 3.0f * window_sigma_]. *)
Definition make_keypoint (d : CornerDetector) (response : Mat) (p : Point) : KeyPoint :=
  {| kp_x := F.of_int (Z.of_nat (pt_x p));
     kp_y := F.of_int (Z.of_nat (pt_y p));
     kp_size := F.mul F.three (window_sigma_ d);
     kp_angle := F.minus_one;
     kp_response := at_point response p;
     kp_octave := 0;
     kp_class_id := -1 |}.

(** [detect], lines 52-72: from the response field to the key points. *)
Definition extract_keypoints (d : CornerDetector) (response : Mat) : result (list KeyPoint) :=
  is_strong_and_local_max <- strong_local_max d response ;;
  let max_locations := findNonZero is_strong_and_local_max in
  Ok (map (make_keypoint d response) max_locations).

(** [CornerDetector::detect], lines 17-72 and 86.  The debug figures of
    lines 74-84 are outside the model: they are drawn after the key points
    are built and do not enter the result. *)
Definition detect (d : CornerDetector) (image : Mat) : result (list KeyPoint) :=
  IxIy <- gradients d image ;;
  let '(Ix, Iy) := IxIy in
  ABC <- structure_tensor d Ix Iy ;;
  let '(A, B, C) := ABC in
  response <- corner_response d A B C ;;
  extract_keypoints d response.

End Eigen.

(* ================================================================== *)
(** ** Pointwise readings used by the statements *)

(** [filter2D] wants a source and kernels that have elements. *)
Definition nonempty_input (d : CornerDetector) (image : Mat) : bool :=
  negb (mat_empty image) && negb (mat_empty (g_kernel_ d))
  && negb (mat_empty (dg_kernel_ d)) && negb (mat_empty (win_kernel_ d)).

(** The tensor stage on such an input: the three products are taken between
    fields of the image's size, so none of its checks fails. *)
Definition tensor_fields (d : CornerDetector) (image : Mat) : Mat * Mat * Mat :=
  let Ix := correlate image (g_kernel_ d) in
  let Iy := correlate image (dg_kernel_ d) in
  let prod X Y := build (depth image) (channels image) (rows image) (cols image)
                        (fun r c => F.mul (pix X r c) (pix Y r c)) in
  (correlate (prod Ix Ix) (win_kernel_ d),
   correlate (prod Ix Iy) (win_kernel_ d),
   correlate (prod Iy Iy) (win_kernel_ d)).


(** The Harris value of one pixel before [cv::max(response, 0.0)], as
    lines 96-100 compute it. *)
Definition harris_raw_at (a b c : F.f32) : F.f32 :=
  let det_M := F.sub (F.mul a c) (F.mul b b) in
  let trace_M := F.add a c in
  F.sub det_M (F.mul (F.mul alpha trace_M) trace_M).

(** The clamp of line 103 on one pixel, in the vector loop or in the
    scalar loop. *)
Definition clamp_at (vector : bool) (raw : F.f32) : F.f32 :=
  if vector then F.vmax raw F.zero else F.max raw F.zero.

(** The Harris response of one pixel. *)
Definition harris_at (vector : bool) (a b c : F.f32) : F.f32 :=
  clamp_at vector (harris_raw_at a b c).

(** The harmonic-mean response of one pixel, line 114. *)
Definition harmonic_at (a c : F.f32) : F.f32 := F.div (F.mul a c) (F.add a c).

(** The test of line 62 at one pixel: [response > threshold] and
    [response == local_max]. *)
Definition is_strong_local_max_at (d : CornerDetector) (response : Mat) (r c : nat) : bool :=
  F.ltb (D.to_f32 (threshold_of d response)) (pix response r c)
  && F.eqb (pix response r c) (pix (dilate response) r c).

(** The locations that pass, in scan order. *)
Definition max_locations (d : CornerDetector) (response : Mat) : list Point :=
  map (fun rc => mkPoint (snd rc) (fst rc))
      (filter (fun rc => is_strong_local_max_at d response (fst rc) (snd rc))
              (coords (rows response) (cols response))).

(* ------------------------------------------------------------------ *)
(** *** The value of a floating-point number *)

(** Finite values are read as integers in units of [2 ^ -scale] (every
    binary32 and binary64 number, and every product of two binary32 numbers,
    is a whole number of such units); infinities and NaN stay apart. *)
Definition scale : Z := 1200.

Inductive ext : Type := ENaN | ENegInf | EFin (v : Z) | EPosInf.

Definition value (x : spec_float) : ext :=
  match x with
  | S754_nan => ENaN
  | S754_infinity s => if s then ENegInf else EPosInf
  | S754_zero _ => EFin 0
  | S754_finite s m e => EFin (cond_Zopp s (Zpos m * 2 ^ (e + scale)))
  end.

Definition ext_compare (a b : ext) : option comparison :=
  match a, b with
  | ENaN, _ | _, ENaN => None
  | ENegInf, ENegInf => Some Eq
  | ENegInf, _ => Some Lt
  | _, ENegInf => Some Gt
  | EPosInf, EPosInf => Some Eq
  | EPosInf, _ => Some Gt
  | _, EPosInf => Some Lt
  | EFin u, EFin v => Some (u ?= v)%Z
  end.

(** The product of two values, with the IEEE rules for infinities. *)
Definition ext_mul (a b : ext) : ext :=
  match a, b with
  | ENaN, _ | _, ENaN => ENaN
  | EFin u, EFin v => EFin (u * v / 2 ^ scale)
  | EFin u, EPosInf | EPosInf, EFin u =>
      match u with Z0 => ENaN | Zpos _ => EPosInf | Zneg _ => ENegInf end
  | EFin u, ENegInf | ENegInf, EFin u =>
      match u with Z0 => ENaN | Zpos _ => ENegInf | Zneg _ => EPosInf end
  | EPosInf, EPosInf | ENegInf, ENegInf => EPosInf
  | EPosInf, ENegInf | ENegInf, EPosInf => ENegInf
  end.

(** The value of a float word. *)
Definition fval (a : F.f32) : ext := value (F.decode a).

Definition ext_ltb (a b : ext) : bool :=
  match ext_compare a b with Some Lt => true | _ => false end.
Definition ext_leb (a b : ext) : bool :=
  match ext_compare a b with Some Lt | Some Eq => true | _ => false end.
Definition ext_eqb (a b : ext) : bool :=
  match ext_compare a b with Some Eq => true | _ => false end.

(** A double that came from a float: 53-digit mantissa, exponent in the
    range of widened binary32 numbers. *)
Definition wide (x : spec_float) : Prop :=
  match x with
  | S754_finite _ M E =>
      exists m : positive,
        Zpos M = Zpos m * 2 ^ (53 - Zpos (digits2_pos m)) /\
        1 <= Zpos (digits2_pos m) <= 24 /\
        -149 <= E + 53 - Zpos (digits2_pos m) <= 104
  | _ => True
  end%Z.

(** The maximum word [minMaxLoc] reports (before its conversion to double). *)
Definition max_word (M : Mat) : F.f32 :=
  match pixels M with
  | [] => F.zero
  | vs => running_max vs
  end.

(* ------------------------------------------------------------------ *)
(** *** Kernel builders after the spec *)

(** A column kernel (N x 1, [CV_32F]) from its taps. *)
Definition column_kernel (taps : list Z) : Mat :=
  {| rows := length taps; cols := 1; depth := CV_32F; channels := 1; data := taps |}.

(** A row kernel (1 x N). *)
Definition row_kernel (taps : list Z) : Mat :=
  {| rows := 1; cols := length taps; depth := CV_32F; channels := 1; data := taps |}.

(** Modelled from the spec: [create1DGaussianKernel], declared outside
    [corner_detector.cpp].  Section 4.1: given a sigma > 0 it produces a
    1-D smoothing kernel of odd length and unit sum, and it fails with a
    configuration error if sigma <= 0.  The taps 1/4, 1/2, 1/4 stand for the
    sampled Gaussian, whose values play no part in construction. *)
Definition spec_create1DGaussianKernel (sigma : F.f32) : result Mat :=
  if F.ltb F.zero sigma
  then Ok (column_kernel [0x3E800000; 0x3F000000; 0x3E800000]%Z)
  else Raise StsBadArg.

(** Modelled from the spec: [create1DDerivatedGaussianKernel], declared
    outside [corner_detector.cpp].  Section 4.1: an antisymmetric derivative
    kernel of zero net sum, failing if sigma <= 0.  The taps -1/2, 0, 1/2
    stand for the sampled derivative. *)
Definition spec_create1DDerivatedGaussianKernel (sigma : F.f32) : result Mat :=
  if F.ltb F.zero sigma
  then Ok (column_kernel [0xBF000000; 0; 0x3F000000]%Z)
  else Raise StsBadArg.

Definition two : F.f32 := 0x40000000%Z.   (* 2.0f *)

(* ------------------------------------------------------------------ *)
(** *** The gradient estimator after the spec *)

(** The taps of a 1-D kernel, whichever way it lies. *)
Definition kernel_taps (k : Mat) : list Z := pixels k.

(** Convolution of every column (along y) and of every row (along x) with
    a 1-D kernel: the correlation of [correlate] with the taps reversed, the
    border reflected as everywhere else. *)
Definition convolve_along_y (image : Mat) (taps : list Z) : Mat :=
  correlate image (column_kernel (rev taps)).
Definition convolve_along_x (image : Mat) (taps : list Z) : Mat :=
  correlate image (row_kernel (rev taps)).

(** Section 4.2 of the spec: Ix = image * g (along one axis) * dg (along
    the orthogonal axis); Iy = image * dg * g with the axes swapped.  Ix, the
    horizontal gradient, differentiates along x and smooths along y. *)
Definition spec_Ix (image g dg : Mat) : Mat :=
  convolve_along_x (convolve_along_y image (kernel_taps g)) (kernel_taps dg).
Definition spec_Iy (image g dg : Mat) : Mat :=
  convolve_along_y (convolve_along_x image (kernel_taps g)) (kernel_taps dg).

(* ------------------------------------------------------------------ *)
(** *** Concrete inputs *)

Definition g3 : Mat := column_kernel [0x3E800000; 0x3F000000; 0x3E800000]%Z.   (* 1/4 1/2 1/4 *)
Definition dg3 : Mat := column_kernel [0xBF000000; 0; 0x3F000000]%Z.           (* -1/2 0 1/2 *)

Definition half : F.f32 := 0x3F000000%Z.    (* 0.5f *)
Definition tenth : F.f32 := 0x3DCCCCCD%Z.   (* 0.1f *)
Definition big : F.f32 := 0x71800000%Z.     (* 2^100 *)

(** An image filled with one value. *)
Definition flat_image (r c : nat) (v : F.f32) : Mat :=
  {| rows := r; cols := c; depth := CV_32F; channels := 1; data := repeat v (r * c) |}.

(** A 5x5 image with a bright 2x2 corner patch. *)
Definition corner_image : Mat :=
  {| rows := 5; cols := 5; depth := CV_32F; channels := 1;
     data := [F.one; F.one; 0; 0; 0;
              F.one; F.one; 0; 0; 0;
              0; 0; 0; 0; 0;
              0; 0; 0; 0; 0;
              0; 0; 0; 0; 0]%Z |}.

Definition sample_detector (m : CornerMetric) (q : F.f32) : CornerDetector :=
  mkCornerDetector m false q F.one g3 dg3 g3.

Definition identity_solver (M : Mat) : Mat := M.



(* ------------------------------------------------------------------ *)
(** *** The order of the key points *)

(** [p] comes before [q] in a row-by-row scan of the image. *)
Definition scan_before (p q : Point) : Prop :=
  pt_y p < pt_y q \/ (pt_y p = pt_y q /\ pt_x p < pt_x q).

(** The same order on (row, column) pairs. *)
Definition lex_lt (p q : nat * nat) : Prop :=
  fst p < fst q \/ (fst p = fst q /\ snd p < snd q).

(* ------------------------------------------------------------------ *)
(** *** The inverted image *)

(** [-a] on floats. *)
Definition float_neg (a : F.f32) : F.f32 := F.encode (SFopp (F.decode a)).

(** [-image]: every pixel negated. *)
Definition mat_neg (M : Mat) : Mat :=
  build (depth M) (channels M) (rows M) (cols M) (fun r c => float_neg (pix M r c)).

(** Two numbers that are opposite, the sign of a zero left aside; two
    numbers that are equal, the sign of a zero left aside. *)
Definition opposite (x y : spec_float) : Prop :=
  match x, y with
  | S754_zero _, S754_zero _ => True
  | _, _ => y = SFopp x
  end.

Definition alike (x y : spec_float) : Prop :=
  match x, y with
  | S754_zero _, S754_zero _ => True
  | _, _ => y = x
  end.

(** A field whose pixels are all NaN. *)
Definition nan_field (M : Mat) : Prop :=
  forall r c, r < rows M -> c < cols M -> F.is_nan (pix M r c) = true.

(* ------------------------------------------------------------------ *)
(** *** Rounding a double to single precision, on values *)

(** Rounding of [v >= 0] to the nearest multiple of [G], ties to the even
    multiple. *)
Definition rne (G v : Z) : Z :=
  let q := (v / G)%Z in
  let r := (v mod G)%Z in
  ((q + (if (G <? 2 * r)%Z || ((2 * r =? G)%Z && Z.odd q) then 1 else 0)) * G)%Z.

(** The spacing of the binary32 numbers around a value [v > 0], in units of
    [2 ^ -scale]: 24 significant digits, and never finer than 2^-149. *)
Definition grid32 (v : Z) : Z := (2 ^ Z.max (Z.log2 v - 23) (scale - 149))%Z.

Definition round_units (v : Z) : Z := rne (grid32 v) v.

(** The value of [(float) x] from the value of the double [x]. *)
Definition ext_round32 (x : ext) : ext :=
  match x with
  | EFin Z0 => EFin 0
  | EFin (Zpos p) =>
      let w := round_units (Zpos p) in
      if (2 ^ (128 + scale) <=? w)%Z then EPosInf else EFin w
  | EFin (Zneg p) =>
      let w := round_units (Zpos p) in
      if (2 ^ (128 + scale) <=? w)%Z then ENegInf else EFin (- w)
  | _ => x
  end.

(** The mantissa [binary_round] keeps of [m] when it drops [n > 0] low
    bits: the quotient, plus one when the dropped part is above the half,
    or is the half with an odd quotient. *)
Definition rounded_mantissa (m n : Z) : Z :=
  let q := (m / 2 ^ n)%Z in
  (q + (if Z.odd (m / 2 ^ (n - 1))
        then (if negb (m mod 2 ^ (n - 1) =? 0)%Z then 1
              else if Z.even q then 0 else 1)
        else 0))%Z.

(* ------------------------------------------------------------------ *)
(** *** Flat images *)






(* ------------------------------------------------------------------ *)
(** *** Signs *)




(* ------------------------------------------------------------------ *)
(** *** Sample response fields *)





(* ------------------------------------------------------------------ *)
(** *** The response to a flat image *)




(* ------------------------------------------------------------------ *)
(** *** The two loops of [cv::max] *)

(** Every pixel clamped by the scalar loop (a field narrower than one
    vector), every pixel clamped by the vector loop. *)
Definition scalar_lanes (r c : nat) : bool := false.
Definition vector_lanes (r c : nat) : bool := true.
(* ================================================================== *)
(** * Verification *)

(** Floating-point operations stay folded under [simpl]; concrete runs use
    [vm_compute]. *)
Arguments Binary32.decode : simpl never.
Arguments Binary32.encode : simpl never.
Arguments Binary32.add : simpl never.
Arguments Binary32.sub : simpl never.
Arguments Binary32.mul : simpl never.
Arguments Binary32.div : simpl never.
Arguments Binary32.ltb : simpl never.
Arguments Binary32.eqb : simpl never.
Arguments Binary32.leb : simpl never.
Arguments Binary32.max : simpl never.
Arguments Binary32.min : simpl never.
Arguments Binary32.vmax : simpl never.
Arguments Binary32.of_int : simpl never.
Arguments Binary64.of_f32 : simpl never.
Arguments Binary64.to_f32 : simpl never.
Arguments Binary64.mul : simpl never.
Arguments Binary64.ltb : simpl never.
Arguments Binary64.leb : simpl never.
Arguments coords : simpl never.
Arguments pix : simpl never.

(** ** Scan order and pixel access *)

Section Scan.

Variable c : nat.

Let row_of (i : nat) : list (nat * nat) := map (fun j => (i, j)) (seq 0 c).

Lemma row_of_In (i : nat) (p : nat * nat) : In p (row_of i) <-> fst p = i /\ snd p < c.
Proof.
  unfold row_of. rewrite in_map_iff. split.
  - intros [j [Hj Hin]]. subst p. apply in_seq in Hin. simpl. lia.
  - intros [Hi Hj]. exists (snd p). split.
    + destruct p; simpl in *; subst; reflexivity.
    + apply in_seq. lia.
Qed.

Lemma row_of_NoDup (i : nat) : NoDup (row_of i).
Proof.
  unfold row_of. apply Injective_map_NoDup; [|apply seq_NoDup].
  intros x y Hxy. inversion Hxy. reflexivity.
Qed.

Lemma rows_NoDup (l : list nat) : NoDup l -> NoDup (flat_map row_of l).
Proof.
  induction l as [|a l IH]; simpl; intros Hnd; [constructor|].
  inversion Hnd as [|? ? Hnotin Hnd']; subst.
  apply NoDup_app; [apply row_of_NoDup | apply IH; assumption |].
  intros p Hp Hq. apply row_of_In in Hp. apply in_flat_map in Hq.
  destruct Hq as [k [Hk Hq]]. apply row_of_In in Hq.
  destruct Hp as [Hp _], Hq as [Hq _]. congruence.
Qed.

Lemma rows_nth (n s i j : nat) (d : nat * nat) :
  i < n -> j < c ->
  nth (i * c + j) (flat_map row_of (seq s n)) d = (s + i, j).
Proof.
  revert s i. induction n as [|n IH]; intros s i Hi Hj; [lia|].
  simpl. destruct i as [|i].
  - rewrite app_nth1 by (unfold row_of; rewrite length_map, length_seq; lia).
    simpl. unfold row_of.
    rewrite (nth_indep _ d (s, 0)) by (rewrite length_map, length_seq; lia).
    rewrite (map_nth (fun j => (s, j)) (seq 0 c) 0 j), seq_nth by lia.
    f_equal; lia.
  - rewrite app_nth2 by (unfold row_of; rewrite length_map, length_seq; simpl; lia).
    unfold row_of at 1. rewrite length_map, length_seq.
    replace (S i * c + j - c) with (i * c + j) by (simpl; lia).
    rewrite IH by lia. f_equal; lia.
Qed.

End Scan.

Lemma coords_In (r c i j : nat) : In (i, j) (coords r c) <-> i < r /\ j < c.
Proof.
  unfold coords. rewrite in_flat_map. split.
  - intros [k [Hk Hin]]. apply row_of_In in Hin. apply in_seq in Hk. simpl in Hin. lia.
  - intros [Hi Hj]. exists i. split; [apply in_seq; lia|].
    apply row_of_In. simpl. lia.
Qed.

Lemma coords_NoDup (r c : nat) : NoDup (coords r c).
Proof. unfold coords. apply rows_NoDup, seq_NoDup. Qed.

Lemma coords_length (r c : nat) : length (coords r c) = r * c.
Proof.
  unfold coords. transitivity (length (seq 0 r) * c); [|rewrite length_seq; reflexivity].
  generalize (seq 0 r). intros l.
  induction l as [|a l IH]; simpl; [reflexivity|].
  rewrite length_app, length_map, length_seq, IH. reflexivity.
Qed.

Lemma coords_nth (r c i j : nat) (d : nat * nat) :
  i < r -> j < c -> nth (i * c + j) (coords r c) d = (i, j).
Proof. intros Hi Hj. unfold coords. rewrite rows_nth by assumption. reflexivity. Qed.

Lemma pix_build (d : Depth) (ch r c : nat) (f : nat -> nat -> Z) (i j : nat) :
  i < r -> j < c -> pix (build d ch r c f) i j = f i j.
Proof.
  intros Hi Hj. unfold pix, build. simpl.
  assert (Hlen : i * c + j < length (coords r c)) by (rewrite coords_length; nia).
  rewrite (nth_indep _ 0%Z (f 0 0)) by (rewrite length_map; assumption).
  rewrite (map_nth (fun rc => f (fst rc) (snd rc)) (coords r c) (0, 0)).
  rewrite coords_nth by assumption. reflexivity.
Qed.


Lemma pixels_In (M : Mat) (i j : nat) :
  i < rows M -> j < cols M -> In (pix M i j) (pixels M).
Proof.
  intros Hi Hj. unfold pixels. apply in_map_iff. exists (i, j).
  split; [reflexivity|]. apply coords_In. tauto.
Qed.

Lemma same_shape_refl (A : Mat) : same_shape A A = true.
Proof.
  unfold same_shape. rewrite !Nat.eqb_refl. destruct (depth A); reflexivity.
Qed.

Lemma same_shape_spec (A B : Mat) :
  same_shape A B = true <->
  rows A = rows B /\ cols A = cols B /\ depth A = depth B /\ channels A = channels B.
Proof.
  unfold same_shape. rewrite !andb_true_iff, !Nat.eqb_eq.
  destruct (depth A), (depth B); simpl; intuition congruence.
Qed.

Lemma binop_ok (d : Depth) (op : Z -> Z -> Z) (A B : Mat) :
  same_shape A B = true ->
  binop d op A B = Ok (build d (channels A) (rows A) (cols A) (fun r c => op (pix A r c) (pix B r c))).
Proof. intros H. unfold binop. rewrite H. reflexivity. Qed.

(** ** Shapes *)

Lemma build_rows (d : Depth) (ch r c : nat) (f : nat -> nat -> Z) : rows (build d ch r c f) = r.
Proof. reflexivity. Qed.
Lemma build_cols (d : Depth) (ch r c : nat) (f : nat -> nat -> Z) : cols (build d ch r c f) = c.
Proof. reflexivity. Qed.
Lemma build_depth (d : Depth) (ch r c : nat) (f : nat -> nat -> Z) : depth (build d ch r c f) = d.
Proof. reflexivity. Qed.
Lemma build_channels (d : Depth) (ch r c : nat) (f : nat -> nat -> Z) : channels (build d ch r c f) = ch.
Proof. reflexivity. Qed.

Lemma correlate_rows (src kernel : Mat) : rows (correlate src kernel) = rows src.
Proof. reflexivity. Qed.
Lemma correlate_cols (src kernel : Mat) : cols (correlate src kernel) = cols src.
Proof. reflexivity. Qed.
Lemma correlate_depth (src kernel : Mat) : depth (correlate src kernel) = depth src.
Proof. reflexivity. Qed.
Lemma correlate_channels (src kernel : Mat) : channels (correlate src kernel) = channels src.
Proof. reflexivity. Qed.

Lemma dilate_rows (src : Mat) : rows (dilate src) = rows src.
Proof. reflexivity. Qed.
Lemma dilate_cols (src : Mat) : cols (dilate src) = cols src.
Proof. reflexivity. Qed.
Lemma dilate_depth (src : Mat) : depth (dilate src) = depth src.
Proof. reflexivity. Qed.
Lemma dilate_channels (src : Mat) : channels (dilate src) = channels src.
Proof. reflexivity. Qed.

Lemma mat_gt_scalar_rows (A : Mat) (s : D.f64) : rows (mat_gt_scalar A s) = rows A.
Proof. reflexivity. Qed.
Lemma mat_gt_scalar_cols (A : Mat) (s : D.f64) : cols (mat_gt_scalar A s) = cols A.
Proof. reflexivity. Qed.
Lemma mat_max_scalar_rows (lane : nat -> nat -> bool) (A : Mat) (s : F.f32) :
  rows (mat_max_scalar lane A s) = rows A.
Proof. reflexivity. Qed.
Lemma mat_max_scalar_cols (lane : nat -> nat -> bool) (A : Mat) (s : F.f32) :
  cols (mat_max_scalar lane A s) = cols A.
Proof. reflexivity. Qed.

Lemma mat_empty_same_size (M N : Mat) :
  rows M = rows N -> cols M = cols N -> mat_empty M = mat_empty N.
Proof. unfold mat_empty. intros -> ->. reflexivity. Qed.

Lemma mat_empty_false (M : Mat) : mat_empty M = false -> 0 < rows M /\ 0 < cols M.
Proof. unfold mat_empty. intros H. apply Nat.eqb_neq in H. lia. Qed.

Lemma pix_correlate (src kernel : Mat) (y x : nat) :
  y < rows src -> x < cols src ->
  pix (correlate src kernel) y x =
  fold_left
    (fun acc k =>
       F.add acc
         (F.mul (pix kernel (fst k) (snd k))
                (pix_reflect src (Z.of_nat y + Z.of_nat (fst k) - Z.of_nat (rows kernel / 2))
                                 (Z.of_nat x + Z.of_nat (snd k) - Z.of_nat (cols kernel / 2)))))
    (coords (rows kernel) (cols kernel)) F.zero.
Proof. intros Hy Hx. unfold correlate. rewrite pix_build by assumption. reflexivity. Qed.

Lemma pix_dilate (src : Mat) (y x : nat) :
  y < rows src -> x < cols src ->
  pix (dilate src) y x =
  match window3x3 src y x with
  | [] => F.neg_flt_max
  | w :: ws => fold_left F.max ws w
  end.
Proof. intros Hy Hx. unfold dilate. rewrite pix_build by assumption. reflexivity. Qed.

#[global] Opaque build correlate dilate.

Create Rewrite HintDb shape.
#[global] Hint Rewrite build_rows build_cols build_depth build_channels
  correlate_rows correlate_cols correlate_depth correlate_channels
  dilate_rows dilate_cols dilate_depth dilate_channels
  mat_gt_scalar_rows mat_gt_scalar_cols
  mat_max_scalar_rows mat_max_scalar_cols : shape.

(** Shape side conditions of the element-wise operations. *)
Ltac shape :=
  unfold mat_max_scalar, mat_gt_scalar;
  repeat match goal with
         | H : same_shape _ _ = true |- _ =>
             apply same_shape_spec in H; destruct H as (?&?&?&?)
         end;
  try apply same_shape_spec;
  autorewrite with shape;
  repeat split; congruence.


(** ** The minimum-eigenvalue metric never returns *)

Lemma set_Vec3f_channels (M : Mat) (i : nat) (v : Z * Z * Z) :
  channels (set_Vec3f M i v) = channels M.
Proof. destruct v as [[a b] c]. reflexivity. Qed.

Lemma cv_eigen_three_channels (solver : Mat -> Mat) (M : Mat) :
  channels M = 3 -> cv_eigen solver M = Raise StsAssert.
Proof.
  intros H. unfold cv_eigen. rewrite H. simpl. rewrite andb_false_r. reflexivity.
Qed.

Lemma minEigenMetric_raises (solver : Mat -> Mat) (A B C : Mat) :
  minEigenMetric solver A B C = Raise StsAssert.
Proof.
  unfold minEigenMetric.
  destruct (Mat_to_Vec3f A) as [a|e] eqn:Ha; simpl.
  2:{ unfold Mat_to_Vec3f in Ha. destruct (_ && _ && _) in Ha; congruence. }
  destruct (Mat_to_Vec3f B) as [b|e] eqn:Hb; simpl.
  2:{ unfold Mat_to_Vec3f in Hb. destruct (_ && _ && _) in Hb; congruence. }
  destruct (Mat_to_Vec3f C) as [c|e] eqn:Hc; simpl.
  2:{ unfold Mat_to_Vec3f in Hc. destruct (_ && _ && _) in Hc; congruence. }
  rewrite cv_eigen_three_channels; [reflexivity|].
  rewrite !set_Vec3f_channels. reflexivity.
Qed.

Lemma filter2D_ok (src kernel : Mat) :
  mat_empty src = false -> mat_empty kernel = false ->
  filter2D src kernel = Ok (correlate src kernel).
Proof. intros Hs Hk. unfold filter2D. rewrite Hs, Hk. reflexivity. Qed.

Lemma nonempty_input_spec (d : CornerDetector) (image : Mat) :
  nonempty_input d image = true <->
  mat_empty image = false /\ mat_empty (g_kernel_ d) = false /\
  mat_empty (dg_kernel_ d) = false /\ mat_empty (win_kernel_ d) = false.
Proof.
  unfold nonempty_input. rewrite !andb_true_iff, !negb_true_iff. tauto.
Qed.

Lemma tensor_fields_shape (d : CornerDetector) (image : Mat) :
  let '(A, B, C) := tensor_fields d image in
  same_shape A B = true /\ same_shape A C = true /\ same_shape B B = true /\
  rows A = rows image /\ cols A = cols image.
Proof.
  unfold tensor_fields.
  split; [shape|]. split; [shape|]. split; [shape|].
  autorewrite with shape. split; reflexivity.
Qed.

Lemma gradients_ok (d : CornerDetector) (image : Mat) :
  nonempty_input d image = true ->
  gradients d image = Ok (correlate image (g_kernel_ d), correlate image (dg_kernel_ d)).
Proof.
  intros H. apply nonempty_input_spec in H. destruct H as (Hi & Hg & Hdg & _).
  unfold gradients. rewrite !filter2D_ok by assumption. reflexivity.
Qed.

Lemma structure_tensor_ok (d : CornerDetector) (image : Mat) :
  nonempty_input d image = true ->
  structure_tensor d (correlate image (g_kernel_ d)) (correlate image (dg_kernel_ d))
  = Ok (tensor_fields d image).
Proof.
  intros H. apply nonempty_input_spec in H. destruct H as (Hi & _ & _ & Hw).
  unfold structure_tensor, mat_mul.
  rewrite !binop_ok by shape. cbn [bind].
  rewrite !filter2D_ok
    by (try assumption; rewrite <- Hi; apply mat_empty_same_size; autorewrite with shape; reflexivity).
  cbn [bind]. unfold tensor_fields. autorewrite with shape. reflexivity.
Qed.

(** [detect] stops at the first [filter2D] whose source or kernel has no
    elements; otherwise the tensor stage goes through. *)
Lemma detect_unfold (solver : Mat -> Mat) (lane : nat -> nat -> bool)
      (d : CornerDetector) (image : Mat) :
  detect solver lane d image =
  if nonempty_input d image
  then (let '(A, B, C) := tensor_fields d image in
        response <- corner_response solver lane d A B C ;;
        extract_keypoints d response)
  else Raise StsAssert.
Proof.
  destruct (nonempty_input d image) eqn:H.
  - unfold detect. rewrite gradients_ok by assumption. cbn [bind].
    rewrite structure_tensor_ok by assumption. reflexivity.
  - unfold detect, gradients, filter2D, nonempty_input in *.
    destruct (mat_empty image) eqn:Hi; [reflexivity|].
    destruct (mat_empty (g_kernel_ d)) eqn:Hg; [reflexivity|].
    destruct (mat_empty (dg_kernel_ d)) eqn:Hdg; [reflexivity|].
    destruct (mat_empty (win_kernel_ d)) eqn:Hw; [|discriminate].
    cbn [bind]. unfold structure_tensor, mat_mul.
    rewrite !binop_ok by shape. cbn [bind].
    unfold filter2D.
    match goal with |- context [mat_empty ?M] =>
      replace (mat_empty M) with false
        by (rewrite <- Hi; apply mat_empty_same_size; autorewrite with shape; reflexivity)
    end.
    rewrite Hw. reflexivity.
Qed.

Lemma detect_min_eigen_raises (solver : Mat -> Mat) (lane : nat -> nat -> bool)
      (v : bool) (q ws : F.f32) (g dg win image : Mat) :
  detect solver lane (mkCornerDetector min_eigen v q ws g dg win) image = Raise StsAssert.
Proof.
  rewrite detect_unfold. destruct (nonempty_input _ image); [|reflexivity].
  destruct (tensor_fields _ image) as [[A B] C].
  unfold corner_response. simpl. rewrite minEigenMetric_raises. reflexivity.
Qed.

(** ** The Harris and harmonic-mean metrics, pixel by pixel *)

Ltac pixb :=
  repeat (rewrite pix_build by (autorewrite with shape; first [assumption | lia])).

Lemma harrisMetric_spec (lane : nat -> nat -> bool) (A B C : Mat) :
  same_shape A B = true -> same_shape A C = true ->
  exists R, harrisMetric lane A B C = Ok R /\
            rows R = rows A /\ cols R = cols A /\
            forall r c, r < rows A -> c < cols A ->
                        pix R r c = harris_at (lane r c) (pix A r c) (pix B r c) (pix C r c).
Proof.
  intros HAB HAC. unfold harrisMetric, mat_mul, mat_mul_scaled, mat_sub, mat_add.
  assert (HBB : same_shape B B = true) by apply same_shape_refl.
  rewrite (binop_ok _ _ _ _ HAC). cbn [bind].
  rewrite (binop_ok _ _ _ _ HBB). cbn [bind].
  rewrite binop_ok by shape. cbn [bind].
  rewrite (binop_ok _ _ _ _ HAC). cbn [bind].
  rewrite binop_ok by shape. cbn [bind].
  rewrite binop_ok by shape. cbn [bind].
  eexists. split; [reflexivity|].
  apply same_shape_spec in HAB, HAC.
  destruct HAB as (Hr1 & Hc1 & _), HAC as (Hr2 & Hc2 & _).
  unfold mat_max_scalar. autorewrite with shape.
  split; [reflexivity|]. split; [reflexivity|].
  intros r c Hr Hc. pixb. unfold harris_at, clamp_at, harris_raw_at. cbv zeta. reflexivity.
Qed.

Lemma harmonicMeanMetric_spec (A B C : Mat) :
  same_shape A C = true ->
  exists R, harmonicMeanMetric A B C = Ok R /\
            rows R = rows A /\ cols R = cols A /\
            forall r c, r < rows A -> c < cols A ->
                        pix R r c = harmonic_at (pix A r c) (pix C r c).
Proof.
  intros HAC. unfold harmonicMeanMetric, mat_mul, mat_add, mat_div.
  rewrite (binop_ok _ _ _ _ HAC). cbn [bind].
  rewrite (binop_ok _ _ _ _ HAC). cbn [bind].
  rewrite binop_ok by shape. cbn [bind].
  eexists. split; [reflexivity|].
  autorewrite with shape.
  split; [reflexivity|]. split; [reflexivity|].
  intros r c Hr Hc. pixb. unfold harmonic_at. reflexivity.
Qed.

(** ** The maxima selector *)

Lemma mask_and_nonzero (a b : bool) :
  negb (Z.land (mask_of a) (mask_of b) =? 0)%Z = a && b.
Proof. destruct a, b; reflexivity. Qed.

Lemma strong_local_max_ok (d : CornerDetector) (response : Mat) :
  exists mask, strong_local_max d response = Ok mask /\
    rows mask = rows response /\ cols mask = cols response /\
    forall r c, r < rows response -> c < cols response ->
      negb (pix mask r c =? 0)%Z = is_strong_local_max_at d response r c.
Proof.
  unfold strong_local_max, mat_eq, mat_and.
  rewrite binop_ok by shape. cbn [bind].
  rewrite binop_ok by shape.
  eexists. split; [reflexivity|].
  unfold mat_gt_scalar. autorewrite with shape.
  split; [reflexivity|]. split; [reflexivity|].
  intros r c Hr Hc. pixb. rewrite mask_and_nonzero. reflexivity.
Qed.

Lemma extract_keypoints_spec (d : CornerDetector) (response : Mat) :
  extract_keypoints d response
  = Ok (map (make_keypoint d response) (max_locations d response)).
Proof.
  unfold extract_keypoints.
  destruct (strong_local_max_ok d response) as [mask [Hm [Hr [Hc Hpix]]]].
  rewrite Hm. cbn [bind]. f_equal. f_equal.
  unfold findNonZero, max_locations. rewrite Hr, Hc. f_equal.
  apply filter_ext_in. intros [i j] Hin. apply coords_In in Hin.
  simpl. apply Hpix; tauto.
Qed.

Lemma max_locations_In (d : CornerDetector) (response : Mat) (x y : nat) :
  In (mkPoint x y) (max_locations d response) <->
  x < cols response /\ y < rows response /\
  is_strong_local_max_at d response y x = true.
Proof.
  unfold max_locations. rewrite in_map_iff. split.
  - intros [[i j] [Heq Hin]]. inversion Heq; subst. simpl in *.
    apply filter_In in Hin. destruct Hin as [Hin Hsel].
    apply coords_In in Hin. simpl in Hsel. tauto.
  - intros (Hx & Hy & Hsel). exists (y, x). split; [reflexivity|].
    apply filter_In. split; [apply coords_In; tauto | exact Hsel].
Qed.

Lemma max_locations_NoDup (d : CornerDetector) (response : Mat) :
  NoDup (max_locations d response).
Proof.
  unfold max_locations. apply Injective_map_NoDup.
  - intros [a b] [a' b'] H. inversion H. reflexivity.
  - apply NoDup_filter, coords_NoDup.
Qed.

Lemma max_locations_nil (d : CornerDetector) (response : Mat) :
  (forall r c, r < rows response -> c < cols response ->
               is_strong_local_max_at d response r c = false) ->
  max_locations d response = [].
Proof.
  intros H. unfold max_locations.
  assert (E : filter (fun rc => is_strong_local_max_at d response (fst rc) (snd rc))
                     (coords (rows response) (cols response)) = []).
  { assert (G : forall l, (forall rc, In rc l -> In rc (coords (rows response) (cols response))) ->
                          filter (fun rc => is_strong_local_max_at d response (fst rc) (snd rc)) l = []).
    { induction l as [|[i j] l IH]; intros Hl; [reflexivity|]. cbn [filter fst snd].
      pose proof (Hl (i, j) (or_introl eq_refl)) as Hin. apply coords_In in Hin.
      rewrite H by tauto. apply IH. intros rc Hrc. apply Hl. right. exact Hrc. }
    apply G. auto. }
  rewrite E. reflexivity.
Qed.

Lemma filter_weaken {A : Type} (p q : A -> bool) (l : list A) :
  (forall x, In x l -> p x = true -> q x = true) ->
  incl (filter p l) (filter q l) /\ length (filter p l) <= length (filter q l).
Proof.
  intros H. split.
  - intros x Hx. apply filter_In in Hx. apply filter_In. destruct Hx; auto.
  - induction l as [|a l IH]; simpl; [lia|].
    assert (IH' : length (filter p l) <= length (filter q l))
      by (apply IH; intros x Hx; apply H; right; exact Hx).
    pose proof (H a (or_introl eq_refl)) as Ha.
    destruct (p a), (q a); simpl; try lia;
      try (specialize (Ha eq_refl); discriminate).
Qed.

Lemma detect_spec (solver : Mat -> Mat) (lane : nat -> nat -> bool)
      (d : CornerDetector) (image : Mat) :
  detect solver lane d image =
  if nonempty_input d image
  then (let '(A, B, C) := tensor_fields d image in
        response <- corner_response solver lane d A B C ;;
        Ok (map (make_keypoint d response) (max_locations d response)))
  else Raise StsAssert.
Proof.
  rewrite detect_unfold. destruct (nonempty_input d image); [|reflexivity].
  destruct (tensor_fields d image) as [[A B] C].
  destruct (corner_response solver lane d A B C) as [R|e]; cbn [bind]; [|reflexivity].
  apply extract_keypoints_spec.
Qed.

(* ================================================================== *)
(** ** IEEE arithmetic: digits, exact shifts, canonical forms *)

Local Open Scope Z_scope.

Lemma digits2_pos_bounds (m : positive) :
  2 ^ (Zpos (digits2_pos m) - 1) <= Zpos m < 2 ^ Zpos (digits2_pos m).
Proof.
  induction m as [m IH|m IH|]; simpl digits2_pos.
  - rewrite Pos2Z.inj_succ.
    replace (Z.succ (Zpos (digits2_pos m)) - 1) with (Z.succ (Zpos (digits2_pos m) - 1)) by lia.
    rewrite !Z.pow_succ_r by lia. lia.
  - rewrite Pos2Z.inj_succ.
    replace (Z.succ (Zpos (digits2_pos m)) - 1) with (Z.succ (Zpos (digits2_pos m) - 1)) by lia.
    rewrite !Z.pow_succ_r by lia. lia.
  - simpl. lia.
Qed.

Lemma digits2_pos_unique (m : positive) (k : Z) :
  2 ^ (k - 1) <= Zpos m < 2 ^ k -> Zpos (digits2_pos m) = k.
Proof.
  intros [Hlo Hhi]. pose proof (digits2_pos_bounds m) as [Blo Bhi].
  set (d := Zpos (digits2_pos m)) in *.
  assert (Hd : 0 < d) by (unfold d; lia).
  assert (Hk : 0 < k).
  { destruct (Z_lt_le_dec 0 k) as [|Hneg]; [assumption|].
    exfalso. assert (2 ^ k <= 1).
    { destruct (Z.eq_dec k 0) as [->|]; [simpl; lia|].
      rewrite Z.pow_neg_r by lia. lia. }
    lia. }
  destruct (Z.lt_trichotomy d k) as [Hlt|[Heq|Hgt]]; [|assumption|].
  - exfalso. assert (2 ^ d <= 2 ^ (k - 1)) by (apply Z.pow_le_mono_r; lia). lia.
  - exfalso. assert (2 ^ k <= 2 ^ (d - 1)) by (apply Z.pow_le_mono_r; lia). lia.
Qed.

Lemma Zdigits2_shift (m : positive) (n : Z) :
  0 <= n -> Zdigits2 (Zpos m * 2 ^ n) = Zpos (digits2_pos m) + n.
Proof.
  intros Hn. pose proof (digits2_pos_bounds m) as [Blo Bhi].
  assert (Hp : 0 < 2 ^ n) by (apply Z.pow_pos_nonneg; lia).
  assert (E1 : 2 ^ (Zpos (digits2_pos m) + n - 1) = 2 ^ (Zpos (digits2_pos m) - 1) * 2 ^ n).
  { rewrite <- Z.pow_add_r by lia. f_equal. lia. }
  assert (E2 : 2 ^ (Zpos (digits2_pos m) + n) = 2 ^ Zpos (digits2_pos m) * 2 ^ n).
  { rewrite <- Z.pow_add_r by lia. reflexivity. }
  destruct (Zpos m * 2 ^ n) as [|p|p] eqn:E; try lia.
  cbn [Zdigits2]. apply digits2_pos_unique. rewrite <- E, E1, E2. nia.
Qed.

Lemma iter_pos_nat {A : Type} (f : A -> A) (p : positive) (x : A) :
  iter_pos f p x = Nat.iter (Pos.to_nat p) f x.
Proof.
  revert x. induction p as [p IH|p IH|]; intros x; simpl iter_pos.
  - rewrite !IH. rewrite Pos2Nat.inj_xI.
    rewrite <- Nat.iter_add, <- Nat.iter_succ_r. f_equal. lia.
  - rewrite !IH. rewrite Pos2Nat.inj_xO. rewrite <- Nat.iter_add. f_equal. lia.
  - reflexivity.
Qed.

Lemma shr_1_even (z : Z) :
  0 < z ->
  shr_1 (Build_shr_record (2 * z) false false) = Build_shr_record z false false.
Proof. destruct z; try lia. intros _. reflexivity. Qed.

Lemma shr_iter_exact (n : nat) (z : Z) :
  0 < z ->
  Nat.iter n shr_1 (Build_shr_record (z * 2 ^ Z.of_nat n) false false)
  = Build_shr_record z false false.
Proof.
  intros Hz. induction n as [|n IH].
  - simpl. f_equal. lia.
  - rewrite Nat.iter_succ_r.
    replace (z * 2 ^ Z.of_nat (S n)) with (2 * (z * 2 ^ Z.of_nat n))
      by (rewrite Nat2Z.inj_succ, Z.pow_succ_r by lia; ring).
    rewrite shr_1_even; [exact IH|].
    apply Z.mul_pos_pos; [assumption | apply Z.pow_pos_nonneg; lia].
Qed.

Lemma shr_exact (z e n : Z) :
  0 < z -> 0 <= n ->
  shr (Build_shr_record (z * 2 ^ n) false false) e n
  = (Build_shr_record z false false, e + n).
Proof.
  intros Hz Hn. unfold shr. destruct n as [|p|p]; try lia.
  - f_equal; [f_equal; simpl; lia | lia].
  - rewrite iter_pos_nat. f_equal.
    rewrite <- (positive_nat_Z p) at 1. apply shr_iter_exact. assumption.
Qed.

Section Format.

Variables prec emax : Z.
Hypothesis prec_pos : 0 < prec.

(** Rounding a value whose mantissa is a canonical mantissa shifted left
    by [n] bits is exact. *)
Lemma binary_round_aux_exact (s : bool) (m : positive) (e n : Z) :
  0 <= n ->
  canonical_mantissa prec emax m (e + n) = true ->
  binary_round_aux prec emax s (Zpos m * 2 ^ n) e loc_Exact
  = if e + n <=? emax - prec then S754_finite s m (e + n) else S754_infinity s.
Proof.
  intros Hn Hcan. unfold canonical_mantissa in Hcan. apply Z.eqb_eq in Hcan.
  unfold binary_round_aux.
  assert (H1 : shr_fexp prec emax (Zpos m * 2 ^ n) e loc_Exact
               = (Build_shr_record (Zpos m) false false, e + n)).
  { unfold shr_fexp. rewrite Zdigits2_shift by assumption.
    replace (Zpos (digits2_pos m) + n + e) with (Zpos (digits2_pos m) + (e + n)) by lia.
    rewrite Hcan. replace (e + n - e) with n by lia.
    apply shr_exact; lia. }
  rewrite H1. cbn [shr_m loc_of_shr_record round_nearest_even].
  assert (H2 : shr_fexp prec emax (Zpos m) (e + n) loc_Exact
               = (Build_shr_record (Zpos m) false false, e + n)).
  { unfold shr_fexp. cbn [Zdigits2]. rewrite Hcan. rewrite Z.sub_diag. reflexivity. }
  rewrite H2. cbn [shr_m]. reflexivity.
Qed.

Hypothesis scale_ok : 0 <= emin prec emax + scale.

Lemma canonical_exponent (m : positive) (e : Z) :
  canonical_mantissa prec emax m e = true ->
  emin prec emax <= e /\ Zpos (digits2_pos m) <= prec /\
  (emin prec emax < e -> Zpos (digits2_pos m) = prec).
Proof.
  unfold canonical_mantissa, fexp. intros H. apply Z.eqb_eq in H. lia.
Qed.

Lemma pow_scale_pos (m : positive) (e : Z) :
  canonical_mantissa prec emax m e = true -> 0 < Zpos m * 2 ^ (e + scale).
Proof.
  intros H. apply canonical_exponent in H. destruct H as [He _].
  apply Z.mul_pos_pos; [lia|]. apply Z.pow_pos_nonneg; lia.
Qed.

(** Among canonical numbers a smaller exponent means a smaller magnitude. *)
Lemma canonical_lt_exponent (m1 m2 : positive) (e1 e2 : Z) :
  canonical_mantissa prec emax m1 e1 = true ->
  canonical_mantissa prec emax m2 e2 = true ->
  e1 < e2 ->
  Zpos m1 * 2 ^ (e1 + scale) < Zpos m2 * 2 ^ (e2 + scale).
Proof.
  intros H1 H2 Hlt.
  apply canonical_exponent in H1, H2.
  destruct H1 as (He1 & Hd1 & _), H2 as (He2 & _ & Hd2).
  specialize (Hd2 ltac:(lia)).
  pose proof (digits2_pos_bounds m1) as [_ B1].
  pose proof (digits2_pos_bounds m2) as [B2 _].
  rewrite Hd2 in B2.
  assert (P1 : 2 ^ Zpos (digits2_pos m1) <= 2 ^ prec) by (apply Z.pow_le_mono_r; lia).
  assert (P2 : 0 < 2 ^ (e1 + scale)) by (apply Z.pow_pos_nonneg; lia).
  assert (P3 : 2 ^ (e2 + scale) = 2 ^ (e1 + scale) * 2 ^ (e2 - e1)).
  { rewrite <- Z.pow_add_r by lia. f_equal. lia. }
  assert (P4 : 2 ^ prec = 2 ^ (prec - 1) * 2).
  { replace prec with (Z.succ (prec - 1)) at 1 by lia.
    rewrite Z.pow_succ_r by lia. ring. }
  assert (P5 : 2 <= 2 ^ (e2 - e1)).
  { change 2 with (2 ^ 1) at 1. apply Z.pow_le_mono_r; lia. }
  assert (P6 : 0 < 2 ^ (prec - 1)) by (apply Z.pow_pos_nonneg; lia).
  rewrite P3. nia.
Qed.

Lemma canonical_compare (m1 m2 : positive) (e1 e2 : Z) :
  canonical_mantissa prec emax m1 e1 = true ->
  canonical_mantissa prec emax m2 e2 = true ->
  match e1 ?= e2 with
  | Lt => Lt
  | Gt => Gt
  | Eq => Pos.compare_cont Eq m1 m2
  end = (Zpos m1 * 2 ^ (e1 + scale) ?= Zpos m2 * 2 ^ (e2 + scale)).
Proof.
  intros H1 H2. destruct (Z.compare_spec e1 e2) as [Heq|Hlt|Hgt].
  - subst e2. change (Pos.compare_cont Eq m1 m2) with (Zpos m1 ?= Zpos m2).
    apply Zmult_compare_compat_r. apply Z.lt_gt.
    apply canonical_exponent in H1. apply Z.pow_pos_nonneg; lia.
  - symmetry. apply Z.compare_lt_iff. apply canonical_lt_exponent; assumption.
  - symmetry. apply Z.compare_gt_iff. apply canonical_lt_exponent; assumption.
Qed.

(** On valid numbers [SFcompare] compares values. *)
Lemma SFcompare_value (x y : spec_float) :
  valid_binary prec emax x = true -> valid_binary prec emax y = true ->
  SFcompare x y = ext_compare (value x) (value y).
Proof.
  intros Hx Hy.
  destruct x as [sx|sx| |sx mx ex], y as [sy|sy| |sy my ey];
    try reflexivity; try (destruct sx; reflexivity); try (destruct sy; reflexivity);
    try (destruct sx, sy; reflexivity).
  - (* zero, finite *)
    simpl in Hy. apply andb_prop in Hy. destruct Hy as [Hy _].
    apply pow_scale_pos in Hy. cbn [SFcompare value ext_compare]. f_equal.
    destruct sy; cbn [cond_Zopp]; symmetry;
      [apply Z.compare_gt_iff | apply Z.compare_lt_iff]; lia.
  - (* finite, zero *)
    simpl in Hx. apply andb_prop in Hx. destruct Hx as [Hx _].
    apply pow_scale_pos in Hx. cbn [SFcompare value ext_compare]. f_equal.
    destruct sx; cbn [cond_Zopp]; symmetry;
      [apply Z.compare_lt_iff | apply Z.compare_gt_iff]; lia.
  - (* finite, finite *)
    simpl in Hx, Hy. apply andb_prop in Hx, Hy.
    destruct Hx as [Hx _], Hy as [Hy _].
    pose proof (pow_scale_pos _ _ Hx) as Px. pose proof (pow_scale_pos _ _ Hy) as Py.
    pose proof (canonical_compare _ _ _ _ Hx Hy) as Hc.
    cbn [SFcompare value ext_compare]. f_equal.
    destruct sx, sy; cbn [cond_Zopp].
    + rewrite Z.compare_opp, (Z.compare_antisym (Zpos mx * _)), <- Hc.
      destruct (ex ?= ey); reflexivity.
    + symmetry. apply Z.compare_lt_iff. lia.
    + symmetry. apply Z.compare_gt_iff. lia.
    + exact Hc.
Qed.

End Format.

(** *** Every float word decodes to a valid binary32 number *)

Lemma biased_exp_range (b : Z) : 0 <= F.biased_exp b < 256.
Proof.
  unfold F.biased_exp. change 255 with (Z.ones 8).
  rewrite Z.land_ones by lia. apply Z.mod_pos_bound. reflexivity.
Qed.

Lemma fraction_range (b : Z) : 0 <= F.fraction b < 2 ^ 23.
Proof.
  unfold F.fraction. rewrite Z.land_ones by lia. apply Z.mod_pos_bound. reflexivity.
Qed.

Lemma bounded32_intro (m : positive) (e : Z) :
  Zpos (digits2_pos m) <= 24 -> -149 <= e <= 104 ->
  (-149 < e -> Zpos (digits2_pos m) = 24) ->
  bounded F.prec F.emax m e = true.
Proof.
  intros Hd He Hn. unfold bounded, canonical_mantissa, fexp, emin, F.prec, F.emax.
  apply andb_true_intro. split; [apply Z.eqb_eq | apply Z.leb_le]; lia.
Qed.

Lemma decode_valid (b : F.f32) : valid_binary F.prec F.emax (F.decode b) = true.
Proof.
  unfold F.decode.
  pose proof (biased_exp_range b) as HE. pose proof (fraction_range b) as Hf.
  destruct (Z.eqb_spec (F.biased_exp b) 0) as [E0|E0].
  - destruct (F.fraction b) as [|m|m] eqn:Ef; try reflexivity.
    cbn [valid_binary].
    pose proof (digits2_pos_bounds m) as [Blo _].
    assert (Hd : Zpos (digits2_pos m) <= 23).
    { destruct (Z_le_gt_dec (Zpos (digits2_pos m)) 23) as [|Hgt]; [assumption|].
      exfalso. assert (2 ^ 23 <= 2 ^ (Zpos (digits2_pos m) - 1))
        by (apply Z.pow_le_mono_r; lia). lia. }
    apply bounded32_intro; lia.
  - destruct (Z.eqb_spec (F.biased_exp b) 255) as [E255|E255].
    + destruct (F.fraction b =? 0); reflexivity.
    + destruct (F.fraction b + 2 ^ 23) as [|m|m] eqn:Em; try reflexivity.
      cbn [valid_binary].
      assert (Hd : Zpos (digits2_pos m) = 24)
        by (apply digits2_pos_unique; rewrite <- Em; change (2 ^ (24 - 1)) with (2 ^ 23);
            change (2 ^ 24) with (2 ^ 23 + 2 ^ 23); lia).
      apply bounded32_intro; lia.
Qed.

Lemma scale_ok32 : 0 <= emin F.prec F.emax + scale.
Proof. vm_compute. discriminate. Qed.

Lemma scale_ok64 : 0 <= emin D.prec D.emax + scale.
Proof. vm_compute. discriminate. Qed.

(** Comparisons of float words are comparisons of their values. *)
Lemma F_compare_value (a b : F.f32) :
  SFcompare (F.decode a) (F.decode b) = ext_compare (fval a) (fval b).
Proof.
  apply (@SFcompare_value F.prec F.emax);
    [reflexivity | exact scale_ok32 | apply decode_valid | apply decode_valid].
Qed.

Lemma F_ltb_value (a b : F.f32) : F.ltb a b = ext_ltb (fval a) (fval b).
Proof. unfold F.ltb, SFltb, ext_ltb. rewrite F_compare_value. reflexivity. Qed.

Lemma F_leb_value (a b : F.f32) : F.leb a b = ext_leb (fval a) (fval b).
Proof. unfold F.leb, SFleb, ext_leb. rewrite F_compare_value. reflexivity. Qed.

Lemma F_eqb_value (a b : F.f32) : F.eqb a b = ext_eqb (fval a) (fval b).
Proof. unfold F.eqb, SFeqb, ext_eqb. rewrite F_compare_value. reflexivity. Qed.

(** *** Widening float -> double is exact *)

Lemma Pos_iter_xO (k m : positive) : Zpos (Pos.iter xO m k) = Zpos m * 2 ^ Zpos k.
Proof.
  induction k as [|k IH] using Pos.peano_ind.
  - simpl. lia.
  - rewrite Pos.iter_succ, Pos2Z.inj_succ, Z.pow_succ_r by lia.
    rewrite Pos2Z.inj_xO, IH. ring.
Qed.

Lemma decode_finite_range (a : F.f32) (s : bool) (m : positive) (e : Z) :
  F.decode a = S754_finite s m e ->
  1 <= Zpos (digits2_pos m) <= 24 /\ -149 <= e <= 104 /\
  canonical_mantissa F.prec F.emax m e = true.
Proof.
  intros H. pose proof (decode_valid a) as V. rewrite H in V.
  cbn [valid_binary] in V. unfold bounded in V. apply andb_prop in V.
  destruct V as [Hc Hb]. apply Z.leb_le in Hb.
  pose proof (canonical_exponent _ _ _ _ Hc) as (He & Hd & _).
  unfold emin, F.prec, F.emax in *. repeat split; try lia. exact Hc.
Qed.

Lemma of_f32_finite (a : F.f32) (s : bool) (m : positive) (e : Z) :
  F.decode a = S754_finite s m e ->
  exists mz : positive,
    D.of_f32 a = S754_finite s mz (e + Zpos (digits2_pos m) - 53) /\
    Zpos mz = Zpos m * 2 ^ (53 - Zpos (digits2_pos m)) /\
    Zpos (digits2_pos mz) = 53.
Proof.
  intros H. pose proof (decode_finite_range _ H) as (Hd & He & _).
  unfold D.of_f32. rewrite H. unfold binary_round.
  set (d := Zpos (digits2_pos m)) in *.
  assert (Hf : fexp D.prec D.emax (d + e) = e + d - 53).
  { unfold fexp, emin, D.prec, D.emax. lia. }
  rewrite Hf. unfold shl_align.
  destruct (e + d - 53 - e) as [|k|k] eqn:Ek; try lia.
  exists (Pos.iter xO m k).
  assert (Hz : Zpos (Pos.iter xO m k) = Zpos m * 2 ^ (53 - d)).
  { rewrite Pos_iter_xO. f_equal. f_equal. lia. }
  assert (Hdz : Zpos (digits2_pos (Pos.iter xO m k)) = 53).
  { pose proof (Zdigits2_shift m (n := 53 - d) ltac:(lia)) as Hs.
    rewrite <- Hz in Hs. cbn [Zdigits2] in Hs. fold d in Hs. lia. }
  split; [|split; assumption].
  pose proof (binary_round_aux_exact D.prec D.emax s (Pos.iter xO m k) (e + d - 53)
                (n := 0) ltac:(lia)) as Hr.
  rewrite Z.mul_1_r, Z.add_0_r in Hr. rewrite Hr.
  - unfold D.emax, D.prec.
    destruct (Z.leb_spec (e + d - 53) (1024 - 53)); [reflexivity | lia].
  - unfold canonical_mantissa. rewrite Hdz. apply Z.eqb_eq.
    unfold fexp, emin, D.prec, D.emax. lia.
Qed.


Lemma of_f32_value (a : F.f32) : value (D.of_f32 a) = fval a.
Proof.
  unfold fval.
  destruct (F.decode a) as [s|s| |s m e] eqn:H;
    try (unfold D.of_f32; rewrite H; reflexivity).
  destruct (of_f32_finite _ H) as [mz [Hz [Hm _]]]. rewrite Hz.
  pose proof (decode_finite_range _ H) as (Hdm & He & _).
  cbn [value]. rewrite Hm. f_equal. f_equal.
  rewrite <- Z.mul_assoc, <- Z.pow_add_r by (unfold scale; lia).
  f_equal. f_equal. lia.
Qed.


Lemma of_f32_wide (a : F.f32) : wide (D.of_f32 a).
Proof.
  destruct (F.decode a) as [s|s| |s m e] eqn:H;
    try (unfold D.of_f32; rewrite H; exact I).
  destruct (of_f32_finite _ H) as [mz [Hz [Hm _]]]. rewrite Hz.
  pose proof (decode_finite_range _ H) as (Hdm & He & _).
  cbn [wide]. exists m. repeat split; lia.
Qed.

(** *** The double product of two widened floats is exact *)

Lemma digits2_pos_mul (m1 m2 : positive) :
  Zpos (digits2_pos m1) + Zpos (digits2_pos m2) - 1
  <= Zpos (digits2_pos (m1 * m2))
  <= Zpos (digits2_pos m1) + Zpos (digits2_pos m2).
Proof.
  pose proof (digits2_pos_bounds m1) as [L1 U1].
  pose proof (digits2_pos_bounds m2) as [L2 U2].
  pose proof (digits2_pos_bounds (m1 * m2)) as [L U].
  set (d1 := Zpos (digits2_pos m1)) in *. set (d2 := Zpos (digits2_pos m2)) in *.
  set (d := Zpos (digits2_pos (m1 * m2))) in *.
  assert (Hd1 : 0 < d1) by (unfold d1; lia).
  assert (Hd2 : 0 < d2) by (unfold d2; lia).
  assert (Hd : 0 < d) by (unfold d; lia).
  rewrite Pos2Z.inj_mul in L, U.
  assert (P1 : 2 ^ (d1 - 1 + (d2 - 1)) = 2 ^ (d1 - 1) * 2 ^ (d2 - 1))
    by (apply Z.pow_add_r; lia).
  assert (P2 : 2 ^ (d1 + d2) = 2 ^ d1 * 2 ^ d2) by (apply Z.pow_add_r; lia).
  assert (Q1 : 0 < 2 ^ (d1 - 1)) by (apply Z.pow_pos_nonneg; lia).
  assert (Q2 : 0 < 2 ^ (d2 - 1)) by (apply Z.pow_pos_nonneg; lia).
  split.
  - destruct (Z_le_gt_dec (d1 + d2 - 1) d) as [|Hgt]; [assumption|]. exfalso.
    assert (2 ^ d <= 2 ^ (d1 - 1 + (d2 - 1))) by (apply Z.pow_le_mono_r; lia).
    nia.
  - destruct (Z_le_gt_dec d (d1 + d2)) as [|Hgt]; [assumption|]. exfalso.
    assert (2 ^ (d1 + d2) <= 2 ^ (d - 1)) by (apply Z.pow_le_mono_r; lia).
    nia.
Qed.

Lemma cond_Zopp_mul (s1 s2 : bool) (u v : Z) :
  cond_Zopp s1 u * cond_Zopp s2 v = cond_Zopp (xorb s1 s2) (u * v).
Proof. destruct s1, s2; simpl; ring. Qed.

Lemma mul_wide_finite (sx sy : bool) (Mx My : positive) (Ex Ey : Z) :
  wide (S754_finite sx Mx Ex) -> wide (S754_finite sy My Ey) ->
  exists M E,
    SFmul D.prec D.emax (S754_finite sx Mx Ex) (S754_finite sy My Ey)
    = S754_finite (xorb sx sy) M E /\
    bounded D.prec D.emax M E = true /\
    Zpos M * 2 ^ (E + scale)
    = Zpos Mx * 2 ^ (Ex + scale) * (Zpos My * 2 ^ (Ey + scale)) / 2 ^ scale.
Proof.
  intros [mx (Hx & Hdx & Hex)] [my (Hy & Hdy & Hey)].
  set (dx := Zpos (digits2_pos mx)) in *. set (dy := Zpos (digits2_pos my)) in *.
  pose proof (digits2_pos_mul mx my) as HdP. fold dx dy in HdP.
  set (P := (mx * my)%positive) in *. set (dP := Zpos (digits2_pos P)) in *.
  assert (HdP' : 1 <= dP) by (unfold dP; lia).
  destruct (53 - dP) as [|k|k] eqn:Ek; try lia.
  set (M := Pos.iter xO P k).
  assert (HM : Zpos M = Zpos P * 2 ^ (53 - dP)).
  { unfold M. rewrite Pos_iter_xO, Ek. reflexivity. }
  assert (HdM : Zpos (digits2_pos M) = 53).
  { pose proof (Zdigits2_shift P (n := 53 - dP) ltac:(lia)) as Hs.
    rewrite <- HM in Hs. cbn [Zdigits2] in Hs. fold dP in Hs. lia. }
  set (n := 53 - dx - dy + dP).
  assert (Hn : 0 <= n) by (unfold n; lia).
  assert (Hprod : Zpos (Mx * My) = Zpos M * 2 ^ n).
  { rewrite Pos2Z.inj_mul, Hx, Hy, HM. unfold P. rewrite Pos2Z.inj_mul.
    transitivity (Zpos mx * Zpos my * (2 ^ (53 - dx) * 2 ^ (53 - dy))); [ring|].
    transitivity (Zpos mx * Zpos my * (2 ^ (53 - dP) * 2 ^ n)); [|ring].
    f_equal. rewrite <- !Z.pow_add_r by lia. f_equal. unfold n. lia. }
  exists M, (Ex + Ey + n).
  assert (Hcan : canonical_mantissa D.prec D.emax M (Ex + Ey + n) = true).
  { unfold canonical_mantissa. rewrite HdM. apply Z.eqb_eq.
    unfold fexp, emin, D.prec, D.emax, n. lia. }
  split; [|split].
  - cbn [SFmul]. rewrite Hprod.
    rewrite (binary_round_aux_exact D.prec D.emax (xorb sx sy) M (Ex + Ey) Hn Hcan).
    unfold D.emax, D.prec, n.
    destruct (Z.leb_spec (Ex + Ey + (53 - dx - dy + dP)) (1024 - 53)); [reflexivity | lia].
  - unfold bounded. rewrite Hcan. apply Z.leb_le. unfold D.emax, D.prec, n. lia.
  - symmetry.
    transitivity (Zpos (Mx * My) * 2 ^ (Ex + Ey + scale) * 2 ^ scale / 2 ^ scale).
    + f_equal. rewrite Pos2Z.inj_mul.
      assert (Hp : 2 ^ (Ex + scale) * 2 ^ (Ey + scale) = 2 ^ (Ex + Ey + scale) * 2 ^ scale).
      { rewrite <- !Z.pow_add_r by (unfold scale; lia). f_equal. lia. }
      transitivity (Zpos Mx * Zpos My * (2 ^ (Ex + scale) * 2 ^ (Ey + scale))); [ring|].
      rewrite Hp. ring.
    + rewrite Z.div_mul by (unfold scale; apply Z.pow_nonzero; lia).
      rewrite Hprod, <- Z.mul_assoc. f_equal.
      rewrite <- Z.pow_add_r by (unfold scale, n; lia). f_equal. lia.
Qed.

Lemma wide_pos (s : bool) (M : positive) (E : Z) :
  wide (S754_finite s M E) -> 0 < Zpos M * 2 ^ (E + scale).
Proof.
  intros [m (_ & Hd & He)]. apply Z.mul_pos_pos; [lia|].
  apply Z.pow_pos_nonneg; unfold scale; lia.
Qed.

Lemma ext_mul_inf_fin (si s : bool) (v : Z) :
  0 < v ->
  ext_mul (if si then ENegInf else EPosInf) (EFin (cond_Zopp s v))
  = (if xorb si s then ENegInf else EPosInf).
Proof. intros Hv. destruct v; try lia. destruct si, s; reflexivity. Qed.

Lemma ext_mul_fin_inf (s si : bool) (v : Z) :
  0 < v ->
  ext_mul (EFin (cond_Zopp s v)) (if si then ENegInf else EPosInf)
  = (if xorb s si then ENegInf else EPosInf).
Proof. intros Hv. destruct v; try lia. destruct si, s; reflexivity. Qed.

(** The double product of two widened floats: a valid number whose value is
    the exact product. *)
Lemma D_mul_wide (x y : spec_float) :
  wide x -> wide y ->
  valid_binary D.prec D.emax (D.mul x y) = true /\
  value (D.mul x y) = ext_mul (value x) (value y).
Proof.
  intros Wx Wy. unfold D.mul.
  destruct x as [sx|sx| |sx Mx Ex], y as [sy|sy| |sy My Ey];
    try (split; reflexivity);
    try (split; [reflexivity | destruct sx, sy; reflexivity]);
    try (split; [reflexivity | destruct sx; reflexivity]);
    try (split; [reflexivity | destruct sy; reflexivity]).
  - (* infinity, finite *)
    split; [reflexivity|]. cbn [SFmul value].
    rewrite ext_mul_inf_fin by (eapply wide_pos; eassumption). reflexivity.
  - (* finite, zero *)
    split; [reflexivity|]. cbn [SFmul value ext_mul]. rewrite Z.mul_0_r. reflexivity.
  - (* finite, infinity *)
    split; [reflexivity|]. cbn [SFmul value].
    rewrite ext_mul_fin_inf by (eapply wide_pos; eassumption). reflexivity.
  - (* finite, finite *)
    destruct (mul_wide_finite Wx Wy) as [M [E (Hmul & Hb & Hv)]].
    rewrite Hmul. split; [exact Hb|].
    cbn [value ext_mul]. f_equal. rewrite cond_Zopp_mul, Hv.
    pose proof (wide_pos Wx) as Px. pose proof (wide_pos Wy) as Py.
    destruct (xorb sx sy); cbn [cond_Zopp]; [|reflexivity].
    assert (Hex : exists w, Zpos Mx * 2 ^ (Ex + scale) * (Zpos My * 2 ^ (Ey + scale))
                            = w * 2 ^ scale).
    { destruct Wx as [mx (_ & Hdx & Hex)]. destruct Wy as [my (_ & Hdy & Hey)].
      exists (Zpos Mx * Zpos My * 2 ^ (Ex + Ey + scale)).
      assert (Hp : 2 ^ (Ex + scale) * 2 ^ (Ey + scale) = 2 ^ (Ex + Ey + scale) * 2 ^ scale).
      { rewrite <- !Z.pow_add_r by (unfold scale; lia). f_equal. lia. }
      transitivity (Zpos Mx * Zpos My * (2 ^ (Ex + scale) * 2 ^ (Ey + scale))); [ring|].
      rewrite Hp. ring. }
    destruct Hex as [w Hw]. rewrite Hw.
    replace (- (w * 2 ^ scale)) with ((- w) * 2 ^ scale) by ring.
    rewrite !Z.div_mul by (unfold scale; apply Z.pow_nonzero; lia). reflexivity.
Qed.

Lemma D_mul_of_f32 (a b : F.f32) :
  valid_binary D.prec D.emax (D.mul (D.of_f32 a) (D.of_f32 b)) = true /\
  value (D.mul (D.of_f32 a) (D.of_f32 b)) = ext_mul (fval a) (fval b).
Proof.
  rewrite <- !of_f32_value. apply D_mul_wide; apply of_f32_wide.
Qed.

(** *** Float words: encoding a valid number and decoding it back *)

Lemma join_fraction (s : bool) (E f : Z) :
  F.fraction (F.join s E f) = Z.land f (Z.ones 23).
Proof.
  unfold F.fraction, F.join. rewrite !Z.land_lor_distr_l.
  assert (H1 : Z.land (if s then Z.shiftl 1 31 else 0) (Z.ones 23) = 0)
    by (destruct s; reflexivity).
  assert (H2 : Z.land (Z.shiftl (Z.land E 255) 23) (Z.ones 23) = 0).
  { rewrite Z.land_ones, Z.shiftl_mul_pow2 by lia. apply Z.mod_mul. lia. }
  rewrite H1, H2, <- Z.land_assoc, Z.land_diag. reflexivity.
Qed.

Lemma join_biased_exp (s : bool) (E f : Z) :
  F.biased_exp (F.join s E f) = Z.land E 255.
Proof.
  unfold F.biased_exp, F.join. rewrite !Z.shiftr_lor, !Z.land_lor_distr_l.
  assert (H1 : Z.land (Z.shiftr (if s then Z.shiftl 1 31 else 0) 23) 255 = 0)
    by (destruct s; reflexivity).
  assert (H2 : Z.shiftr (Z.shiftl (Z.land E 255) 23) 23 = Z.land E 255).
  { rewrite Z.shiftr_shiftl_l by lia. apply Z.shiftl_0_r. }
  assert (H3 : Z.shiftr (Z.land f (Z.ones 23)) 23 = 0).
  { rewrite Z.shiftr_div_pow2, Z.land_ones by lia.
    apply Z.div_small. apply Z.mod_pos_bound. reflexivity. }
  rewrite H1, H2, H3, <- Z.land_assoc, Z.land_diag. simpl. apply Z.lor_0_r.
Qed.

Lemma join_sign_bit (s : bool) (E f : Z) : F.sign_bit (F.join s E f) = s.
Proof.
  unfold F.sign_bit, F.join. rewrite !Z.lor_spec.
  assert (H1 : Z.testbit (if s then Z.shiftl 1 31 else 0) 31 = s)
    by (destruct s; reflexivity).
  assert (H2 : Z.testbit (Z.shiftl (Z.land E 255) 23) 31 = false).
  { rewrite Z.shiftl_spec by lia. rewrite Z.land_spec.
    replace (Z.testbit 255 (31 - 23)) with false by reflexivity.
    apply andb_false_r. }
  assert (H3 : Z.testbit (Z.land f (Z.ones 23)) 31 = false).
  { rewrite Z.land_spec.
    replace (Z.testbit (Z.ones 23) 31) with false by reflexivity.
    apply andb_false_r. }
  rewrite H1, H2, H3. destruct s; reflexivity.
Qed.

Lemma land_small (x : Z) (n : Z) : 0 <= n -> 0 <= x < 2 ^ n -> Z.land x (Z.ones n) = x.
Proof. intros Hn Hx. rewrite Z.land_ones by assumption. apply Z.mod_small. exact Hx. Qed.

(** Storing a valid binary32 number in a word loses nothing. *)
Lemma decode_encode (x : spec_float) :
  valid_binary F.prec F.emax x = true -> F.decode (F.encode x) = x.
Proof.
  intros V. destruct x as [s|s| |s m e].
  - destruct s; reflexivity.
  - destruct s; reflexivity.
  - reflexivity.
  - cbn [valid_binary] in V. unfold bounded in V. apply andb_prop in V.
    destruct V as [Hc Hb]. apply Z.leb_le in Hb.
    pose proof (canonical_exponent _ _ _ _ Hc) as (He & Hd & Hn).
    pose proof (digits2_pos_bounds m) as [Blo Bhi].
    unfold emin, F.prec, F.emax in *.
    assert (Hm24 : Zpos m < 2 ^ 24).
    { assert (2 ^ Zpos (digits2_pos m) <= 2 ^ 24) by (apply Z.pow_le_mono_r; lia). lia. }
    unfold F.encode, F.decode.
    destruct (Z.leb_spec (2 ^ 23) (Zpos m)) as [Hbig|Hsmall].
    + (* normal *)
      assert (Hd24 : Zpos (digits2_pos m) = 24).
      { apply digits2_pos_unique. change (2 ^ (24 - 1)) with (2 ^ 23). lia. }
      assert (He' : -149 <= e <= 104) by lia.
      rewrite join_sign_bit, join_biased_exp, join_fraction.
      change 255 with (Z.ones 8).
      rewrite (land_small (n := 8)) by (change (2 ^ 8) with 256; lia).
      rewrite (land_small (n := 23)) by lia.
      destruct (Z.eqb_spec (e + 150) 0); [lia|].
      destruct (Z.eqb_spec (e + 150) (Z.ones 8)); [change (Z.ones 8) with 255 in *; lia|].
      replace (Zpos m - 2 ^ 23 + 2 ^ 23) with (Zpos m) by lia.
      f_equal. lia.
    + (* subnormal *)
      assert (He' : e = -149).
      { destruct (Z.eq_dec e (-149)) as [|Hne]; [assumption|].
        assert (Hd24 : Zpos (digits2_pos m) = 24) by (apply Hn; lia).
        rewrite Hd24 in Blo. change (2 ^ (24 - 1)) with (2 ^ 23) in Blo. lia. }
      rewrite join_sign_bit, join_biased_exp, join_fraction.
      rewrite (land_small (n := 23)) by lia.
      change (Z.land 0 255 =? 0) with true. cbv iota. subst e. reflexivity.
Qed.

(* ================================================================== *)
(** ** Rounding a double to single precision *)

Local Open Scope Z_scope.

Lemma rne_bounds (G v : Z) :
  0 < G -> 0 <= v -> (v / G) * G <= rne G v <= (v / G + 1) * G.
Proof.
  intros HG Hv. unfold rne.
  destruct ((G <? 2 * (v mod G)) || ((2 * (v mod G) =? G) && Z.odd (v / G))); nia.
Qed.

Lemma rne_multiple (G c : Z) : 0 < G -> rne G (c * G) = c * G.
Proof.
  intros HG. unfold rne. rewrite Z.mod_mul, Z.div_mul by lia.
  destruct (Z.ltb_spec G (2 * 0)); [lia|].
  destruct (Z.eqb_spec (2 * 0) G); [lia|]. cbn [orb andb]. lia.
Qed.

Lemma rne_mono (G u v : Z) : 0 < G -> 0 <= u <= v -> rne G u <= rne G v.
Proof.
  intros HG [Hu Huv].
  pose proof (Z.div_le_mono u v G HG Huv) as Hq.
  destruct (Z.eq_dec (u / G) (v / G)) as [E|NE].
  - pose proof (Z.div_mod u G ltac:(lia)) as Du.
    pose proof (Z.div_mod v G ltac:(lia)) as Dv.
    assert (Hr : u mod G <= v mod G) by (rewrite E in Du; lia).
    unfold rne. rewrite E.
    destruct (Z.ltb_spec G (2 * (u mod G))); destruct (Z.ltb_spec G (2 * (v mod G)));
      destruct (Z.eqb_spec (2 * (u mod G)) G); destruct (Z.eqb_spec (2 * (v mod G)) G);
      destruct (Z.odd (v / G)); cbn [orb andb]; nia.
  - pose proof (@rne_bounds G u HG Hu) as [_ Hub].
    pose proof (@rne_bounds G v HG ltac:(lia)) as [Hvb _].
    nia.
Qed.

Lemma rne_below_gridpoint (G v c : Z) : 0 < G -> 0 <= v <= c * G -> rne G v <= c * G.
Proof.
  intros HG [Hv Hvc].
  destruct (Z.eq_dec v (c * G)) as [->|NE]; [rewrite rne_multiple by lia; lia|].
  pose proof (@rne_bounds G v HG Hv) as [_ Hub].
  assert (v / G < c) by (apply Z.div_lt_upper_bound; lia).
  nia.
Qed.

Lemma rne_above_gridpoint (G v c : Z) : 0 < G -> 0 <= c * G <= v -> c * G <= rne G v.
Proof.
  intros HG [Hc Hcv].
  pose proof (@rne_bounds G v HG ltac:(lia)) as [Hlb _].
  assert (c <= v / G) by (apply Z.div_le_lower_bound; lia).
  nia.
Qed.

Lemma grid32_pos (v : Z) : 0 < grid32 v.
Proof. unfold grid32. apply Z.pow_pos_nonneg; [lia|]. unfold scale. lia. Qed.

Lemma round_units_nonneg (v : Z) : 0 <= v -> 0 <= round_units v.
Proof.
  intros Hv. unfold round_units.
  pose proof (@rne_bounds (grid32 v) v (grid32_pos v) Hv) as [H _].
  pose proof (grid32_pos v). pose proof (Z.div_pos v (grid32 v) Hv ltac:(lia)). nia.
Qed.

Lemma round_units_mono (u v : Z) : 0 < u <= v -> round_units u <= round_units v.
Proof.
  intros [Hu Huv]. unfold round_units, grid32.
  pose proof (Z.log2_le_mono u v Huv) as Hk.
  pose proof (Z.log2_nonneg u) as Hku.
  set (ku := Z.log2 u) in *. set (kv := Z.log2 v) in *.
  set (B := scale - 149). assert (HB : 0 < B) by (unfold B, scale; lia).
  destruct (Z.eq_dec (Z.max (ku - 23) B) (Z.max (kv - 23) B)) as [E|NE].
  - rewrite E. apply rne_mono; [apply Z.pow_pos_nonneg; lia | lia].
  - assert (Hgv : Z.max (kv - 23) B = kv - 23) by lia.
    assert (Hlt : ku < kv) by lia.
    set (gu := Z.max (ku - 23) B) in *. rewrite Hgv.
    pose proof (Z.log2_spec u Hu) as [_ Hu2]. fold ku in Hu2.
    pose proof (Z.log2_spec v ltac:(lia)) as [Hv1 _]. fold kv in Hv1.
    assert (H2 : 2 ^ Z.succ ku <= 2 ^ kv) by (apply Z.pow_le_mono_r; lia).
    apply Z.le_trans with (2 ^ kv).
    + replace (2 ^ kv) with (2 ^ (kv - gu) * 2 ^ gu)
        by (rewrite <- Z.pow_add_r by lia; f_equal; lia).
      apply rne_below_gridpoint; [apply Z.pow_pos_nonneg; lia|].
      rewrite <- Z.pow_add_r by lia. replace (kv - gu + gu) with kv by lia. lia.
    + replace (2 ^ kv) with (2 ^ 23 * 2 ^ (kv - 23))
        by (rewrite <- Z.pow_add_r by lia; f_equal; lia).
      apply rne_above_gridpoint; [apply Z.pow_pos_nonneg; lia|].
      rewrite <- Z.pow_add_r by lia. replace (23 + (kv - 23)) with kv by lia.
      split; [apply Z.pow_nonneg; lia | lia].
Qed.

(** *** The shift of [binary_round]: quotient, round bit and sticky bit *)

Lemma shr_1_spec (M : Z) (r s : bool) :
  0 <= M ->
  shr_1 (Build_shr_record M r s) = Build_shr_record (M / 2) (Z.odd M) (r || s).
Proof.
  intros HM. rewrite <- Z.div2_div.
  destruct M as [|[p|p|]|p]; try lia; reflexivity.
Qed.

Lemma mod_pow2_succ (M k : Z) :
  0 <= M -> 0 <= k ->
  M mod 2 ^ (k + 1) = M mod 2 ^ k + 2 ^ k * ((M / 2 ^ k) mod 2).
Proof.
  intros HM Hk. rewrite Z.pow_add_r, Z.pow_1_r by lia.
  apply Z.rem_mul_r; [|lia]. apply Z.pow_nonzero; lia.
Qed.

Lemma shr_iter_spec (k : nat) (M : Z) :
  0 <= M ->
  Nat.iter (S k) shr_1 (Build_shr_record M false false)
  = Build_shr_record (M / 2 ^ (Z.of_nat k + 1))
                     (Z.odd (M / 2 ^ Z.of_nat k))
                     (negb (M mod 2 ^ Z.of_nat k =? 0)).
Proof.
  intros HM. induction k as [|k IH].
  - rewrite Nat.iter_succ. change (Nat.iter 0 shr_1 ?x) with x.
    rewrite shr_1_spec by assumption.
    change (Z.of_nat 0) with 0. rewrite Z.pow_0_r, Z.div_1_r, Z.mod_1_r. reflexivity.
  - rewrite Nat.iter_succ, IH.
    assert (Hp : 0 < 2 ^ (Z.of_nat k + 1)) by (apply Z.pow_pos_nonneg; lia).
    rewrite shr_1_spec by (apply Z.div_pos; lia).
    rewrite Nat2Z.inj_succ, <- Z.add_1_r.
    f_equal.
    + rewrite Z.div_div by lia. f_equal.
      rewrite (Z.pow_add_r 2 (Z.of_nat k + 1) 1), Z.pow_1_r by lia. reflexivity.
    + rewrite (@mod_pow2_succ M (Z.of_nat k)) by lia.
      pose proof (Z.mod_pos_bound M (2 ^ Z.of_nat k) ltac:(apply Z.pow_pos_nonneg; lia)) as Hb.
      pose proof (Zmod_odd (M / 2 ^ Z.of_nat k)) as Ho.
      assert (Hpk : 0 < 2 ^ Z.of_nat k) by (apply Z.pow_pos_nonneg; lia).
      destruct (Z.odd (M / 2 ^ Z.of_nat k)); rewrite Ho; cbn [orb].
      * destruct (Z.eqb_spec (M mod 2 ^ Z.of_nat k + 2 ^ Z.of_nat k * 1) 0); [lia|reflexivity].
      * rewrite Z.mul_0_r, Z.add_0_r. reflexivity.
Qed.

Lemma shr_spec (M e n : Z) :
  0 <= M -> 0 < n ->
  shr (Build_shr_record M false false) e n
  = (Build_shr_record (M / 2 ^ n) (Z.odd (M / 2 ^ (n - 1)))
                      (negb (M mod 2 ^ (n - 1) =? 0)),
     e + n).
Proof.
  intros HM Hn. unfold shr. destruct n as [|p|p]; try lia.
  rewrite iter_pos_nat.
  destruct (Pos.to_nat p) as [|k] eqn:Ek; [pose proof (Pos2Nat.is_pos p); lia|].
  rewrite shr_iter_spec by assumption.
  assert (Hk : Z.of_nat k = Z.pos p - 1) by lia.
  rewrite Hk. replace (Z.pos p - 1 + 1) with (Z.pos p) by lia. reflexivity.
Qed.

Lemma round_nearest_even_spec (q : Z) (rb sb : bool) :
  round_nearest_even q (loc_of_shr_record (Build_shr_record q rb sb))
  = q + (if rb then (if sb then 1 else if Z.even q then 0 else 1) else 0).
Proof. destruct rb, sb; cbn [loc_of_shr_record round_nearest_even]; try lia.
  destruct (Z.even q); lia. Qed.

(** The same mantissa by the rounding of values. *)
Lemma rounded_mantissa_rne (m n E : Z) :
  0 <= m -> 0 < n -> 0 < E ->
  rne (2 ^ n * E) (m * E) = rounded_mantissa m n * (2 ^ n * E).
Proof.
  intros Hm Hn HE. unfold rne, rounded_mantissa.
  assert (Hp : 0 < 2 ^ n) by (apply Z.pow_pos_nonneg; lia).
  assert (Hp1 : 0 < 2 ^ (n - 1)) by (apply Z.pow_pos_nonneg; lia).
  rewrite Z.div_mul_cancel_r, Z.mul_mod_distr_r by lia.
  pose proof (@mod_pow2_succ m (n - 1) Hm ltac:(lia)) as Hs.
  replace (n - 1 + 1) with n in Hs by lia.
  pose proof (Z.mod_pos_bound m (2 ^ (n - 1)) Hp1) as Hb.
  pose proof (Zmod_odd (m / 2 ^ (n - 1))) as Ho.
  assert (H2 : 2 ^ n = 2 * 2 ^ (n - 1)).
  { replace n with (n - 1 + 1) at 1 by lia. rewrite Z.pow_add_r, Z.pow_1_r by lia. ring. }
  rewrite Hs. f_equal. f_equal.
  destruct (Z.odd (m / 2 ^ (n - 1))); rewrite Ho.
  - destruct (Z.eqb_spec (m mod 2 ^ (n - 1)) 0) as [E0|N0]; cbn [negb].
    + destruct (Z.ltb_spec (2 ^ n * E) (2 * ((m mod 2 ^ (n - 1) + 2 ^ (n - 1) * 1) * E))); [nia|].
      destruct (Z.eqb_spec (2 * ((m mod 2 ^ (n - 1) + 2 ^ (n - 1) * 1) * E)) (2 ^ n * E)); [|nia].
      cbn [orb andb]. rewrite <- Z.negb_even. destruct (Z.even (m / 2 ^ n)); reflexivity.
    + destruct (Z.ltb_spec (2 ^ n * E) (2 * ((m mod 2 ^ (n - 1) + 2 ^ (n - 1) * 1) * E)));
        [reflexivity|nia].
  - destruct (Z.ltb_spec (2 ^ n * E) (2 * ((m mod 2 ^ (n - 1) + 2 ^ (n - 1) * 0) * E))); [nia|].
    destruct (Z.eqb_spec (2 * ((m mod 2 ^ (n - 1) + 2 ^ (n - 1) * 0) * E)) (2 ^ n * E)); [nia|].
    reflexivity.
Qed.

Lemma rounded_mantissa_bounds (m n : Z) :
  0 <= m -> 0 < n ->
  m / 2 ^ n <= rounded_mantissa m n <= m / 2 ^ n + 1.
Proof.
  intros Hm Hn. unfold rounded_mantissa.
  destruct (Z.odd (m / 2 ^ (n - 1))); [|lia].
  destruct (negb (m mod 2 ^ (n - 1) =? 0)); [lia|].
  destruct (Z.even (m / 2 ^ n)); lia.
Qed.

(** *** [binary_round] to binary32 computes the rounding of the value *)

Lemma log2_digits (m : positive) : Z.log2 (Zpos m) = Zpos (digits2_pos m) - 1.
Proof.
  pose proof (digits2_pos_bounds m) as [Hlo Hhi].
  apply Z.log2_unique; [lia|].
  replace (Z.succ (Zpos (digits2_pos m) - 1)) with (Zpos (digits2_pos m)) by lia. lia.
Qed.

Lemma fexp32 (z : Z) : fexp F.prec F.emax z = Z.max (z - 24) (-149).
Proof. reflexivity. Qed.

Lemma ext_round32_signed (s : bool) (v : Z) :
  0 < v ->
  ext_round32 (EFin (cond_Zopp s v))
  = if 2 ^ (128 + scale) <=? round_units v
    then (if s then ENegInf else EPosInf)
    else EFin (cond_Zopp s (round_units v)).
Proof.
  intros Hv. destruct v as [|p|p]; try lia.
  destruct s; cbn [cond_Zopp Z.opp ext_round32];
    destruct (2 ^ (128 + scale) <=? round_units (Z.pos p)); reflexivity.
Qed.

Lemma round_units_shift (m : positive) (e : Z) :
  let fe := fexp F.prec F.emax (Zpos (digits2_pos m) + e) in
  e < fe -> - scale <= e ->
  round_units (Zpos m * 2 ^ (e + scale))
  = rounded_mantissa (Zpos m) (fe - e) * 2 ^ (fe + scale).
Proof.
  intros fe Hlt He. unfold round_units, grid32.
  rewrite Z.log2_mul_pow2, log2_digits by lia.
  assert (Hfe : fe = Z.max (Zpos (digits2_pos m) + e - 24) (-149)) by reflexivity.
  replace (Z.max (e + scale + (Z.pos (digits2_pos m) - 1) - 23) (scale - 149))
    with (fe + scale) by lia.
  assert (Hs : 0 <= e + scale) by lia.
  replace (2 ^ (fe + scale)) with (2 ^ (fe - e) * 2 ^ (e + scale))
    by (rewrite <- Z.pow_add_r by lia; f_equal; lia).
  apply rounded_mantissa_rne; [lia | lia | apply Z.pow_pos_nonneg; lia].
Qed.

Lemma digits_le_24 (p : positive) : Zpos p < 2 ^ 24 -> Zpos (digits2_pos p) <= 24.
Proof.
  intros H. pose proof (digits2_pos_bounds p) as [Hlo _].
  destruct (Z_le_gt_dec (Zpos (digits2_pos p)) 24) as [|Hgt]; [assumption|].
  assert (2 ^ 24 <= 2 ^ (Zpos (digits2_pos p) - 1)) by (apply Z.pow_le_mono_r; lia).
  lia.
Qed.

Lemma binary_round_first_stage (s : bool) (m : positive) (e : Z) :
  let fe := fexp F.prec F.emax (Zpos (digits2_pos m) + e) in
  e < fe ->
  binary_round F.prec F.emax s m e
  = let '(mrs, e') := shr_fexp F.prec F.emax (rounded_mantissa (Zpos m) (fe - e)) fe loc_Exact in
    match shr_m mrs with
    | Z0 => S754_zero s
    | Zpos p => if e' <=? F.emax - F.prec then S754_finite s p e' else S754_infinity s
    | Zneg _ => S754_nan
    end.
Proof.
  intros fe Hlt. unfold binary_round. fold fe. unfold shl_align.
  destruct (fe - e) as [|k|k] eqn:Ek; try lia.
  unfold binary_round_aux. unfold shr_fexp at 1.
  cbn [shr_record_of_loc Zdigits2]. fold fe. rewrite Ek.
  rewrite shr_spec by lia. rewrite round_nearest_even_spec.
  replace (e + Z.pos k) with fe by lia.
  unfold rounded_mantissa. rewrite <- Ek. reflexivity.
Qed.

Lemma pow2_split (a b : Z) : 0 <= a -> 0 <= b -> 2 ^ (a + b) = 2 ^ a * 2 ^ b.
Proof. intros. apply Z.pow_add_r; assumption. Qed.

Lemma binary_round_value (s : bool) (m : positive) (e : Z) :
  e < fexp F.prec F.emax (Zpos (digits2_pos m) + e) ->
  - scale <= e ->
  valid_binary F.prec F.emax (binary_round F.prec F.emax s m e) = true /\
  value (binary_round F.prec F.emax s m e)
  = ext_round32 (EFin (cond_Zopp s (Zpos m * 2 ^ (e + scale)))).
Proof.
  intros Hlt He.
  assert (Hs : 0 <= e + scale) by lia.
  assert (Hv : 0 < Zpos m * 2 ^ (e + scale))
    by (apply Z.mul_pos_pos; [lia | apply Z.pow_pos_nonneg; lia]).
  rewrite (ext_round32_signed s Hv).
  rewrite (@round_units_shift m e Hlt He).
  rewrite (@binary_round_first_stage s m e Hlt).
  set (d := Zpos (digits2_pos m)) in *.
  set (fe := fexp F.prec F.emax (d + e)) in *.
  assert (Hfe : fe = Z.max (d + e - 24) (-149)) by reflexivity.
  set (n := fe - e). assert (Hn : 0 < n) by (unfold n; lia).
  pose proof (digits2_pos_bounds m) as [Hlo Hhi]. fold d in Hlo, Hhi.
  pose proof (@rounded_mantissa_bounds (Zpos m) n ltac:(lia) Hn) as [Hq1 Hq2].
  set (m1 := rounded_mantissa (Zpos m) n) in *.
  assert (Hpn : 0 < 2 ^ n) by (apply Z.pow_pos_nonneg; lia).
  assert (Hq : 0 <= Zpos m / 2 ^ n < 2 ^ 24).
  { split; [apply Z.div_pos; lia|].
    apply Z.div_lt_upper_bound; [lia|].
    apply Z.lt_le_trans with (2 ^ d); [assumption|].
    rewrite <- pow2_split by lia. apply Z.pow_le_mono_r; lia. }
  assert (Hnorm : -149 < fe -> 2 ^ 23 <= Zpos m / 2 ^ n).
  { intros Hf. apply Z.div_le_lower_bound; [lia|].
    apply Z.le_trans with (2 ^ (d - 1)); [|assumption].
    rewrite <- pow2_split by lia. apply Z.pow_le_mono_r; lia. }
  assert (Hscale : 0 < 2 ^ (fe + scale)) by (apply Z.pow_pos_nonneg; unfold scale; lia).
  assert (Hbig : 2 ^ (128 + scale) = 2 ^ 24 * 2 ^ (104 + scale))
    by (rewrite <- pow2_split by (unfold scale; lia); f_equal; lia).
  unfold shr_fexp. cbn [shr_record_of_loc].
  destruct m1 as [|p1|p1] eqn:Em1; try lia.
  - (* the value rounds to zero *)
    cbn [Zdigits2]. rewrite fexp32. unfold shr.
    destruct (Z.max (0 + fe - 24) (-149) - fe) as [|k|k] eqn:Ek; try lia;
      cbn [shr_m]; (split; [reflexivity|]);
      rewrite Z.mul_0_l; destruct (Z.leb_spec (2 ^ (128 + scale)) 0);
        try (pose proof (Z.pow_pos_nonneg 2 (128 + scale) ltac:(lia) ltac:(unfold scale; lia)); lia);
        destruct s; reflexivity.
  - destruct (Z.eq_dec (Zpos p1) (2 ^ 24)) as [E24|N24].
    + (* the mantissa carries to 2^24 *)
      assert (Ep : p1 = 16777216%positive) by (apply Pos2Z.inj; rewrite E24; reflexivity).
      subst p1. cbn [Zdigits2 digits2_pos Pos.succ]. rewrite fexp32.
      replace (Z.max (25 + fe - 24) (-149) - fe) with 1 by lia.
      rewrite shr_spec by lia. cbn [shr_m].
      change (16777216 / 2 ^ 1) with 8388608.
      unfold F.emax, F.prec.
      destruct (Z.leb_spec (fe + 1) (128 - 24)) as [Hle|Hgt].
      * split; [cbn [valid_binary]; apply bounded32_intro; cbn; lia|].
        destruct (Z.leb_spec (2 ^ (128 + scale)) (16777216 * 2 ^ (fe + scale))) as [Ho|Ho].
        { exfalso. rewrite Hbig in Ho. change (2 ^ 24) with 16777216 in Ho.
          assert (2 ^ (fe + scale) < 2 ^ (104 + scale)) by (apply Z.pow_lt_mono_r; unfold scale; lia).
          nia. }
        cbn [value]. f_equal. f_equal.
        replace (fe + 1 + scale) with (1 + (fe + scale)) by lia.
        rewrite (@pow2_split 1 (fe + scale)) by lia. change (2 ^ 1) with 2. ring.
      * split; [reflexivity|].
        destruct (Z.leb_spec (2 ^ (128 + scale)) (16777216 * 2 ^ (fe + scale))) as [Ho|Ho];
          [destruct s; reflexivity|].
        exfalso. rewrite Hbig in Ho. change (2 ^ 24) with 16777216 in Ho.
        assert (2 ^ (104 + scale) <= 2 ^ (fe + scale)) by (apply Z.pow_le_mono_r; unfold scale; lia).
        nia.
    + (* at most 24 digits: no second shift *)
      assert (Hp1 : Zpos p1 < 2 ^ 24) by lia.
      pose proof (digits_le_24 Hp1) as Hd1.
      cbn [Zdigits2]. rewrite fexp32. unfold shr.
      assert (Hcan : -149 < fe -> Zpos (digits2_pos p1) = 24).
      { intros Hf. apply digits2_pos_unique. specialize (Hnorm Hf).
        change (2 ^ (24 - 1)) with (2 ^ 23). lia. }
      unfold F.emax, F.prec.
      destruct (Z.max (Z.pos (digits2_pos p1) + fe - 24) (-149) - fe) as [|k|k] eqn:Ek;
        try lia; cbn [shr_m];
        (destruct (Z.leb_spec fe (128 - 24)) as [Hle|Hgt];
         [ split; [cbn [valid_binary]; apply bounded32_intro; lia|];
           destruct (Z.leb_spec (2 ^ (128 + scale)) (Zpos p1 * 2 ^ (fe + scale))) as [Ho|Ho];
           [ exfalso; rewrite Hbig in Ho;
             assert (2 ^ (fe + scale) <= 2 ^ (104 + scale))
               by (apply Z.pow_le_mono_r; unfold scale; lia);
             nia
           | reflexivity ]
         | split; [reflexivity|];
           destruct (Z.leb_spec (2 ^ (128 + scale)) (Zpos p1 * 2 ^ (fe + scale))) as [Ho|Ho];
           [ destruct s; reflexivity
           | exfalso; rewrite Hbig in Ho;
             assert (Hf : -149 < fe) by lia; specialize (Hnorm Hf);
             assert (2 ^ (105 + scale) <= 2 ^ (fe + scale))
               by (apply Z.pow_le_mono_r; unfold scale; lia);
             assert (2 ^ (105 + scale) = 2 * 2 ^ (104 + scale))
               by (replace (105 + scale) with (1 + (104 + scale)) by lia;
                   rewrite pow2_split by (unfold scale; lia); reflexivity);
             change (2 ^ 23) with 8388608 in *; change (2 ^ 24) with 16777216 in *;
             nia ] ]).
Qed.

Lemma decode_encode_infinity (s : bool) : F.decode (F.encode (S754_infinity s)) = S754_infinity s.
Proof. destruct s; reflexivity. Qed.

(** The conversion of a double to float rounds its value. *)
Lemma to_f32_value (x : spec_float) :
  valid_binary D.prec D.emax x = true ->
  fval (D.to_f32 x) = ext_round32 (value x).
Proof.
  intros V. unfold fval, D.to_f32. destruct x as [s|s| |s m e].
  - destruct s; reflexivity.
  - rewrite decode_encode_infinity. destruct s; reflexivity.
  - reflexivity.
  - cbn [valid_binary] in V. unfold bounded in V. apply andb_prop in V. destruct V as [Hc Hb].
    pose proof (canonical_exponent _ _ _ _ Hc) as (He & Hd & Hn).
    unfold emin, D.prec, D.emax in He, Hd, Hn.
    pose proof (digits2_pos_bounds m) as _.
    assert (Hlt : e < fexp F.prec F.emax (Zpos (digits2_pos m) + e)).
    { rewrite fexp32. destruct (Z.eq_dec e (3 - 1024 - 53)); [lia|].
      assert (Zpos (digits2_pos m) = 53) by (apply Hn; lia). lia. }
    assert (Hsc : - scale <= e) by (unfold scale; lia).
    destruct (@binary_round_value s m e Hlt Hsc) as [Hv Hval].
    rewrite (decode_encode _ Hv). exact Hval.
Qed.

Lemma round_units_float (m : positive) (e : Z) :
  Zpos (digits2_pos m) <= 24 -> -149 <= e ->
  round_units (Zpos m * 2 ^ (e + scale)) = Zpos m * 2 ^ (e + scale).
Proof.
  intros Hd He. unfold round_units, grid32.
  assert (Hs : 0 <= e + scale) by (unfold scale; lia).
  rewrite Z.log2_mul_pow2, log2_digits by lia.
  set (g := Z.max (e + scale + (Z.pos (digits2_pos m) - 1) - 23) (scale - 149)).
  assert (Hg : 0 < g <= e + scale) by (unfold g, scale in *; lia).
  replace (2 ^ (e + scale)) with (2 ^ (e + scale - g) * 2 ^ g)
    by (rewrite <- pow2_split by lia; f_equal; lia).
  rewrite Z.mul_assoc. apply rne_multiple. apply Z.pow_pos_nonneg; lia.
Qed.

(** A value that a float holds is not changed. *)
Lemma ext_round32_fval (a : F.f32) : ext_round32 (fval a) = fval a.
Proof.
  unfold fval. destruct (F.decode a) as [s|s| |s m e] eqn:E; cbn [value].
  - reflexivity.
  - destruct s; reflexivity.
  - reflexivity.
  - destruct (decode_finite_range a E) as (Hd & He & _).
    assert (Hs : 0 <= e + scale) by (unfold scale; lia).
    assert (Hv : 0 < Zpos m * 2 ^ (e + scale))
      by (apply Z.mul_pos_pos; [lia | apply Z.pow_pos_nonneg; lia]).
    rewrite (ext_round32_signed s Hv), round_units_float by lia.
    destruct (Z.leb_spec (2 ^ (128 + scale)) (Zpos m * 2 ^ (e + scale))) as [Ho|Ho]; [|reflexivity].
    exfalso.
    pose proof (digits2_pos_bounds m) as [_ Hhi].
    assert (Zpos m < 2 ^ 24).
    { apply Z.lt_le_trans with (2 ^ Zpos (digits2_pos m)); [assumption|].
      apply Z.pow_le_mono_r; lia. }
    assert (2 ^ (e + scale) <= 2 ^ (104 + scale)) by (apply Z.pow_le_mono_r; lia).
    assert (Hbig : 2 ^ (128 + scale) = 2 ^ 24 * 2 ^ (104 + scale))
      by (rewrite <- pow2_split by (unfold scale; lia); f_equal; lia).
    assert (0 < 2 ^ (e + scale)) by (apply Z.pow_pos_nonneg; lia).
    nia.
Qed.

(** Rounding keeps the order of values. *)
Lemma ext_round32_mono (a b : ext) :
  ext_leb a b = true -> ext_leb (ext_round32 a) (ext_round32 b) = true.
Proof.
  assert (Hbig : 0 < 2 ^ (128 + scale)) by (apply Z.pow_pos_nonneg; unfold scale; lia).
  destruct a as [| |u|], b as [| |v|]; try discriminate; try reflexivity.
  - (* -inf <= finite *)
    intros _. destruct v as [|p|p]; cbn [ext_round32]; try reflexivity;
      destruct (2 ^ (128 + scale) <=? round_units (Z.pos p)); reflexivity.
  - (* finite <= finite *)
    unfold ext_leb at 1. cbn [ext_compare]. intros H.
    assert (Huv : u <= v) by (destruct (Z.compare_spec u v); [lia | lia | discriminate]).
    clear H.
    destruct u as [|p|p], v as [|q|q]; try lia; cbn [ext_round32];
      repeat match goal with
             | |- context [round_units (Z.pos ?x)] =>
                 pose proof (@round_units_nonneg (Z.pos x) ltac:(lia));
                 let r := fresh "r" in
                 let E := fresh "E" in
                 remember (round_units (Z.pos x)) as r eqn:E
             end;
      try (assert (Hm : r <= r0)
             by (subst; apply round_units_mono; lia));
      try (assert (Hm : r0 <= r)
             by (subst; apply round_units_mono; lia));
      repeat match goal with
             | |- context [?x <=? ?y] => destruct (Z.leb_spec x y)
             end;
      unfold ext_leb; cbn [ext_compare];
      try reflexivity; try lia;
      match goal with
      | |- context [?x ?= ?y] => destruct (Z.compare_spec x y); try reflexivity; lia
      end.
  - (* finite <= +inf *)
    intros _. destruct u as [|p|p]; cbn [ext_round32]; try reflexivity;
      destruct (2 ^ (128 + scale) <=? round_units (Z.pos p)); reflexivity.
Qed.


(** ** Order facts on values *)

Ltac ext_cases :=
  repeat match goal with
         | H : _ = _ |- _ => revert H
         | H : _ <> _ |- _ => revert H
         end;
  unfold ext_ltb, ext_leb, ext_eqb, ext_compare;
  repeat match goal with
         | x : ext |- _ => destruct x
         end;
  cbn beta iota;
  repeat match goal with
         | |- context [(?u ?= ?v)%Z] => destruct (Z.compare_spec u v)
         end;
  intros; try congruence; try lia.

Lemma ext_ltb_trans (a b c : ext) :
  ext_ltb a b = true -> ext_ltb b c = true -> ext_ltb a c = true.
Proof. intros; ext_cases. Qed.

Lemma ext_ltb_irrefl (a : ext) : ext_ltb a a = false.
Proof. ext_cases. Qed.

Lemma ext_ltb_nan_r (a : ext) : ext_ltb a ENaN = false.
Proof. ext_cases. Qed.

Lemma ext_ltb_nan_l (a : ext) : ext_ltb ENaN a = false.
Proof. reflexivity. Qed.

(** ** The running maximum of [minMaxLoc] *)

Lemma fval_neg_infinity : fval F.neg_infinity = ENegInf.
Proof. reflexivity. Qed.

Lemma fval_zero : fval F.zero = EFin 0.
Proof. reflexivity. Qed.

Lemma fval_one : fval F.one = EFin (2 ^ scale).
Proof. vm_compute. reflexivity. Qed.


Section RunningMax.

Let step (maxVal val : F.f32) : F.f32 := if F.ltb maxVal val then val else maxVal.

Lemma running_fold_spec (vs : list Z) (acc : F.f32) :
  fval acc <> ENaN ->
  let r := fold_left step vs acc in
  (r = acc \/ In r vs) /\
  ext_ltb (fval r) (fval acc) = false /\
  (forall v, In v vs -> ext_ltb (fval r) (fval v) = false) /\
  fval r <> ENaN.
Proof.
  revert acc. induction vs as [|v vs IH]; intros acc Hn; cbn [fold_left].
  - repeat split; auto using ext_ltb_irrefl. intros ? [].
  - assert (Hstep : (step acc v = acc /\ ext_ltb (fval acc) (fval v) = false) \/
                    (step acc v = v /\ ext_ltb (fval acc) (fval v) = true)).
    { unfold step. rewrite F_ltb_value.
      destruct (ext_ltb (fval acc) (fval v)); [right | left]; split; reflexivity. }
    assert (Hn' : fval (step acc v) <> ENaN).
    { destruct Hstep as [[Hs _]|[Hs Hlt]]; rewrite Hs; [exact Hn|].
      intros Hv. rewrite Hv, ext_ltb_nan_r in Hlt. discriminate. }
    specialize (IH (step acc v) Hn'). cbn zeta in IH.
    destruct IH as (Hin & Hacc & Hall & Hnan).
    set (r := fold_left step vs (step acc v)) in *.
    repeat split.
    + destruct Hin as [Hin|Hin].
      * destruct Hstep as [[Hs _]|[Hs _]]; rewrite Hs in Hin;
          [left; exact Hin | right; left; symmetry; exact Hin].
      * right; right; exact Hin.
    + destruct Hstep as [[Hs _]|[Hs Hlt]]; rewrite Hs in Hacc; [exact Hacc|].
      destruct (ext_ltb (fval r) (fval acc)) eqn:E; [|reflexivity].
      rewrite (ext_ltb_trans _ _ _ E Hlt) in Hacc. discriminate.
    + intros u [Hu|Hu]; [subst u | apply Hall; exact Hu].
      destruct Hstep as [[Hs Hlt]|[Hs _]]; rewrite Hs in Hacc; [|exact Hacc].
      destruct (ext_ltb (fval r) (fval v)) eqn:E; [|reflexivity].
      clear - Hacc Hlt E Hn Hnan. revert Hacc Hlt E Hn Hnan.
      generalize (fval r) (fval acc) (fval v). intros; ext_cases.
    + exact Hnan.
Qed.

End RunningMax.

Lemma running_max_spec (vs : list Z) :
  (running_max vs = F.neg_infinity \/ In (running_max vs) vs) /\
  (forall v, In v vs -> ext_ltb (fval (running_max vs)) (fval v) = false) /\
  fval (running_max vs) <> ENaN.
Proof.
  assert (Hn : fval F.neg_infinity <> ENaN) by (rewrite fval_neg_infinity; discriminate).
  destruct (running_fold_spec vs F.neg_infinity Hn) as (H1 & _ & H3 & H4).
  repeat split; [exact H1 | exact H3 | exact H4].
Qed.

Lemma minMaxLoc_max_word (M : Mat) : minMaxLoc_max M = D.of_f32 (max_word M).
Proof.
  unfold minMaxLoc_max, max_word. destruct (pixels M); reflexivity.
Qed.

Lemma max_word_spec (M : Mat) :
  (max_word M = F.zero \/ max_word M = F.neg_infinity \/ In (max_word M) (pixels M)) /\
  (forall r c, (r < rows M)%nat -> (c < cols M)%nat ->
               ext_ltb (fval (max_word M)) (fval (pix M r c)) = false) /\
  fval (max_word M) <> ENaN.
Proof.
  unfold max_word. destruct (pixels M) as [|v vs] eqn:E.
  - repeat split; [left; reflexivity | | rewrite fval_zero; discriminate].
    intros r c Hr Hc. pose proof (@pixels_In M r c Hr Hc) as Hin.
    rewrite E in Hin. destruct Hin.
  - destruct (running_max_spec (v :: vs)) as (H1 & H2 & H3).
    repeat split; [tauto | | exact H3].
    intros r c Hr Hc. apply H2. rewrite <- E. apply pixels_In; assumption.
Qed.

(** The threshold of line 59 as the comparison of line 62 sees it: the
    exact product, rounded to [float]. *)
Lemma threshold_value (d : CornerDetector) (response : Mat) :
  fval (D.to_f32 (threshold_of d response))
  = ext_round32 (ext_mul (fval (quality_level_ d)) (fval (max_word response))).
Proof.
  unfold threshold_of. rewrite minMaxLoc_max_word.
  destruct (D_mul_of_f32 (quality_level_ d) (max_word response)) as [Hv Hval].
  rewrite (to_f32_value _ Hv), Hval. reflexivity.
Qed.

(** The test of line 62 on values. *)
Lemma is_strong_local_max_at_value (d : CornerDetector) (response : Mat) (r c : nat) :
  is_strong_local_max_at d response r c
  = ext_ltb (ext_round32 (ext_mul (fval (quality_level_ d)) (fval (max_word response))))
            (fval (pix response r c))
    && F.eqb (pix response r c) (pix (dilate response) r c).
Proof.
  unfold is_strong_local_max_at.
  rewrite F_ltb_value, threshold_value. reflexivity.
Qed.

(** ** The threshold [quality_level * max_val] on values *)

Lemma pow_scale_gt0 : 0 < 2 ^ scale.
Proof. apply Z.pow_pos_nonneg; unfold scale; lia. Qed.

Lemma quot_mono (S a1 a2 m t1 t2 : Z) :
  0 < S -> a2 <= a1 -> a1 <= S ->
  S * t1 <= a1 * m -> a1 * m < S * Z.succ t1 ->
  S * t2 <= a2 * m -> a2 * m < S * Z.succ t2 ->
  t2 <= t1 \/ m <= t1.
Proof.
  intros HS H21 H1S L1 U1 L2 U2.
  destruct (Z_le_gt_dec 0 m) as [Hm|Hm].
  - left. assert (a2 * m <= a1 * m) by (apply Z.mul_le_mono_nonneg_r; lia).
    assert (S * t2 < S * Z.succ t1) by lia.
    apply Z.mul_lt_mono_pos_l in H0; lia.
  - right. assert (S * m <= a1 * m) by (apply Z.mul_le_mono_nonpos_r; lia).
    assert (S * m < S * Z.succ t1) by lia.
    apply Z.mul_lt_mono_pos_l in H0; lia.
Qed.

(** Case analysis for statements about [ext_mul]: every product of finite
    values is named, with the two inequalities that define the quotient. *)
Ltac name_quotients S HS :=
  repeat match goal with
         | |- context [(?x / S)%Z] =>
             let t := fresh "t" in
             pose proof (Z.mul_div_le x S HS);
             pose proof (Z.mul_succ_div_gt x S HS);
             generalize dependent (x / S)%Z; intros t
         end.

Ltac ext_mul_cases :=
  repeat match goal with
         | H : _ = _ |- _ => revert H
         | H : _ <> _ |- _ => revert H
         end;
  unfold ext_ltb, ext_leb, ext_eqb, ext_compare, ext_mul;
  pose proof pow_scale_gt0 as HS; revert HS;
  generalize (2 ^ scale); intros S HS;
  repeat match goal with
         | x : ext |- _ => destruct x
         end;
  repeat match goal with
         | |- context [match ?u with Z0 => _ | Zpos _ => _ | Zneg _ => _ end] =>
             is_var u; destruct u
         end;
  rewrite ?Z.mul_0_l, ?Z.mul_0_r, ?Z.div_0_l by lia;
  cbn beta iota;
  try (intros; congruence);
  name_quotients S HS;
  repeat match goal with
         | |- context [(?u ?= ?v)%Z] => destruct (Z.compare_spec u v)
         end;
  intros; try congruence; try nia;
  try match goal with
      | Ha : S * ?t1 <= ?a1 * ?m, Hb : ?a1 * ?m < S * Z.succ ?t1,
        Hc : S * ?t2 <= ?a2 * ?m, Hd : ?a2 * ?m < S * Z.succ ?t2 |- _ =>
          destruct (@quot_mono S a1 a2 m t1 t2 HS ltac:(lia) ltac:(lia) Ha Hb Hc Hd); lia
      end.

(** *** The threshold after its rounding to [float] *)

Lemma ext_round32_nan : ext_round32 ENaN = ENaN.
Proof. reflexivity. Qed.

Lemma ext_leb_ltb_trans (a b c : ext) :
  ext_leb a b = true -> ext_ltb b c = true -> ext_ltb a c = true.
Proof. intros; ext_cases. Qed.

(** A larger threshold passes fewer pixels, also after rounding; a threshold
    at or above the maximum passes none. *)
Lemma rounded_lt_mono (t1 t2 vM vp : ext) :
  ext_leb t2 t1 = true \/ ext_leb vM t1 = true \/ t1 = ENaN ->
  ext_round32 vM = vM ->
  ext_ltb vM vp = false ->
  ext_ltb (ext_round32 t1) vp = true ->
  ext_ltb (ext_round32 t2) vp = true.
Proof.
  intros [H|[H|H]] HM Hmax Hlt.
  - apply ext_round32_mono in H. exact (ext_leb_ltb_trans _ _ _ H Hlt).
  - apply ext_round32_mono in H. rewrite HM in H.
    rewrite (ext_leb_ltb_trans _ _ _ H Hlt) in Hmax. discriminate.
  - subst t1. rewrite ext_round32_nan, ext_ltb_nan_l in Hlt. discriminate.
Qed.




Lemma ext_mul_one (v : ext) : ext_mul (EFin (2 ^ scale)) v = v.
Proof.
  pose proof pow_scale_gt0 as HS. unfold ext_mul.
  destruct v as [| |m|].
  - reflexivity.
  - destruct (2 ^ scale); try lia. reflexivity.
  - rewrite Z.mul_comm, Z.div_mul by lia. reflexivity.
  - destruct (2 ^ scale); try lia. reflexivity.
Qed.

(** With quality level 1 the threshold is the maximum itself. *)
Lemma threshold_one (vM vp : ext) :
  ext_round32 vM = vM ->
  ext_ltb vM vp = false ->
  ext_ltb (ext_round32 (ext_mul (EFin (2 ^ scale)) vM)) vp = false.
Proof. intros HM H. rewrite ext_mul_one, HM. exact H. Qed.

Lemma ext_round32_zero : ext_round32 (EFin 0) = EFin 0.
Proof. reflexivity. Qed.

Lemma nonneg_product (vq vM : ext) :
  ext_leb (EFin 0) vq = true ->
  ext_ltb vM (EFin 0) = false ->
  ext_mul vq vM <> ENaN ->
  ext_leb (EFin 0) (ext_mul vq vM) = true.
Proof. intros. ext_mul_cases. Qed.

(** A pixel above the threshold of a non-negative field, for a non-negative
    quality level, is strictly positive. *)
Lemma above_threshold_positive (vq vM vp : ext) :
  ext_leb (EFin 0) vq = true ->
  vM <> ENaN ->
  ext_ltb vM vp = false ->
  ext_ltb vp (EFin 0) = false ->
  vM = ENegInf \/ ext_ltb vM (EFin 0) = false ->
  ext_ltb (ext_round32 (ext_mul vq vM)) vp = true ->
  ext_ltb (EFin 0) vp = true.
Proof.
  intros H1 H2 H3 H4 [H5|H5] H6.
  - subst vM. clear - H3 H6. revert H3 H6.
    generalize (ext_round32 (ext_mul vq ENegInf)). intros; ext_cases.
  - destruct (ext_mul vq vM) eqn:E.
    + rewrite ext_round32_nan, ext_ltb_nan_l in H6. discriminate.
    + rewrite <- E in *. eapply ext_leb_ltb_trans; [|exact H6].
      rewrite <- ext_round32_zero. apply ext_round32_mono.
      apply nonneg_product; congruence.
    + rewrite <- E in *. eapply ext_leb_ltb_trans; [|exact H6].
      rewrite <- ext_round32_zero. apply ext_round32_mono.
      apply nonneg_product; congruence.
    + rewrite <- E in *. eapply ext_leb_ltb_trans; [|exact H6].
      rewrite <- ext_round32_zero. apply ext_round32_mono.
      apply nonneg_product; congruence.
Qed.

(** NaN never passes the threshold test. *)
Lemma above_threshold_not_nan (t vp : ext) : ext_ltb t vp = true -> vp <> ENaN.
Proof. intros H E. subst vp. rewrite ext_ltb_nan_r in H. discriminate. Qed.

Lemma nonneg_times_infinity (vq : ext) :
  ext_leb (EFin 0) vq = true ->
  ext_mul vq EPosInf = EPosInf \/ ext_mul vq EPosInf = ENaN.
Proof.
  destruct vq as [| |u|]; cbn; try discriminate; auto.
  destruct u; cbn; auto. discriminate.
Qed.

(** With a non-negative quality level an infinite pixel never passes. *)
Lemma above_threshold_finite (vq vM vp : ext) :
  ext_leb (EFin 0) vq = true ->
  vM <> ENaN ->
  ext_ltb vM vp = false ->
  ext_ltb (ext_round32 (ext_mul vq vM)) vp = true ->
  vp <> EPosInf /\ vp <> ENegInf.
Proof.
  intros H1 H2 H3 H4. split; intros E; subst vp.
  - assert (vM = EPosInf) by (clear - H2 H3; ext_cases). subst vM.
    destruct (nonneg_times_infinity _ H1) as [E|E]; rewrite E in H4;
      cbn in H4; discriminate.
  - clear - H4. revert H4. generalize (ext_round32 (ext_mul vq vM)). intros; ext_cases.
Qed.

Lemma is_nan_value (a : F.f32) : F.is_nan a = true <-> fval a = ENaN.
Proof.
  unfold F.is_nan, fval. destruct (F.decode a) as [s|s| |s m e]; cbn [value];
    try destruct s; split; intros H; congruence.
Qed.

Lemma is_nan_false_value (a : F.f32) : F.is_nan a = false <-> fval a <> ENaN.
Proof.
  rewrite <- is_nan_value. destruct (F.is_nan a); split; congruence.
Qed.

Lemma is_finite_value (a : F.f32) :
  F.is_finite a = true <-> fval a <> ENaN /\ fval a <> EPosInf /\ fval a <> ENegInf.
Proof.
  unfold F.is_finite, fval. destruct (F.decode a) as [s|s| |s m e]; cbn [value];
    try destruct s; split; try intros (H1 & H2 & H3); try intros H;
    repeat split; congruence.
Qed.

Lemma not_lt_zero_not_nan (v : ext) :
  ext_ltb v (EFin 0) = false -> v <> ENaN -> ext_leb (EFin 0) v = true.
Proof. intros; ext_cases. Qed.

Lemma threshold_cases_nonneg_aux (v1 v2 vM : ext) :
  vM <> ENaN ->
  ext_ltb vM (EFin 0) = false ->
  ext_leb v2 v1 = true ->
  ext_mul v1 vM <> ENaN ->
  ext_leb (ext_mul v2 vM) (ext_mul v1 vM) = false ->
  ext_leb vM (ext_mul v1 vM) = true.
Proof. intros. ext_mul_cases. Qed.

(** Over a field whose maximum is not negative the threshold grows with the
    quality level, whatever the two levels are. *)
Lemma threshold_mono_nonneg (v1 v2 vM vp : ext) :
  vM <> ENaN ->
  ext_round32 vM = vM ->
  ext_ltb vM vp = false ->
  vM = ENegInf \/ ext_ltb vM (EFin 0) = false ->
  ext_leb v2 v1 = true ->
  ext_ltb (ext_round32 (ext_mul v1 vM)) vp = true ->
  ext_ltb (ext_round32 (ext_mul v2 vM)) vp = true.
Proof.
  intros H1 HM H2 [H3|H3] H4 H5.
  - subst vM. exfalso. clear - H2 H5. revert H2 H5.
    generalize (ext_round32 (ext_mul v1 ENegInf)). intros; ext_cases.
  - apply rounded_lt_mono with (t1 := ext_mul v1 vM) (vM := vM); auto.
    destruct (ext_leb (ext_mul v2 vM) (ext_mul v1 vM)) eqn:E; [left; reflexivity|].
    right. destruct (ext_mul v1 vM) eqn:E1; [right; reflexivity | left ..];
      rewrite <- E1 in *;
      apply threshold_cases_nonneg_aux with (v2 := v2); solve [assumption | congruence].
Qed.

Local Close Scope Z_scope.

(** ** Lemmas shared by the claims *)


Lemma harris_response_ok (solver : Mat -> Mat) (lane : nat -> nat -> bool)
      (v : bool) (q ws : F.f32) (g dg win image : Mat) :
  let d := mkCornerDetector harris v q ws g dg win in
  let '(A, B, C) := tensor_fields d image in
  exists R, corner_response solver lane d A B C = Ok R /\
            rows R = rows image /\ cols R = cols image /\
            forall r c, r < rows image -> c < cols image ->
                        pix R r c = harris_at (lane r c) (pix A r c) (pix B r c) (pix C r c).
Proof.
  intros d. pose proof (tensor_fields_shape d image) as Hs.
  destruct (tensor_fields d image) as [[A B] C].
  destruct Hs as (HAB & HAC & _ & Hr & Hc).
  destruct (harrisMetric_spec lane A B C HAB HAC) as [R (HR & Hrr & Hrc & Hpix)].
  exists R. unfold corner_response. cbn [metric_type_ d].
  rewrite <- Hr, <- Hc. auto.
Qed.

Lemma harmonic_response_ok (solver : Mat -> Mat) (lane : nat -> nat -> bool)
      (v : bool) (q ws : F.f32) (g dg win image : Mat) :
  let d := mkCornerDetector harmonic_mean v q ws g dg win in
  let '(A, B, C) := tensor_fields d image in
  exists R, corner_response solver lane d A B C = Ok R /\
            rows R = rows image /\ cols R = cols image /\
            forall r c, r < rows image -> c < cols image ->
                        pix R r c = harmonic_at (pix A r c) (pix C r c).
Proof.
  intros d. pose proof (tensor_fields_shape d image) as Hs.
  destruct (tensor_fields d image) as [[A B] C].
  destruct Hs as (HAB & HAC & _ & Hr & Hc).
  destruct (harmonicMeanMetric_spec A B C HAC) as [R (HR & Hrr & Hrc & Hpix)].
  exists R. unfold corner_response. cbn [metric_type_ d].
  rewrite <- Hr, <- Hc. auto.
Qed.


Lemma clamp_at_not_negative (vector : bool) (raw : F.f32) :
  ext_ltb (fval (clamp_at vector raw)) (EFin 0) = false.
Proof.
  unfold clamp_at, F.vmax, F.max. rewrite !F_ltb_value, fval_zero.
  destruct vector.
  - destruct (ext_ltb (EFin 0) (fval raw)) eqn:E; [|reflexivity].
    revert E. generalize (fval raw). intros; ext_cases.
  - destruct (ext_ltb (fval raw) (EFin 0)) eqn:E; [reflexivity | exact E].
Qed.

Lemma harris_at_not_negative (vector : bool) (a b c : F.f32) :
  ext_ltb (fval (harris_at vector a b c)) (EFin 0) = false.
Proof. apply clamp_at_not_negative. Qed.

Lemma max_word_sign (R : Mat) :
  (forall r c, r < rows R -> c < cols R -> ext_ltb (fval (pix R r c)) (EFin 0) = false) ->
  fval (max_word R) = ENegInf \/ ext_ltb (fval (max_word R)) (EFin 0) = false.
Proof.
  intros H. destruct (max_word_spec R) as ([Hz|[Hn|Hin]] & _ & _).
  - right. rewrite Hz. reflexivity.
  - left. rewrite Hn. reflexivity.
  - right. unfold pixels in Hin. apply in_map_iff in Hin.
    destruct Hin as [[r c] [Hp Hin]]. apply coords_In in Hin.
    rewrite <- Hp. apply H; tauto.
Qed.

Lemma strong_local_max_positive (d : CornerDetector) (R : Mat) (r c : nat) :
  F.leb F.zero (quality_level_ d) = true ->
  (forall r c, r < rows R -> c < cols R -> ext_ltb (fval (pix R r c)) (EFin 0) = false) ->
  r < rows R -> c < cols R ->
  is_strong_local_max_at d R r c = true ->
  F.ltb F.zero (pix R r c) = true.
Proof.
  intros Hq Hnn Hr Hc. rewrite is_strong_local_max_at_value, andb_true_iff.
  intros [Ht _]. rewrite F_ltb_value, fval_zero.
  rewrite F_leb_value, fval_zero in Hq.
  destruct (max_word_spec R) as (_ & Hmax & Hnan).
  eapply above_threshold_positive; eauto using max_word_sign.
Qed.

Lemma quality_one_no_locations (d : CornerDetector) (R : Mat) :
  quality_level_ d = F.one -> max_locations d R = [].
Proof.
  intros Hq. apply max_locations_nil. intros r c Hr Hc.
  rewrite is_strong_local_max_at_value, Hq, fval_one.
  destruct (max_word_spec R) as (_ & Hmax & _).
  rewrite threshold_one by (first [apply ext_round32_fval | apply Hmax; assumption]).
  reflexivity.
Qed.

Lemma harmonic_at_zero_zero (a c : F.f32) :
  F.is_zero a = true -> F.is_zero c = true -> harmonic_at a c = F.nan.
Proof.
  unfold F.is_zero, harmonic_at, F.div, F.mul, F.add.
  destruct (F.decode a) as [sa|sa| |sa ma ea]; try discriminate.
  destruct (F.decode c) as [sc|sc| |sc mc ec]; try discriminate.
  intros _ _. destruct sa, sc; vm_compute; reflexivity.
Qed.

Lemma keypoint_response_not_nan (d : CornerDetector) (R : Mat) (k : KeyPoint) :
  In k (map (make_keypoint d R) (max_locations d R)) ->
  F.is_nan (kp_response k) = false.
Proof.
  intros Hk. apply in_map_iff in Hk. destruct Hk as [[x y] [Hk Hin]]. subst k.
  apply max_locations_In in Hin. destruct Hin as (Hx & Hy & Hsel).
  cbn [make_keypoint kp_response at_point pt_x pt_y].
  rewrite is_strong_local_max_at_value, andb_true_iff in Hsel. destruct Hsel as [Ht _].
  apply is_nan_false_value. eapply above_threshold_not_nan; exact Ht.
Qed.

Lemma keypoint_response_finite (d : CornerDetector) (R : Mat) (k : KeyPoint) :
  F.leb F.zero (quality_level_ d) = true ->
  In k (map (make_keypoint d R) (max_locations d R)) ->
  F.is_finite (kp_response k) = true.
Proof.
  intros Hq Hk. apply in_map_iff in Hk. destruct Hk as [[x y] [Hk Hin]]. subst k.
  apply max_locations_In in Hin. destruct Hin as (Hx & Hy & Hsel).
  cbn [make_keypoint kp_response at_point pt_x pt_y].
  rewrite is_strong_local_max_at_value, andb_true_iff in Hsel. destruct Hsel as [Ht _].
  rewrite F_leb_value, fval_zero in Hq.
  destruct (max_word_spec R) as (_ & Hmax & Hnan).
  apply is_finite_value. split.
  - eapply above_threshold_not_nan; exact Ht.
  - eapply above_threshold_finite; eauto.
Qed.

Lemma reflect101_lt (p : Z) (len : nat) : 0 < len -> reflect101 p len < len.
Proof.
  intros Hlen. unfold reflect101.
  destruct (Nat.leb_spec len 1) as [H1|H1]; [exact Hlen|].
  assert (Hp : (0 < 2 * (Z.of_nat len - 1))%Z) by lia.
  pose proof (Z.mod_pos_bound p _ Hp) as Hq.
  destruct (Z.ltb_spec (p mod (2 * (Z.of_nat len - 1))) (Z.of_nat len)); lia.
Qed.






Lemma ext_mul_zero_not_below (vq : ext) (vp : ext) :
  ext_ltb (EFin 0) vp = false ->
  ext_ltb (ext_round32 (ext_mul vq (EFin 0))) vp = false.
Proof.
  intros H. destruct vq as [| |u|]; try reflexivity.
  cbn [ext_mul]. rewrite Z.mul_0_r. exact H.
Qed.

(** A field whose pixels are all zero or NaN has no strong local maximum. *)
Lemma null_field_no_locations (d : CornerDetector) (R : Mat) :
  (forall r c, r < rows R -> c < cols R ->
               fval (pix R r c) = EFin 0 \/ fval (pix R r c) = ENaN) ->
  max_locations d R = [].
Proof.
  intros Hz. apply max_locations_nil. intros r c Hr Hc.
  rewrite is_strong_local_max_at_value.
  destruct (Hz r c Hr Hc) as [Hp|Hp]; rewrite Hp; [|rewrite ext_ltb_nan_r; reflexivity].
  assert (HM : fval (max_word R) = EFin 0).
  { destruct (max_word_spec R) as ([Hm|[Hm|Hm]] & Hmax & Hnan).
    - rewrite Hm. reflexivity.
    - specialize (Hmax r c Hr Hc). rewrite Hm, Hp in Hmax. discriminate.
    - unfold pixels in Hm. apply in_map_iff in Hm. destruct Hm as [[i j] [Hq Hin]].
      apply coords_In in Hin. cbn [fst snd] in *.
      destruct (Hz i j) as [H0|H0]; try tauto; rewrite Hq in H0; [exact H0|].
      contradiction. }
  rewrite HM, ext_mul_zero_not_below by reflexivity. reflexivity.
Qed.


Lemma nan_field_no_locations (d : CornerDetector) (R : Mat) :
  (forall r c, r < rows R -> c < cols R -> pix R r c = F.nan) ->
  max_locations d R = [].
Proof.
  intros Hn. apply null_field_no_locations. intros r c Hr Hc.
  right. rewrite (Hn r c Hr Hc). reflexivity.
Qed.




(** ** The dilation test is the local-maximum test *)

Lemma fold_max_spec (ws : list Z) (w : F.f32) :
  fval w <> ENaN ->
  (forall n, In n ws -> fval n <> ENaN) ->
  let r := fold_left F.max ws w in
  In r (w :: ws) /\
  (forall n, In n (w :: ws) -> ext_ltb (fval r) (fval n) = false) /\
  fval r <> ENaN.
Proof.
  revert w. induction ws as [|v ws IH]; intros w Hw Hws; cbn [fold_left].
  - repeat split; [left; reflexivity | | exact Hw].
    intros n [<-|[]]. apply ext_ltb_irrefl.
  - assert (Hv : fval v <> ENaN) by (apply Hws; left; reflexivity).
    assert (Hstep : (F.max w v = w /\ ext_ltb (fval w) (fval v) = false) \/
                    (F.max w v = v /\ ext_ltb (fval w) (fval v) = true)).
    { unfold F.max. rewrite F_ltb_value.
      destruct (ext_ltb (fval w) (fval v)); [right | left]; split; reflexivity. }
    assert (Hm : fval (F.max w v) <> ENaN)
      by (destruct Hstep as [[-> _]|[-> _]]; assumption).
    destruct (IH (F.max w v) Hm (fun n Hn => Hws n (or_intror Hn))) as (Hin & Hall & Hnan).
    set (r := fold_left F.max ws (F.max w v)) in *.
    repeat split; [| |exact Hnan].
    + destruct Hin as [Hin|Hin]; [|right; right; exact Hin].
      destruct Hstep as [[Hs _]|[Hs _]]; rewrite Hs in Hin;
        [left; exact Hin | right; left; exact Hin].
    + pose proof (Hall _ (or_introl eq_refl)) as Hacc.
      intros n [Hn|[Hn|Hn]]; [subst n | subst n | apply Hall; right; exact Hn].
      * destruct Hstep as [[Hs _]|[Hs Hlt]]; rewrite Hs in Hacc; [exact Hacc|].
        clear - Hacc Hlt Hw Hv Hnan. revert Hacc Hlt Hw Hv Hnan.
        generalize (fval r) (fval w) (fval v). intros; ext_cases.
      * destruct Hstep as [[Hs Hlt]|[Hs _]]; rewrite Hs in Hacc; [|exact Hacc].
        clear - Hacc Hlt Hw Hv Hnan. revert Hacc Hlt Hw Hv Hnan.
        generalize (fval r) (fval w) (fval v). intros; ext_cases.
Qed.

Lemma window3x3_centre (M : Mat) (y x : nat) :
  y < rows M -> x < cols M -> In (pix M y x) (window3x3 M y x).
Proof.
  intros Hy Hx. unfold window3x3. apply in_map_iff. exists (1, 1). split.
  - cbn [fst snd]. unfold pix_border.
    replace (Z.of_nat y + Z.of_nat 1 - 1)%Z with (Z.of_nat y) by lia.
    replace (Z.of_nat x + Z.of_nat 1 - 1)%Z with (Z.of_nat x) by lia.
    rewrite !Nat2Z.id.
    destruct (Z.leb_spec 0 (Z.of_nat y)); [|lia].
    destruct (Z.ltb_spec (Z.of_nat y) (Z.of_nat (rows M))); [|lia].
    destruct (Z.leb_spec 0 (Z.of_nat x)); [|lia].
    destruct (Z.ltb_spec (Z.of_nat x) (Z.of_nat (cols M))); [|lia].
    reflexivity.
  - apply coords_In. lia.
Qed.

Lemma ext_eqb_iff_no_greater (p r : ext) :
  p <> ENaN -> r <> ENaN ->
  ext_ltb r p = false ->
  (ext_eqb p r = true <-> ext_ltb p r = false).
Proof. intros; split; intros; ext_cases. Qed.

Lemma ext_ltb_below_max (p r n : ext) :
  ext_ltb p r = false -> ext_ltb r n = false -> p <> ENaN -> r <> ENaN ->
  ext_ltb p n = false.
Proof. intros; ext_cases. Qed.

(** Where the 3x3 window of a pixel holds no NaN, the pixel equals the
    dilated value exactly when no entry of the window is greater: a local
    maximum, ties allowed (entries outside the image count as -FLT_MAX). *)
Theorem dilation_test_is_local_maximum (response : Mat) (y x : nat) :
  y < rows response -> x < cols response ->
  (forall n, In n (window3x3 response y x) -> F.is_nan n = false) ->
  (F.eqb (pix response y x) (pix (dilate response) y x) = true <->
   forall n, In n (window3x3 response y x) -> F.ltb (pix response y x) n = false).
Proof.
  intros Hy Hx Hnan. rewrite pix_dilate by assumption.
  pose proof (@window3x3_centre response y x Hy Hx) as Hc.
  destruct (window3x3 response y x) as [|w ws] eqn:E; [destruct Hc|].
  assert (Hw : fval w <> ENaN) by (apply is_nan_false_value, Hnan; left; reflexivity).
  assert (Hws : forall n, In n ws -> fval n <> ENaN)
    by (intros n Hn; apply is_nan_false_value, Hnan; right; exact Hn).
  destruct (@fold_max_spec ws w Hw Hws) as (Hin & Hall & Hr).
  set (r := fold_left F.max ws w) in *.
  assert (Hp : fval (pix response y x) <> ENaN) by (apply is_nan_false_value, Hnan, Hc).
  rewrite F_eqb_value.
  rewrite (ext_eqb_iff_no_greater Hp Hr (Hall _ Hc)).
  split.
  - intros H n Hn. rewrite F_ltb_value.
    apply (ext_ltb_below_max (r := fval r)); auto.
  - intros H. rewrite <- F_ltb_value. apply H. exact Hin.
Qed.

(** Witness: the pixel (1, 1) of the corner image. *)
Lemma dilation_test_witness :
  F.eqb (pix corner_image 1 1) (pix (dilate corner_image) 1 1) = true <->
  forall n, In n (window3x3 corner_image 1 1) -> F.ltb (pix corner_image 1 1) n = false.
Proof.
  apply dilation_test_is_local_maximum.
  - cbn. lia.
  - cbn. lia.
  - intros n Hn. vm_compute in Hn.
    repeat (destruct Hn as [<-|Hn]; [reflexivity|]). destruct Hn.
Defined.

(** ** Flat fields *)






(** *** The dilation of a flat field *)






(** *** The selection on a flat field *)





(** ** Signs: the tensor fields under a window without negative taps *)

Section Signs.

Variables prec emax : Z.








End Signs.










(** ** Key points under two quality levels *)

Lemma strong_local_max_mono_nonneg (d1 d2 : CornerDetector) (R : Mat) (r c : nat) :
  F.leb (quality_level_ d2) (quality_level_ d1) = true ->
  (forall r c, r < rows R -> c < cols R -> ext_ltb (fval (pix R r c)) (EFin 0) = false) ->
  r < rows R -> c < cols R ->
  is_strong_local_max_at d1 R r c = true ->
  is_strong_local_max_at d2 R r c = true.
Proof.
  intros H21 Hnn Hr Hc. rewrite !is_strong_local_max_at_value, !andb_true_iff.
  intros [Ht He]. split; [|exact He].
  destruct (max_word_spec R) as (_ & Hmax & Hnan).
  rewrite F_leb_value in H21.
  eapply threshold_mono_nonneg; eauto using max_word_sign, ext_round32_fval.
Qed.

Lemma keypoints_weaken (d1 d2 : CornerDetector) (R : Mat) :
  (forall r c, r < rows R -> c < cols R ->
               is_strong_local_max_at d1 R r c = true ->
               is_strong_local_max_at d2 R r c = true) ->
  incl (map (make_keypoint d1 R) (max_locations d1 R))
       (map (make_keypoint d1 R) (max_locations d2 R)) /\
  length (map (make_keypoint d1 R) (max_locations d1 R))
  <= length (map (make_keypoint d1 R) (max_locations d2 R)).
Proof.
  intros H. unfold max_locations.
  destruct (filter_weaken
              (fun rc => is_strong_local_max_at d1 R (fst rc) (snd rc))
              (fun rc => is_strong_local_max_at d2 R (fst rc) (snd rc))
              (coords (rows R) (cols R))) as [Hincl Hlen].
  { intros [r c] Hin. apply coords_In in Hin. cbn [fst snd]. apply H; tauto. }
  split.
  - apply incl_map, incl_map. exact Hincl.
  - rewrite !length_map. exact Hlen.
Qed.

(** ** The maximum is attained *)



(** ** [detect] on a flat image *)






(* ================================================================== *)
(** * The claims *)

(** ** C1: the gradient estimator *)

(** C1 (code defect).  The gradient stage returns whenever the image and
    the two kernels have elements, and its fields have the size of the
    image, but each is one [filter2D] with one kernel: Ix does not depend on
    the derivative kernel and Iy does not depend on the smoothing kernel.
    On a flat 3x3 image of ones, with g = (1/4, 1/2, 1/4) and
    dg = (-1/2, 0, 1/2), the code's Ix is 1 everywhere, where the separable
    gradient of the spec is 0 everywhere; on the corner image the code's Iy
    is 0 at (row 1, column 2), where the spec's Iy, smoothed along x, is
    1/8. *)
Theorem C1_gradients_use_one_kernel_each :
  (forall d image,
      is_ok (gradients d image)
      = negb (mat_empty image) && negb (mat_empty (g_kernel_ d))
        && negb (mat_empty (dg_kernel_ d)) /\
      forall Ix Iy,
        gradients d image = Ok (Ix, Iy) ->
        rows Ix = rows image /\ cols Ix = cols image /\
        rows Iy = rows image /\ cols Iy = cols image /\
        Ix = correlate image (g_kernel_ d) /\ Iy = correlate image (dg_kernel_ d)) /\
  (exists Ix Iy,
      gradients (sample_detector harris half) (flat_image 3 3 F.one) = Ok (Ix, Iy) /\
      data Ix = repeat F.one 9) /\
  data (spec_Ix (flat_image 3 3 F.one) g3 dg3) = repeat F.zero 9 /\
  (exists Ix Iy,
      gradients (sample_detector harris half) corner_image = Ok (Ix, Iy) /\
      pix Iy 1 2 = F.zero) /\
  pix (spec_Iy corner_image g3 dg3) 1 2 = 0x3E000000%Z.
Proof.
  split; [|split; [|split; [|split]]].
  - intros d image. unfold gradients, filter2D.
    destruct (mat_empty image), (mat_empty (g_kernel_ d)), (mat_empty (dg_kernel_ d));
      cbn [bind is_ok negb andb]; (split; [reflexivity|]); intros Ix Iy H;
      try discriminate.
    inversion H; subst. autorewrite with shape. repeat split.
  - do 2 eexists. split; vm_compute; reflexivity.
  - vm_compute. reflexivity.
  - do 2 eexists. split; vm_compute; reflexivity.
  - vm_compute. reflexivity.
Qed.

(** ** C2: the harmonic-mean metric *)

(** C2, counterexample.  At a pixel with A = C = 0 the metric returns NaN,
    not the fallback 0. *)
Lemma C2_zero_over_zero_is_nan :
  harmonicMeanMetric (flat_image 1 1 F.zero) (flat_image 1 1 F.zero) (flat_image 1 1 F.zero)
  = Ok (flat_image 1 1 F.nan) /\
  F.is_nan F.nan = true /\ F.eqb F.nan F.zero = false.
Proof. split; [|split]; vm_compute; reflexivity. Qed.

(** C2, amended.  On fields of one size the harmonic-mean metric returns at
    every pixel the IEEE quotient (A*C)/(A+C), with no fallback: where A
    and C are both zero it is NaN.  NaN stays in the response field but not
    in the key points: a NaN pixel fails the threshold comparison, and for a
    quality level that is not negative every key point has a finite
    response. *)
Theorem C2_harmonic_mean_is_the_unguarded_quotient (d : CornerDetector) (A B C : Mat) :
  same_shape A C = true ->
  exists R,
    harmonicMeanMetric A B C = Ok R /\ rows R = rows A /\ cols R = cols A /\
    (forall r c, r < rows A -> c < cols A ->
       pix R r c = F.div (F.mul (pix A r c) (pix C r c)) (F.add (pix A r c) (pix C r c)) /\
       (F.is_zero (pix A r c) = true -> F.is_zero (pix C r c) = true ->
        pix R r c = F.nan)) /\
    exists ks,
      extract_keypoints d R = Ok ks /\
      (forall k, In k ks -> F.is_nan (kp_response k) = false) /\
      (F.leb F.zero (quality_level_ d) = true ->
       forall k, In k ks -> F.is_finite (kp_response k) = true).
Proof.
  intros HAC.
  destruct (harmonicMeanMetric_spec A B C HAC) as [R (HR & Hr & Hc & Hpix)].
  exists R. repeat (split; [assumption|]). split.
  - intros r c Hlr Hlc. rewrite (Hpix r c Hlr Hlc). split; [reflexivity|].
    apply harmonic_at_zero_zero.
  - eexists. split; [apply extract_keypoints_spec|]. split.
    + intros k. apply keypoint_response_not_nan.
    + intros Hq k. apply keypoint_response_finite. exact Hq.
Qed.

(** Witness of C2: 1x1 fields A = 2, C = 1. *)
Lemma C2_witness :
  exists R,
    harmonicMeanMetric (flat_image 1 1 two) (flat_image 1 1 F.one) (flat_image 1 1 F.one) = Ok R /\
    rows R = 1 /\ cols R = 1 /\
    (forall r c, r < 1 -> c < 1 ->
       pix R r c = F.div (F.mul (pix (flat_image 1 1 two) r c) (pix (flat_image 1 1 F.one) r c))
                         (F.add (pix (flat_image 1 1 two) r c) (pix (flat_image 1 1 F.one) r c)) /\
       (F.is_zero (pix (flat_image 1 1 two) r c) = true ->
        F.is_zero (pix (flat_image 1 1 F.one) r c) = true ->
        pix R r c = F.nan)) /\
    exists ks,
      extract_keypoints (sample_detector harmonic_mean half) R = Ok ks /\
      (forall k, In k ks -> F.is_nan (kp_response k) = false) /\
      (F.leb F.zero (quality_level_ (sample_detector harmonic_mean half)) = true ->
       forall k, In k ks -> F.is_finite (kp_response k) = true).
Proof.
  apply (C2_harmonic_mean_is_the_unguarded_quotient
           (sample_detector harmonic_mean half)
           (flat_image 1 1 two) (flat_image 1 1 F.one) (flat_image 1 1 F.one)).
  reflexivity.
Defined.

(** ** C3: the minimum-eigenvalue metric *)

(** C3 (code defect).  [minEigenMetric] is meant to return min(lambda1,
    lambda2) of [[A,B],[B,C]] at every pixel.  It returns nothing: whatever
    the fields and whatever the eigen-solver, the call ends in a failed
    OpenCV assertion (the Mat -> Vec3f conversions demand 3-element vectors,
    and [cv::eigen] rejects the three-channel matrix M). *)
Theorem C3_minEigenMetric_always_raises (solver : Mat -> Mat) (A B C : Mat) :
  minEigenMetric solver A B C = Raise StsAssert.
Proof. apply minEigenMetric_raises. Qed.

(** ** C4: the maxima selector *)



(** ** C5: construction *)

(** C5, counterexample.  With kernel builders that reject sigma <= 0 as the
    spec asks, constructing a detector with quality_level = 2, outside
    (0,1], succeeds and stores 2. *)
Lemma C5_quality_level_two_is_accepted :
  exists d,
    CornerDetector_new spec_create1DGaussianKernel spec_create1DDerivatedGaussianKernel
                       harris false two F.one F.one = Ok d /\
    quality_level_ d = two /\
    F.leb two F.one = false.
Proof. eexists. split; [vm_compute; reflexivity|]. split; reflexivity. Qed.

(** C5, amended.  The constructor checks nothing itself.  It fails exactly
    when one of the kernel builders fails, so a non-positive sigma is
    rejected whenever the builders reject it; the outcome does not depend on
    quality_level, and every quality_level, also outside (0,1], is stored
    unchanged. *)
Theorem C5_constructor_checks_nothing
        (mk_g mk_dg : F.f32 -> result Mat)
        (m : CornerMetric) (v : bool) (q gs ws : F.f32) :
  is_ok (CornerDetector_new mk_g mk_dg m v q gs ws)
  = is_ok (mk_g gs) && is_ok (mk_dg gs) && is_ok (mk_g ws) /\
  (forall d, CornerDetector_new mk_g mk_dg m v q gs ws = Ok d ->
             quality_level_ d = q /\ window_sigma_ d = ws /\ metric_type_ d = m /\
             mk_g gs = Ok (g_kernel_ d) /\ mk_dg gs = Ok (dg_kernel_ d) /\
             mk_g ws = Ok (win_kernel_ d)) /\
  ((forall s, F.leb s F.zero = true -> is_ok (mk_g s) = false) ->
   F.leb gs F.zero = true \/ F.leb ws F.zero = true ->
   is_ok (CornerDetector_new mk_g mk_dg m v q gs ws) = false).
Proof.
  unfold CornerDetector_new.
  split; [|split].
  - destruct (mk_g gs), (mk_dg gs), (mk_g ws); reflexivity.
  - intros d H.
    destruct (mk_g gs) as [g|], (mk_dg gs) as [dg|], (mk_g ws) as [win|];
      cbn [bind] in H; try discriminate.
    inversion H; subst d. cbn. repeat split.
  - intros Hrej [Hs|Hs]; apply Hrej in Hs.
    + destruct (mk_g gs); [discriminate | reflexivity].
    + destruct (mk_g gs), (mk_dg gs), (mk_g ws); cbn [bind is_ok] in *;
        try reflexivity; discriminate.
Qed.

(** ** C6: the Harris metric *)

(** C6, counterexample.  With A = B = C = 2^100 at the one pixel of a 1x1
    field the products overflow, det(M) is inf - inf = NaN, and the scalar
    loop of [cv::max], which handles a field narrower than one vector,
    keeps the NaN: the response is not >= 0. *)
Lemma C6_overflow_gives_nan :
  harrisMetric scalar_lanes (flat_image 1 1 big) (flat_image 1 1 big) (flat_image 1 1 big)
  = Ok (flat_image 1 1 F.nan) /\
  F.leb F.zero F.nan = false.
Proof. split; vm_compute; reflexivity. Qed.

(** C6, amended.  On fields of one size the Harris metric returns, pixel by
    pixel, det(M) - alpha * trace(M)^2 in single precision, with alpha the
    float 0.06f, det(M) = A*C - B*B, trace(M) = A + C and the last product
    taken as (alpha * trace) * trace, then clamped at 0 by [cv::max]: in its
    vector loop the value is kept where it is above 0 and replaced by 0
    elsewhere, in its scalar loop it is replaced by 0 where it is below 0
    and kept elsewhere.  The response is never negative; it is >= 0 wherever
    the unclamped value is a number, and where that is NaN the response is 0
    in the vector loop and NaN in the scalar loop. *)
Theorem C6_harris_response_is_clamped_pointwise
        (lane : nat -> nat -> bool) (A B C : Mat) :
  same_shape A B = true -> same_shape A C = true ->
  F.decode alpha = S754_finite false 16106127 (-28) /\
  exists R,
    harrisMetric lane A B C = Ok R /\ rows R = rows A /\ cols R = cols A /\
    forall r c, r < rows A -> c < cols A ->
      let det_M := F.sub (F.mul (pix A r c) (pix C r c)) (F.mul (pix B r c) (pix B r c)) in
      let trace_M := F.add (pix A r c) (pix C r c) in
      let raw := F.sub det_M (F.mul (F.mul alpha trace_M) trace_M) in
      pix R r c = (if lane r c
                   then (if F.ltb F.zero raw then raw else F.zero)
                   else (if F.ltb raw F.zero then F.zero else raw)) /\
      F.ltb (pix R r c) F.zero = false /\
      (F.is_nan raw = false -> F.leb F.zero (pix R r c) = true) /\
      (F.is_nan raw = true -> pix R r c = if lane r c then F.zero else raw).
Proof.
  intros HAB HAC. split; [reflexivity|].
  destruct (harrisMetric_spec lane A B C HAB HAC) as [R (HR & Hr & Hc & Hpix)].
  exists R. repeat (split; [assumption|]).
  intros r c Hlr Hlc. cbv zeta. rewrite (Hpix r c Hlr Hlc).
  unfold harris_at, harris_raw_at. cbv zeta.
  match goal with |- context [clamp_at _ ?x] => set (raw := x) end.
  split; [reflexivity|].
  split; [rewrite F_ltb_value, fval_zero; apply clamp_at_not_negative|].
  split.
  - intros Hn. apply is_nan_false_value in Hn.
    rewrite F_leb_value, fval_zero. apply not_lt_zero_not_nan.
    + apply clamp_at_not_negative.
    + unfold clamp_at, F.vmax, F.max.
      destruct (lane r c).
      * destruct (F.ltb F.zero raw); [exact Hn | rewrite fval_zero; discriminate].
      * destruct (F.ltb raw F.zero); [rewrite fval_zero; discriminate | exact Hn].
  - intros Hn. apply is_nan_value in Hn.
    unfold clamp_at, F.vmax, F.max. rewrite !F_ltb_value, Hn, ext_ltb_nan_r.
    reflexivity.
Qed.

(** Witness of C6: 1x1 fields A = 2, B = 1, C = 1. *)
Lemma C6_witness :
  F.decode alpha = S754_finite false 16106127 (-28) /\
  exists R,
    harrisMetric scalar_lanes
                 (flat_image 1 1 two) (flat_image 1 1 F.one) (flat_image 1 1 F.one) = Ok R /\
    rows R = 1 /\ cols R = 1 /\
    forall r c, r < 1 -> c < 1 ->
      let det_M := F.sub (F.mul (pix (flat_image 1 1 two) r c) (pix (flat_image 1 1 F.one) r c))
                         (F.mul (pix (flat_image 1 1 F.one) r c) (pix (flat_image 1 1 F.one) r c)) in
      let trace_M := F.add (pix (flat_image 1 1 two) r c) (pix (flat_image 1 1 F.one) r c) in
      let raw := F.sub det_M (F.mul (F.mul alpha trace_M) trace_M) in
      pix R r c = (if scalar_lanes r c
                   then (if F.ltb F.zero raw then raw else F.zero)
                   else (if F.ltb raw F.zero then F.zero else raw)) /\
      F.ltb (pix R r c) F.zero = false /\
      (F.is_nan raw = false -> F.leb F.zero (pix R r c) = true) /\
      (F.is_nan raw = true -> pix R r c = if scalar_lanes r c then F.zero else raw).
Proof.
  apply (C6_harris_response_is_clamped_pointwise scalar_lanes
           (flat_image 1 1 two) (flat_image 1 1 F.one) (flat_image 1 1 F.one));
    reflexivity.
Defined.

(** ** C7: flat images *)




(** ** C8: threshold monotonicity *)




(** ** C9: quality level 1 *)

(** C9 (code defect, the one of C3).  With quality_level = 1 no pixel can
    pass the strict threshold, so [detect] should return an empty sequence
    for every metric; with the min_eigen metric it returns nothing at all:
    the call raises for every image. *)
Theorem C9_min_eigen_quality_one_raises
        (solver : Mat -> Mat) (lane : nat -> nat -> bool)
        (v : bool) (ws : F.f32) (g dg win image : Mat) :
  detect solver lane (mkCornerDetector min_eigen v F.one ws g dg win) image = Raise StsAssert.
Proof. apply detect_min_eigen_raises. Qed.

(** With quality_level = 1 and the harris or the harmonic-mean metric,
    [detect] returns the empty sequence on every image that has pixels, the
    kernels having taps (it raises otherwise): the threshold is the maximum
    itself and no pixel is strictly above it. *)
Theorem quality_one_returns_no_keypoints
        (solver : Mat -> Mat) (lane : nat -> nat -> bool)
        (v : bool) (ws : F.f32) (g dg win image : Mat) :
  detect solver lane (mkCornerDetector harris v F.one ws g dg win) image
  = (if nonempty_input (mkCornerDetector harris v F.one ws g dg win) image
     then Ok [] else Raise StsAssert) /\
  detect solver lane (mkCornerDetector harmonic_mean v F.one ws g dg win) image
  = (if nonempty_input (mkCornerDetector harmonic_mean v F.one ws g dg win) image
     then Ok [] else Raise StsAssert).
Proof.
  split; rewrite detect_spec;
    match goal with |- context [nonempty_input ?d image] =>
      destruct (nonempty_input d image); [|reflexivity] end.
  - pose proof (harris_response_ok solver lane v F.one ws g dg win image) as HR.
    cbv zeta in HR.
    destruct (tensor_fields _ image) as [[A B] C].
    destruct HR as [R (HR & _)]. rewrite HR. cbn [bind].
    rewrite quality_one_no_locations by reflexivity. reflexivity.
  - pose proof (harmonic_response_ok solver lane v F.one ws g dg win image) as HR.
    cbv zeta in HR.
    destruct (tensor_fields _ image) as [[A B] C].
    destruct HR as [R (HR & _)]. rewrite HR. cbn [bind].
    rewrite quality_one_no_locations by reflexivity. reflexivity.
Qed.

(** ** C10: Harris key points *)

(** C10, counterexample.  The constructor accepts quality_level = -1; on
    the corner image the Harris detector then returns key points whose
    response is 0. *)
Lemma C10_negative_quality_level_keeps_zero_responses :
  exists ks k,
    detect identity_solver scalar_lanes (sample_detector harris F.minus_one) corner_image
    = Ok ks /\
    In k ks /\ kp_response k = F.zero /\ F.ltb F.zero (kp_response k) = false.
Proof.
  eexists. eexists. split; [vm_compute; reflexivity|].
  split; [left; reflexivity|]. split; reflexivity.
Qed.

(** C10, amended.  With the harris metric and a quality level that is not
    negative, every key point [detect] returns has a response strictly
    greater than zero; [detect] returns exactly when the image has pixels
    and the kernels have taps. *)
Theorem C10_harris_keypoints_have_positive_response
        (solver : Mat -> Mat) (lane : nat -> nat -> bool)
        (v : bool) (q ws : F.f32) (g dg win image : Mat) :
  F.leb F.zero q = true ->
  is_ok (detect solver lane (mkCornerDetector harris v q ws g dg win) image)
  = nonempty_input (mkCornerDetector harris v q ws g dg win) image /\
  forall ks,
    detect solver lane (mkCornerDetector harris v q ws g dg win) image = Ok ks ->
    forall k, In k ks -> F.ltb F.zero (kp_response k) = true.
Proof.
  intros Hq. rewrite detect_spec.
  pose proof (harris_response_ok solver lane v q ws g dg win image) as HR. cbv zeta in HR.
  set (d := mkCornerDetector harris v q ws g dg win) in *.
  destruct (nonempty_input d image); [|split; [reflexivity | discriminate]].
  destruct (tensor_fields d image) as [[A B] C].
  destruct HR as [R (HR & Hr & Hc & Hpix)]. rewrite HR. cbn [bind].
  split; [reflexivity|].
  intros ks Hks k Hk. inversion Hks; subst ks. clear Hks.
  apply in_map_iff in Hk. destruct Hk as [[x y] [Hk Hin]]. subst k.
  apply max_locations_In in Hin. destruct Hin as (Hx & Hy & Hsel).
  cbn [make_keypoint kp_response at_point pt_x pt_y].
  apply (strong_local_max_positive d R); try assumption.
  intros r c Hr' Hc'. rewrite Hpix by (rewrite <- ?Hr, <- ?Hc; assumption).
  apply harris_at_not_negative.
Qed.

(** Witness of C10: quality level 0.1 on the corner image. *)
Lemma C10_witness :
  is_ok (detect identity_solver scalar_lanes
                (mkCornerDetector harris false tenth F.one g3 dg3 g3) corner_image)
  = nonempty_input (mkCornerDetector harris false tenth F.one g3 dg3 g3) corner_image /\
  forall ks,
    detect identity_solver scalar_lanes
           (mkCornerDetector harris false tenth F.one g3 dg3 g3) corner_image = Ok ks ->
    forall k, In k ks -> F.ltb F.zero (kp_response k) = true.
Proof.
  apply (@C10_harris_keypoints_have_positive_response
           identity_solver scalar_lanes false tenth F.one g3 dg3 g3 corner_image).
  vm_compute. reflexivity.
Defined.
(** ** Threshold monotonicity of the Harris detector, for all quality levels *)

(** With the harris metric, on an image that has pixels and kernels that
    have taps, [detect] returns, and the key points found at a quality level
    are found at every smaller level, with no bound on the two levels: the
    clamped response is nowhere negative. *)
Theorem harris_quality_level_monotone
        (solver : Mat -> Mat) (lane : nat -> nat -> bool)
        (v : bool) (q1 q2 ws : F.f32) (g dg win image : Mat) :
  nonempty_input (mkCornerDetector harris v q1 ws g dg win) image = true ->
  F.leb q2 q1 = true ->
  exists ks1 ks2,
    detect solver lane (mkCornerDetector harris v q1 ws g dg win) image = Ok ks1 /\
    detect solver lane (mkCornerDetector harris v q2 ws g dg win) image = Ok ks2 /\
    incl ks1 ks2 /\ length ks1 <= length ks2.
Proof.
  intros Hne H21. rewrite !detect_spec.
  pose proof (harris_response_ok solver lane v q1 ws g dg win image) as HR. cbv zeta in HR.
  set (d1 := mkCornerDetector harris v q1 ws g dg win) in *.
  set (d2 := mkCornerDetector harris v q2 ws g dg win).
  change (nonempty_input d2 image) with (nonempty_input d1 image). rewrite Hne.
  change (tensor_fields d2 image) with (tensor_fields d1 image).
  destruct (tensor_fields d1 image) as [[A B] C].
  change (corner_response solver lane d2 A B C) with (corner_response solver lane d1 A B C).
  destruct HR as [R (HR & Hr & Hc & Hpix)]. rewrite HR. cbn [bind].
  change (make_keypoint d2 R) with (make_keypoint d1 R).
  do 2 eexists. split; [reflexivity|]. split; [reflexivity|].
  apply keypoints_weaken. intros r c Hr' Hc'.
  apply (strong_local_max_mono_nonneg d1 d2); try assumption.
  intros i j Hi Hj. rewrite Hpix by (rewrite <- ?Hr, <- ?Hc; assumption).
  apply harris_at_not_negative.
Qed.

(** Witness: quality levels 2 >= -1 on the corner image. *)
Lemma harris_quality_level_monotone_witness :
  exists ks1 ks2,
    detect identity_solver scalar_lanes
           (mkCornerDetector harris false two F.one g3 dg3 g3) corner_image = Ok ks1 /\
    detect identity_solver scalar_lanes
           (mkCornerDetector harris false F.minus_one F.one g3 dg3 g3) corner_image = Ok ks2 /\
    incl ks1 ks2 /\ length ks1 <= length ks2.
Proof.
  apply (@harris_quality_level_monotone
           identity_solver scalar_lanes false two F.minus_one F.one g3 dg3 g3 corner_image).
  - reflexivity.
  - vm_compute. reflexivity.
Defined.

(* ================================================================== *)
(** ** Further properties of the metrics *)

Lemma SFmul_comm (prec emax : Z) (x y : spec_float) :
  SFmul prec emax x y = SFmul prec emax y x.
Proof.
  destruct x as [sx|sx| |sx mx ex], y as [sy|sy| |sy my ey]; unfold SFmul;
    rewrite ?(xorb_comm sy sx); try reflexivity.
  rewrite (Pos.mul_comm my mx), (Z.add_comm ey ex). reflexivity.
Qed.

Lemma SFadd_comm (prec emax : Z) (x y : spec_float) :
  SFadd prec emax x y = SFadd prec emax y x.
Proof.
  destruct x as [sx|sx| |sx mx ex], y as [sy|sy| |sy my ey]; unfold SFadd;
    try reflexivity; try (destruct sx, sy; reflexivity).
  cbv zeta. rewrite (Z.min_comm ey ex). f_equal. apply Z.add_comm.
Qed.

Lemma F_mul_comm (a b : F.f32) : F.mul a b = F.mul b a.
Proof. unfold F.mul. rewrite SFmul_comm. reflexivity. Qed.

Lemma F_add_comm (a b : F.f32) : F.add a b = F.add b a.
Proof. unfold F.add. rewrite SFadd_comm. reflexivity. Qed.

Lemma same_shape_sym (A B : Mat) : same_shape A B = same_shape B A.
Proof.
  destruct (same_shape A B) eqn:E; symmetry.
  - apply same_shape_spec in E. apply same_shape_spec. intuition congruence.
  - destruct (same_shape B A) eqn:E'; [|reflexivity].
    apply same_shape_spec in E'.
    assert (same_shape A B = true) by (apply same_shape_spec; intuition congruence).
    congruence.
Qed.

#[local] Transparent build.

Lemma build_ext (d : Depth) (ch r c : nat) (f g : nat -> nat -> Z) :
  (forall i j, i < r -> j < c -> f i j = g i j) ->
  build d ch r c f = build d ch r c g.
Proof.
  intros H. unfold build. f_equal. apply map_ext_in.
  intros [i j] Hin. apply coords_In in Hin. apply H; tauto.
Qed.

#[global] Opaque build.

Lemma depth_eqb_eq (d1 d2 : Depth) : depth_eqb d1 d2 = true -> d1 = d2.
Proof. destruct d1, d2; intros H; try reflexivity; discriminate. Qed.

Lemma scalar_for_spec (S A : Mat) :
  scalar_for S A = true ->
  rows S = 1 /\ cols S = 1 /\ channels S = 1 /\ channels A = 1 /\ depth S = depth A.
Proof.
  unfold scalar_for. rewrite !andb_true_iff, !Nat.eqb_eq.
  intros ((((H1 & H2) & H3) & H4) & H5). apply depth_eqb_eq in H5. tauto.
Qed.

Lemma binop_comm (op : Z -> Z -> Z) (A B : Mat) :
  (forall a b, op a b = op b a) ->
  binop (depth A) op A B = binop (depth B) op B A.
Proof.
  intros Hop. unfold binop. rewrite (same_shape_sym B A).
  destruct (same_shape A B) eqn:E.
  - apply same_shape_spec in E. destruct E as (Hr & Hc & Hd & Hch).
    rewrite Hr, Hc, Hd, Hch. f_equal.
    apply build_ext. intros i j _ _. apply Hop.
  - destruct (scalar_for B A) eqn:EB, (scalar_for A B) eqn:EA.
    + apply scalar_for_spec in EA, EB.
      assert (same_shape A B = true) by (apply same_shape_spec; intuition congruence).
      congruence.
    + apply scalar_for_spec in EB. destruct EB as (_ & _ & _ & _ & Hd). rewrite Hd.
      f_equal. apply build_ext. intros i j _ _. apply Hop.
    + apply scalar_for_spec in EA. destruct EA as (_ & _ & _ & _ & Hd). rewrite Hd.
      f_equal. apply build_ext. intros i j _ _. apply Hop.
    + reflexivity.
Qed.

Lemma mat_mul_comm (A B : Mat) : mat_mul A B = mat_mul B A.
Proof. apply binop_comm, F_mul_comm. Qed.

Lemma mat_add_comm (A B : Mat) : mat_add A B = mat_add B A.
Proof. apply binop_comm, F_add_comm. Qed.

(** The two metrics that return do not tell A from C: exchanging the two
    diagonal entries of the structure tensor (the roles of the two gradient
    images) leaves the response field, or the error, unchanged. *)
Theorem metrics_are_symmetric_in_A_and_C (lane : nat -> nat -> bool) (A B C : Mat) :
  harrisMetric lane A B C = harrisMetric lane C B A /\
  harmonicMeanMetric A B C = harmonicMeanMetric C B A.
Proof.
  unfold harrisMetric, harmonicMeanMetric.
  rewrite (mat_mul_comm A C), (mat_add_comm A C). split; reflexivity.
Qed.

Lemma decode_encode_zero (s : bool) : F.decode (F.encode (S754_zero s)) = S754_zero s.
Proof. destruct s; reflexivity. Qed.

Lemma harmonic_at_comm (a c : F.f32) : harmonic_at a c = harmonic_at c a.
Proof. unfold harmonic_at. rewrite (F_mul_comm a c), (F_add_comm a c). reflexivity. Qed.

Lemma harmonic_at_zero_l (a c : F.f32) :
  F.is_zero a = true -> F.is_finite c = true -> F.is_zero c = false ->
  F.is_zero (harmonic_at a c) = true.
Proof.
  unfold F.is_zero, F.is_finite, harmonic_at, F.div, F.mul, F.add.
  pose proof (decode_valid c) as Hv.
  destruct (F.decode a) as [sa| | |]; try discriminate.
  destruct (F.decode c) as [|sc | |sc mc ec] eqn:Ec; try discriminate.
  intros _ _ _. cbn [SFmul SFadd].
  rewrite decode_encode_zero, (decode_encode _ Hv). cbn [SFdiv].
  rewrite decode_encode_zero. reflexivity.
Qed.

(** Where one of A and C is zero and the other a finite number that is not
    zero (a pixel whose gradient has one direction only), the harmonic-mean
    response is zero: 0 / x. *)
Theorem harmonic_mean_vanishes_where_one_entry_is_zero (A B C : Mat) :
  same_shape A C = true ->
  exists R,
    harmonicMeanMetric A B C = Ok R /\
    forall r c, r < rows A -> c < cols A ->
      let a := pix A r c in
      let c' := pix C r c in
      (F.is_zero a = true /\ F.is_finite c' = true /\ F.is_zero c' = false) \/
      (F.is_zero c' = true /\ F.is_finite a = true /\ F.is_zero a = false) ->
      F.is_zero (pix R r c) = true.
Proof.
  intros HAC.
  destruct (harmonicMeanMetric_spec A B C HAC) as [R (HR & _ & _ & Hpix)].
  exists R. split; [exact HR|].
  intros r c Hr Hc a c' H. rewrite (Hpix r c Hr Hc). fold a c'.
  destruct H as [(Ha & Hf & Hn)|(Hc' & Hf & Hn)].
  - apply harmonic_at_zero_l; assumption.
  - rewrite harmonic_at_comm. apply harmonic_at_zero_l; assumption.
Qed.

(** Witness: A = 0 and C = 2 on a 1x2 field. *)
Lemma harmonic_mean_vanishes_witness :
  exists R,
    harmonicMeanMetric (flat_image 1 2 F.zero) (flat_image 1 2 F.zero) (flat_image 1 2 two)
    = Ok R /\
    forall r c, r < 1 -> c < 2 ->
      let a := pix (flat_image 1 2 F.zero) r c in
      let c' := pix (flat_image 1 2 two) r c in
      (F.is_zero a = true /\ F.is_finite c' = true /\ F.is_zero c' = false) \/
      (F.is_zero c' = true /\ F.is_finite a = true /\ F.is_zero a = false) ->
      F.is_zero (pix R r c) = true.
Proof.
  apply (harmonic_mean_vanishes_where_one_entry_is_zero
           (flat_image 1 2 F.zero) (flat_image 1 2 F.zero) (flat_image 1 2 two)).
  vm_compute. reflexivity.
Defined.

(* ================================================================== *)
(** ** Further properties of the selection stage *)

Local Open Scope Z_scope.

Lemma unit_product_above (vq vM : ext) :
  ext_leb (EFin 0) vq = true ->
  ext_leb vq (EFin (2 ^ scale)) = true ->
  ext_ltb vM (EFin 0) = true ->
  ext_mul vq vM <> ENaN ->
  ext_leb vM (ext_mul vq vM) = true.
Proof. intros. ext_mul_cases. Qed.

Lemma above_unit_threshold_positive (vq vM vp : ext) :
  ext_leb (EFin 0) vq = true ->
  ext_leb vq (EFin (2 ^ scale)) = true ->
  vM <> ENaN ->
  ext_round32 vM = vM ->
  ext_ltb vM vp = false ->
  ext_ltb (ext_round32 (ext_mul vq vM)) vp = true ->
  ext_ltb (EFin 0) vp = true.
Proof.
  intros H0 H1 Hn HM Hmax Hlt.
  assert (Ht : ext_mul vq vM <> ENaN).
  { intros E. rewrite E, ext_round32_nan, ext_ltb_nan_l in Hlt. discriminate. }
  destruct (ext_ltb vM (EFin 0)) eqn:Hs.
  - pose proof (@unit_product_above vq vM H0 H1 Hs Ht) as Hle.
    apply ext_round32_mono in Hle. rewrite HM in Hle.
    rewrite (ext_leb_ltb_trans _ _ _ Hle Hlt) in Hmax. discriminate.
  - pose proof (@nonneg_product vq vM H0 Hs Ht) as Hle.
    apply ext_round32_mono in Hle. rewrite ext_round32_zero in Hle.
    exact (ext_leb_ltb_trans _ _ _ Hle Hlt).
Qed.

Local Close Scope Z_scope.

(** For a quality level in [0, 1] every key point has a response that is
    a finite number strictly greater than zero, whatever the response
    field: a threshold [q * max] with 0 <= q <= 1 lets no pixel through
    unless the maximum is positive, and is then not negative itself. *)
Theorem unit_quality_level_gives_positive_responses (d : CornerDetector) (response : Mat) :
  F.leb F.zero (quality_level_ d) = true ->
  F.leb (quality_level_ d) F.one = true ->
  exists ks,
    extract_keypoints d response = Ok ks /\
    forall k, In k ks ->
      F.ltb F.zero (kp_response k) = true /\ F.is_finite (kp_response k) = true.
Proof.
  intros H0 H1. eexists. split; [apply extract_keypoints_spec|].
  intros k Hk. split; [|eapply keypoint_response_finite; eassumption].
  apply in_map_iff in Hk. destruct Hk as [[x y] [Hk Hin]]. subst k.
  apply max_locations_In in Hin. destruct Hin as (Hx & Hy & Hsel).
  cbn [make_keypoint kp_response at_point pt_x pt_y].
  rewrite is_strong_local_max_at_value in Hsel.
  apply andb_true_iff in Hsel. destruct Hsel as [Hthr _].
  destruct (max_word_spec response) as (_ & Hmax & Hnan).
  rewrite F_leb_value in H0, H1. rewrite fval_zero in H0. rewrite fval_one in H1.
  rewrite F_ltb_value, fval_zero.
  eapply above_unit_threshold_positive; eauto using ext_round32_fval.
Qed.

(** Witness: the corner image read as a response field, quality level 0.5. *)
Lemma unit_quality_level_witness :
  exists ks,
    extract_keypoints (sample_detector harmonic_mean half) corner_image = Ok ks /\
    forall k, In k ks ->
      F.ltb F.zero (kp_response k) = true /\ F.is_finite (kp_response k) = true.
Proof.
  apply (@unit_quality_level_gives_positive_responses
           (sample_detector harmonic_mean half) corner_image);
    vm_compute; reflexivity.
Defined.

(** A quality level that is NaN (the constructor accepts it) makes the
    threshold NaN, and no pixel compares greater than NaN: the selection
    returns no key point, for every response field. *)
Theorem nan_quality_level_selects_nothing (d : CornerDetector) (response : Mat) :
  F.is_nan (quality_level_ d) = true ->
  extract_keypoints d response = Ok [].
Proof.
  intros Hq. rewrite extract_keypoints_spec.
  rewrite max_locations_nil; [reflexivity|].
  intros r c Hr Hc. rewrite is_strong_local_max_at_value.
  apply is_nan_value in Hq. rewrite Hq. reflexivity.
Qed.

(** Witness: the corner image read as a response field. *)
Lemma nan_quality_level_witness :
  extract_keypoints (sample_detector harris F.nan) corner_image = Ok [].
Proof.
  apply (@nan_quality_level_selects_nothing (sample_detector harris F.nan) corner_image).
  vm_compute. reflexivity.
Defined.

Local Open Scope Z_scope.

Lemma fval_unit_multiple (a : F.f32) (u : Z) :
  fval a = EFin u -> exists k, u = k * 2 ^ (scale - 149).
Proof.
  unfold fval. destruct (F.decode a) as [s|s| |s m e] eqn:E; cbn [value].
  - intros H. inversion H. exists 0. reflexivity.
  - destruct s; discriminate.
  - discriminate.
  - intros H.
    assert (Hu : u = cond_Zopp s (Zpos m * 2 ^ (e + scale))) by congruence.
    clear H. subst u.
    destruct (decode_finite_range a E) as (_ & He & _).
    exists (cond_Zopp s (Zpos m * 2 ^ (e + 149))).
    replace (e + scale) with ((e + 149) + (scale - 149)) by lia.
    rewrite Z.pow_add_r by (unfold scale; lia).
    generalize (2 ^ (e + 149)) (2 ^ (scale - 149)). intros X Y.
    destruct s; cbn [cond_Zopp]; ring.
Qed.

Lemma product_of_values_exact (u v : Z) (a b : F.f32) :
  fval a = EFin u -> fval b = EFin v -> (u * v / 2 ^ scale) * 2 ^ scale = u * v.
Proof.
  intros Ha Hb.
  destruct (fval_unit_multiple a Ha) as [k ->].
  destruct (fval_unit_multiple b Hb) as [l ->].
  assert (E : 2 ^ (scale - 149) * 2 ^ (scale - 149) = 2 ^ (scale - 298) * 2 ^ scale).
  { rewrite <- !Z.pow_add_r by (unfold scale; lia). f_equal; lia. }
  replace (k * 2 ^ (scale - 149) * (l * 2 ^ (scale - 149)))
    with (k * l * 2 ^ (scale - 298) * 2 ^ scale)
    by (rewrite <- !Z.mul_assoc, <- E; ring).
  rewrite Z.div_mul by (pose proof pow_scale_gt0; lia). reflexivity.
Qed.

(** [threshold = quality_level_ * max_val] is computed without rounding:
    both factors are floats widened to double, and the double holds the
    product of two floats exactly.  With the quality level worth u and the
    maximum worth v (in units of 2^-scale), the threshold is worth u * v
    exactly; the comparison of line 62 then rounds it to [float]. *)
Theorem threshold_is_the_exact_product (d : CornerDetector) (response : Mat) (u v : Z) :
  fval (quality_level_ d) = EFin u ->
  value (minMaxLoc_max response) = EFin v ->
  exists t,
    value (threshold_of d response) = EFin t /\
    t * 2 ^ scale = u * v /\
    forall p, F.ltb (D.to_f32 (threshold_of d response)) p
              = ext_ltb (ext_round32 (EFin t)) (fval p).
Proof.
  intros Hq Hm. rewrite minMaxLoc_max_word, of_f32_value in Hm.
  exists (u * v / 2 ^ scale). split; [|split].
  - unfold threshold_of. rewrite minMaxLoc_max_word.
    destruct (D_mul_of_f32 (quality_level_ d) (max_word response)) as [_ Hv].
    rewrite Hv, Hq, Hm. reflexivity.
  - eapply product_of_values_exact; eassumption.
  - intros p. rewrite F_ltb_value, threshold_value, Hq, Hm. reflexivity.
Qed.

(** Witness: quality level 0.1f = 13421773 * 2^-27 and maximum 1. *)
Lemma threshold_is_exact_witness :
  exists t,
    value (threshold_of (sample_detector harris tenth) corner_image) = EFin t /\
    t * 2 ^ scale = (13421773 * 2 ^ 1173) * 2 ^ 1200 /\
    forall p, F.ltb (D.to_f32 (threshold_of (sample_detector harris tenth) corner_image)) p
              = ext_ltb (ext_round32 (EFin t)) (fval p).
Proof.
  apply (@threshold_is_the_exact_product (sample_detector harris tenth) corner_image
           (13421773 * 2 ^ 1173) (2 ^ 1200)).
  - vm_compute. reflexivity.
  - vm_compute. reflexivity.
Defined.

Local Close Scope Z_scope.

(* ================================================================== *)
(** ** The order and the place of the key points *)

Lemma StronglySorted_app {A : Type} (R : A -> A -> Prop) (l1 l2 : list A) :
  StronglySorted R l1 -> StronglySorted R l2 ->
  (forall a b, In a l1 -> In b l2 -> R a b) ->
  StronglySorted R (l1 ++ l2).
Proof.
  intros H1 H2 H. induction H1 as [|a l Hl IH Ha]; cbn [app]; [exact H2|].
  constructor.
  - apply IH. intros x y Hx Hy. apply H; [right; exact Hx | exact Hy].
  - apply Forall_app. split; [exact Ha|].
    apply Forall_forall. intros y Hy. apply H; [left; reflexivity | exact Hy].
Qed.

Lemma StronglySorted_filter {A : Type} (R : A -> A -> Prop) (f : A -> bool) (l : list A) :
  StronglySorted R l -> StronglySorted R (filter f l).
Proof.
  intros H. induction H as [|a l Hl IH Ha]; cbn [filter]; [constructor|].
  destruct (f a); [|exact IH].
  constructor; [exact IH|].
  apply Forall_forall. intros y Hy. apply filter_In in Hy.
  rewrite Forall_forall in Ha. apply Ha, Hy.
Qed.

Lemma StronglySorted_map {A B : Type} (R : A -> A -> Prop) (S : B -> B -> Prop)
      (f : A -> B) (l : list A) :
  (forall a b, R a b -> S (f a) (f b)) ->
  StronglySorted R l -> StronglySorted S (map f l).
Proof.
  intros HRS H. induction H as [|a l Hl IH Ha]; cbn [map]; constructor; [exact IH|].
  apply Forall_forall. intros y Hy. apply in_map_iff in Hy.
  destruct Hy as [x [<- Hx]]. rewrite Forall_forall in Ha. apply HRS, Ha, Hx.
Qed.

Lemma row_sorted (i s n : nat) :
  StronglySorted lex_lt (map (fun j => (i, j)) (seq s n)).
Proof.
  revert s. induction n as [|n IH]; intros s; cbn [seq map]; constructor; [apply IH|].
  apply Forall_forall. intros [a b] H. apply in_map_iff in H.
  destruct H as [j [E Hj]]. inversion E; subst. apply in_seq in Hj.
  right. cbn [fst snd]. lia.
Qed.

Lemma rows_sorted (c s n : nat) :
  StronglySorted lex_lt (flat_map (fun i => map (fun j => (i, j)) (seq 0 c)) (seq s n)).
Proof.
  revert s. induction n as [|n IH]; intros s; cbn [seq flat_map]; [constructor|].
  apply StronglySorted_app; [apply row_sorted | apply IH |].
  intros [a b] [a' b'] Ha Hb.
  apply in_map_iff in Ha. destruct Ha as [j [E _]]. inversion E; subst.
  apply in_flat_map in Hb. destruct Hb as [i [Hi Hb]].
  apply in_map_iff in Hb. destruct Hb as [j' [E' _]]. inversion E'; subst.
  apply in_seq in Hi. left. cbn [fst]. lia.
Qed.

Lemma coords_sorted (r c : nat) : StronglySorted lex_lt (coords r c).
Proof. apply rows_sorted. Qed.

Lemma max_locations_sorted (d : CornerDetector) (R : Mat) :
  StronglySorted scan_before (max_locations d R).
Proof.
  unfold max_locations.
  apply (@StronglySorted_map _ _ lex_lt); [|apply StronglySorted_filter, coords_sorted].
  intros [a b] [a' b'] H. exact H.
Qed.

Lemma max_locations_length (d : CornerDetector) (R : Mat) :
  length (max_locations d R) <= rows R * cols R.
Proof.
  unfold max_locations. rewrite length_map, <- (coords_length (rows R) (cols R)).
  apply filter_length_le.
Qed.

Lemma response_ok (solver : Mat -> Mat) (lane : nat -> nat -> bool)
      (d : CornerDetector) (image : Mat) :
  metric_type_ d <> min_eigen ->
  let '(A, B, C) := tensor_fields d image in
  exists R, corner_response solver lane d A B C = Ok R /\
            rows R = rows image /\ cols R = cols image.
Proof.
  destruct d as [m v q ws g dg win]. cbn [metric_type_]. intros Hm.
  destruct m; [| |congruence].
  - pose proof (harris_response_ok solver lane v q ws g dg win image) as H. cbv zeta in H.
    destruct (tensor_fields _ image) as [[A B] C].
    destruct H as [R (HR & Hr & Hc & _)]. exists R. auto.
  - pose proof (harmonic_response_ok solver lane v q ws g dg win image) as H. cbv zeta in H.
    destruct (tensor_fields _ image) as [[A B] C].
    destruct H as [R (HR & Hr & Hc & _)]. exists R. auto.
Qed.

(** With the harris or the harmonic-mean metric, on an image and kernels
    that have elements, [detect] returns, and its key points come one per
    location in the order of a row-by-row scan of the image: every location
    lies inside the image, each comes strictly after the one before (so no
    pixel is reported twice), and there are at most rows * cols of them. *)
Theorem key_points_follow_the_scan (solver : Mat -> Mat) (lane : nat -> nat -> bool)
        (d : CornerDetector) (image : Mat) :
  metric_type_ d <> min_eigen ->
  nonempty_input d image = true ->
  exists (R : Mat) (locations : list Point),
    detect solver lane d image = Ok (map (make_keypoint d R) locations) /\
    (forall p, In p locations -> pt_x p < cols image /\ pt_y p < rows image) /\
    StronglySorted scan_before locations /\
    length locations <= rows image * cols image.
Proof.
  intros Hm Hne. rewrite detect_spec, Hne.
  pose proof (response_ok solver lane d image Hm) as H.
  destruct (tensor_fields d image) as [[A B] C].
  destruct H as [R (HR & Hr & Hc)]. rewrite HR. cbn [bind].
  exists R, (max_locations d R). split; [reflexivity|]. split; [|split].
  - intros [x y] Hp. apply max_locations_In in Hp. cbn [pt_x pt_y]. rewrite <- Hr, <- Hc. tauto.
  - apply max_locations_sorted.
  - rewrite <- Hr, <- Hc. apply max_locations_length.
Qed.

(** Witness: the Harris detector on the corner image. *)
Lemma key_points_follow_the_scan_witness :
  exists (R : Mat) (locations : list Point),
    detect identity_solver scalar_lanes (sample_detector harris tenth) corner_image
    = Ok (map (make_keypoint (sample_detector harris tenth) R) locations) /\
    (forall p, In p locations -> pt_x p < cols corner_image /\ pt_y p < rows corner_image) /\
    StronglySorted scan_before locations /\
    length locations <= rows corner_image * cols corner_image.
Proof.
  apply (@key_points_follow_the_scan identity_solver scalar_lanes
           (sample_detector harris tenth) corner_image).
  - cbn. discriminate.
  - vm_compute. reflexivity.
Defined.

(* ================================================================== *)
(** ** Inverting the image *)

Section Negation.

Variables prec emax : Z.

Lemma binary_round_aux_opp (s : bool) (m e : Z) (l : location) :
  binary_round_aux prec emax (negb s) m e l = SFopp (binary_round_aux prec emax s m e l).
Proof.
  unfold binary_round_aux.
  destruct (shr_fexp prec emax m e l) as [mrs e'].
  destruct (shr_fexp prec emax _ e' loc_Exact) as [mrs' e''].
  destruct (shr_m mrs'); [reflexivity | | reflexivity].
  destruct (e'' <=? emax - prec)%Z; reflexivity.
Qed.

Lemma binary_round_opp (s : bool) (m : positive) (e : Z) :
  binary_round prec emax (negb s) m e = SFopp (binary_round prec emax s m e).
Proof.
  unfold binary_round. destruct (shl_align m e _) as [mz ez]. apply binary_round_aux_opp.
Qed.

Lemma binary_normalize_opp (z e : Z) :
  opposite (binary_normalize prec emax z e false) (binary_normalize prec emax (- z) e false).
Proof.
  destruct z as [|p|p]; cbn [binary_normalize Z.opp]; [exact I| |].
  - change true with (negb false). rewrite binary_round_opp.
    destruct (binary_round prec emax false p e); cbn [opposite SFopp]; auto.
  - change true with (negb false). rewrite binary_round_opp.
    destruct (binary_round prec emax false p e) as [[]|[]| |[] ? ?];
      cbn [opposite SFopp negb]; auto.
Qed.

Lemma opposite_opp (x : spec_float) : opposite x (SFopp x).
Proof. destruct x; cbn [opposite SFopp]; auto. Qed.

Lemma alike_refl (x : spec_float) : alike x x.
Proof. destruct x; cbn [alike]; auto. Qed.

Lemma cond_Zopp_negb (s : bool) (z : Z) : cond_Zopp (negb s) z = (- cond_Zopp s z)%Z.
Proof. destruct s; cbn [cond_Zopp negb]; lia. Qed.

Ltac sign_cases :=
  repeat match goal with
         | s : bool |- _ => destruct s
         end;
  cbn; auto.

Lemma SFmul_opposite (k x x' : spec_float) :
  opposite x x' -> opposite (SFmul prec emax k x) (SFmul prec emax k x').
Proof.
  intros H.
  destruct x as [sx|sx| |sx mx ex], x' as [sx'|sx'| |sx' mx' ex'];
    cbn [opposite SFopp] in H; try discriminate H; try (inversion H; subst; clear H);
    destruct k as [sk|sk| |sk mk ek]; try (sign_cases; fail).
  cbn [SFmul]. rewrite <- negb_xorb_r, binary_round_aux_opp. apply opposite_opp.
Qed.

Lemma SFmul_alike (k x x' : spec_float) :
  alike x x' -> alike (SFmul prec emax k x) (SFmul prec emax k x').
Proof.
  intros H.
  destruct x as [sx|sx| |sx mx ex], x' as [sx'|sx'| |sx' mx' ex'];
    cbn [alike] in H; try discriminate H; try (inversion H; subst; clear H);
    try apply alike_refl.
  destruct k; cbn [SFmul alike]; auto.
Qed.

Lemma SFadd_opposite (a a' t t' : spec_float) :
  opposite a a' -> opposite t t' ->
  opposite (SFadd prec emax a t) (SFadd prec emax a' t').
Proof.
  intros Ha Ht.
  destruct a as [sa|sa| |sa ma ea], a' as [sa'|sa'| |sa' ma' ea'];
    cbn [opposite SFopp] in Ha; try discriminate Ha; try (inversion Ha; subst; clear Ha);
    destruct t as [st|st| |st mt et], t' as [st'|st'| |st' mt' et'];
    cbn [opposite SFopp] in Ht; try discriminate Ht; try (inversion Ht; subst; clear Ht);
    try (sign_cases; fail).
  cbn [SFadd]. cbv zeta. rewrite !cond_Zopp_negb, <- Z.opp_add_distr.
  apply binary_normalize_opp.
Qed.

Lemma SFadd_alike (a a' t t' : spec_float) :
  alike a a' -> alike t t' ->
  alike (SFadd prec emax a t) (SFadd prec emax a' t').
Proof.
  intros Ha Ht.
  destruct a as [sa|sa| |sa ma ea], a' as [sa'|sa'| |sa' ma' ea'];
    cbn [alike] in Ha; try discriminate Ha; try (inversion Ha; subst; clear Ha);
    destruct t as [st|st| |st mt et], t' as [st'|st'| |st' mt' et'];
    cbn [alike] in Ht; try discriminate Ht; try (inversion Ht; subst; clear Ht);
    try apply alike_refl; try (sign_cases; fail).
Qed.

Lemma SFmul_square_opposite (x x' : spec_float) :
  opposite x x' -> SFmul prec emax x' x' = SFmul prec emax x x.
Proof.
  intros H.
  destruct x as [sx|sx| |sx mx ex], x' as [sx'|sx'| |sx' mx' ex'];
    cbn [opposite SFopp] in H; try discriminate H; try (inversion H; subst; clear H);
    cbn [SFmul]; rewrite ?xorb_nilpotent; reflexivity.
Qed.

Lemma SFmul_square_alike (x x' : spec_float) :
  alike x x' -> SFmul prec emax x' x' = SFmul prec emax x x.
Proof.
  intros H.
  destruct x as [sx|sx| |sx mx ex], x' as [sx'|sx'| |sx' mx' ex'];
    cbn [alike] in H; try discriminate H; try (inversion H; subst; clear H);
    cbn [SFmul]; rewrite ?xorb_nilpotent; reflexivity.
Qed.

Lemma SFmul_opposite_both (x x' y y' : spec_float) :
  opposite x x' -> opposite y y' ->
  alike (SFmul prec emax x y) (SFmul prec emax x' y').
Proof.
  intros Hx Hy.
  destruct x as [sx|sx| |sx mx ex], x' as [sx'|sx'| |sx' mx' ex'];
    cbn [opposite SFopp] in Hx; try discriminate Hx; try (inversion Hx; subst; clear Hx);
    destruct y as [sy|sy| |sy my ey], y' as [sy'|sy'| |sy' my' ey'];
    cbn [opposite SFopp] in Hy; try discriminate Hy; try (inversion Hy; subst; clear Hy);
    try (sign_cases; fail).
  cbn [SFmul].
  replace (xorb (negb sx) (negb sy)) with (xorb sx sy) by (destruct sx, sy; reflexivity).
  apply alike_refl.
Qed.

End Negation.

Lemma decode_join_negb (s : bool) (E f : Z) :
  F.decode (F.join (negb s) E f) = SFopp (F.decode (F.join s E f)).
Proof.
  unfold F.decode. rewrite !join_sign_bit, !join_biased_exp, !join_fraction.
  destruct (Z.land E 255 =? 0)%Z.
  - destruct (Z.land f (Z.ones 23)); reflexivity.
  - destruct (Z.land E 255 =? 255)%Z.
    + destruct (Z.land f (Z.ones 23) =? 0)%Z; reflexivity.
    + destruct (Z.land f (Z.ones 23) + 2 ^ 23)%Z; reflexivity.
Qed.

Lemma decode_encode_opp (X : spec_float) :
  F.decode (F.encode (SFopp X)) = SFopp (F.decode (F.encode X)).
Proof.
  destruct X as [s|s| |s m e]; cbn [SFopp]; unfold F.encode.
  - apply decode_join_negb.
  - apply decode_join_negb.
  - reflexivity.
  - destruct (2 ^ 23 <=? Z.pos m)%Z; apply decode_join_negb.
Qed.

Lemma encode_opposite (X X' : spec_float) :
  opposite X X' -> opposite (F.decode (F.encode X)) (F.decode (F.encode X')).
Proof.
  intros H.
  assert (C : (exists s s', X = S754_zero s /\ X' = S754_zero s') \/ X' = SFopp X).
  { destruct X, X'; cbn [opposite] in H; eauto. }
  destruct C as [(s & s' & -> & ->)| ->].
  - rewrite !decode_encode_zero. exact I.
  - rewrite decode_encode_opp. apply opposite_opp.
Qed.

Lemma encode_alike (X X' : spec_float) :
  alike X X' -> alike (F.decode (F.encode X)) (F.decode (F.encode X')).
Proof.
  intros H.
  assert (C : (exists s s', X = S754_zero s /\ X' = S754_zero s') \/ X' = X).
  { destruct X, X'; cbn [alike] in H; eauto. }
  destruct C as [(s & s' & -> & ->)| ->].
  - rewrite !decode_encode_zero. exact I.
  - apply alike_refl.
Qed.

Lemma float_neg_opposite (a : F.f32) : opposite (F.decode a) (F.decode (float_neg a)).
Proof.
  unfold float_neg. rewrite decode_encode_opp, (decode_encode _ (decode_valid a)).
  apply opposite_opp.
Qed.

(** The accumulation of [correlate], for two sources related pixel by pixel. *)
Lemma filter_fold_related (rel : spec_float -> spec_float -> Prop) (f f' : nat * nat -> Z)
      (k : nat * nat -> Z) (l : list (nat * nat)) (acc acc' : F.f32) :
  (forall t x x', rel x x' ->
     rel (SFmul F.prec F.emax t x) (SFmul F.prec F.emax t x')) ->
  (forall a a' t t', rel a a' -> rel t t' ->
     rel (SFadd F.prec F.emax a t) (SFadd F.prec F.emax a' t')) ->
  (forall X X', rel X X' -> rel (F.decode (F.encode X)) (F.decode (F.encode X'))) ->
  (forall p, In p l -> rel (F.decode (f p)) (F.decode (f' p))) ->
  rel (F.decode acc) (F.decode acc') ->
  rel (F.decode (fold_left (fun a p => F.add a (F.mul (k p) (f p))) l acc))
      (F.decode (fold_left (fun a p => F.add a (F.mul (k p) (f' p))) l acc')).
Proof.
  intros Hmul Hadd Henc. revert acc acc'.
  induction l as [|p l IH]; intros acc acc' Hf Hacc; cbn [fold_left]; [exact Hacc|].
  apply IH; [intros q Hq; apply Hf; right; exact Hq|].
  unfold F.add, F.mul. apply Henc, Hadd; [exact Hacc|].
  apply Henc, Hmul, Hf. left. reflexivity.
Qed.

Lemma correlate_related (rel : spec_float -> spec_float -> Prop) (src src' kernel : Mat) :
  (forall t x x', rel x x' ->
     rel (SFmul F.prec F.emax t x) (SFmul F.prec F.emax t x')) ->
  (forall a a' t t', rel a a' -> rel t t' ->
     rel (SFadd F.prec F.emax a t) (SFadd F.prec F.emax a' t')) ->
  (forall X X', rel X X' -> rel (F.decode (F.encode X)) (F.decode (F.encode X'))) ->
  rel (S754_zero false) (S754_zero false) ->
  rows src' = rows src -> cols src' = cols src ->
  (forall r c, r < rows src -> c < cols src ->
     rel (F.decode (pix src r c)) (F.decode (pix src' r c))) ->
  forall y x, y < rows src -> x < cols src ->
    rel (F.decode (pix (correlate src kernel) y x))
        (F.decode (pix (correlate src' kernel) y x)).
Proof.
  intros Hmul Hadd Henc H0 Hr Hc Hpix y x Hy Hx.
  rewrite !pix_correlate by (rewrite ?Hr, ?Hc; assumption).
  apply (@filter_fold_related rel
           (fun k => pix_reflect src (Z.of_nat y + Z.of_nat (fst k) - Z.of_nat (rows kernel / 2))
                                     (Z.of_nat x + Z.of_nat (snd k) - Z.of_nat (cols kernel / 2)))
           (fun k => pix_reflect src' (Z.of_nat y + Z.of_nat (fst k) - Z.of_nat (rows kernel / 2))
                                      (Z.of_nat x + Z.of_nat (snd k) - Z.of_nat (cols kernel / 2)))
           (fun k => pix kernel (fst k) (snd k)));
    try assumption.
  intros p _. unfold pix_reflect. rewrite Hr, Hc.
  apply Hpix; apply reflect101_lt; lia.
Qed.

Lemma square_build_opposite (d : Depth) (ch r c : nat) (X X' : Mat) :
  (forall i j, i < r -> j < c ->
     opposite (F.decode (pix X i j)) (F.decode (pix X' i j))) ->
  build d ch r c (fun i j => F.mul (pix X' i j) (pix X' i j))
  = build d ch r c (fun i j => F.mul (pix X i j) (pix X i j)).
Proof.
  intros H. apply build_ext. intros i j Hi Hj. unfold F.mul. f_equal.
  apply SFmul_square_opposite, H; assumption.
Qed.

Lemma tensor_fields_neg (d : CornerDetector) (image : Mat) :
  exists B',
    tensor_fields d (mat_neg image)
    = (fst (fst (tensor_fields d image)), B', snd (tensor_fields d image)) /\
    same_shape B' (snd (fst (tensor_fields d image))) = true /\
    forall r c, r < rows image -> c < cols image ->
      alike (F.decode (pix (snd (fst (tensor_fields d image))) r c)) (F.decode (pix B' r c)).
Proof.
  unfold tensor_fields. cbv zeta. cbn [fst snd].
  assert (Hr : rows (mat_neg image) = rows image) by (unfold mat_neg; autorewrite with shape; reflexivity).
  assert (Hc : cols (mat_neg image) = cols image) by (unfold mat_neg; autorewrite with shape; reflexivity).
  assert (Hd : depth (mat_neg image) = depth image) by (unfold mat_neg; autorewrite with shape; reflexivity).
  assert (Hch : channels (mat_neg image) = channels image) by (unfold mat_neg; autorewrite with shape; reflexivity).
  rewrite Hr, Hc, Hd, Hch.
  assert (Hopp : forall k r c, r < rows image -> c < cols image ->
            opposite (F.decode (pix (correlate image k) r c))
                     (F.decode (pix (correlate (mat_neg image) k) r c))).
  { intros k. apply correlate_related; try assumption.
    - apply SFmul_opposite.
    - apply SFadd_opposite.
    - apply encode_opposite.
    - exact I.
    - intros r c Hlr Hlc. unfold mat_neg. rewrite pix_build by assumption.
      apply float_neg_opposite. }
  rewrite (@square_build_opposite _ _ _ _ (correlate image (g_kernel_ d))
             (correlate (mat_neg image) (g_kernel_ d))) by (apply Hopp).
  rewrite (@square_build_opposite _ _ _ _ (correlate image (dg_kernel_ d))
             (correlate (mat_neg image) (dg_kernel_ d))) by (apply Hopp).
  eexists. split; [reflexivity|]. split; [shape|].
  intros r c Hlr Hlc. apply correlate_related.
  - apply SFmul_alike.
  - apply SFadd_alike.
  - apply encode_alike.
  - exact I.
  - autorewrite with shape. reflexivity.
  - autorewrite with shape. reflexivity.
  - autorewrite with shape. intros i j Hi Hj. rewrite !pix_build by assumption.
    unfold F.mul. apply encode_alike, SFmul_opposite_both; apply Hopp; assumption.
  - autorewrite with shape. exact Hlr.
  - autorewrite with shape. exact Hlc.
Qed.

(** Inverting the image changes nothing: the squares and the product of
    the gradients that make up the structure tensor are the same for
    [-image] as for [image] (the sign of a zero in B apart, which the
    metrics square away), so [detect] returns the same key points, or
    raises the same exception. *)
Theorem detect_ignores_the_sign_of_the_image
        (solver : Mat -> Mat) (lane : nat -> nat -> bool) (d : CornerDetector) (image : Mat) :
  detect solver lane d (mat_neg image) = detect solver lane d image.
Proof.
  rewrite !detect_unfold.
  assert (Hne : nonempty_input d (mat_neg image) = nonempty_input d image).
  { unfold nonempty_input.
    rewrite (@mat_empty_same_size (mat_neg image) image)
      by (unfold mat_neg; autorewrite with shape; reflexivity).
    reflexivity. }
  rewrite Hne. destruct (nonempty_input d image); [|reflexivity].
  destruct (tensor_fields_neg d image) as [B' (E & Hs & Hal)]. rewrite E.
  pose proof (tensor_fields_shape d image) as Hshape.
  destruct (tensor_fields d image) as [[A B] C]. cbn [fst snd] in *.
  destruct Hshape as (HAB & _ & _ & HrA & HcA).
  apply same_shape_spec in HAB. destruct HAB as (HrB & HcB & _ & _).
  assert (EB : mat_mul B' B' = mat_mul B B).
  { unfold mat_mul, binop. rewrite !same_shape_refl.
    apply same_shape_spec in Hs. destruct Hs as (-> & -> & -> & ->). f_equal.
    apply build_ext. intros i j Hi Hj. unfold F.mul. f_equal.
    apply SFmul_square_alike, Hal; congruence. }
  assert (ER : corner_response solver lane d A B' C = corner_response solver lane d A B C).
  { unfold corner_response. destruct (metric_type_ d).
    - unfold harrisMetric. rewrite EB. reflexivity.
    - reflexivity.
    - rewrite !minEigenMetric_raises. reflexivity. }
  rewrite ER. reflexivity.
Qed.

(* ================================================================== *)
(** ** An image of NaN *)

Lemma F_mul_nan_r (k p : F.f32) : F.is_nan p = true -> F.mul k p = F.nan.
Proof.
  unfold F.is_nan, F.mul. destruct (F.decode p); try discriminate. intros _.
  destruct (F.decode k); reflexivity.
Qed.

Lemma F_add_nan_r (a : F.f32) : F.add a F.nan = F.nan.
Proof.
  unfold F.add. change (F.decode F.nan) with S754_nan.
  destruct (F.decode a); reflexivity.
Qed.

Lemma fold_nan (k f : nat * nat -> Z) (l : list (nat * nat)) (acc : F.f32) :
  l <> [] ->
  (forall p, In p l -> F.is_nan (f p) = true) ->
  fold_left (fun a p => F.add a (F.mul (k p) (f p))) l acc = F.nan.
Proof.
  intros Hl Hf. destruct l as [|p l]; [congruence|]. clear Hl. cbn [fold_left].
  rewrite F_mul_nan_r, F_add_nan_r by (apply Hf; left; reflexivity).
  assert (Hf' : forall q, In q l -> F.is_nan (f q) = true) by (intros q Hq; apply Hf; right; exact Hq).
  clear Hf. induction l as [|q l IH]; cbn [fold_left]; [reflexivity|].
  rewrite F_mul_nan_r, F_add_nan_r by (apply Hf'; left; reflexivity).
  apply IH. intros r Hr. apply Hf'. right. exact Hr.
Qed.

Lemma coords_nonempty (r c : nat) : 0 < r -> 0 < c -> coords r c <> [].
Proof.
  intros Hr Hc E. assert (H : In (0, 0) (coords r c)) by (apply coords_In; lia).
  rewrite E in H. destruct H.
Qed.

Lemma correlate_nan_field (src kernel : Mat) (r c : nat) :
  nan_field src -> mat_empty kernel = false ->
  r < rows src -> c < cols src ->
  pix (correlate src kernel) r c = F.nan.
Proof.
  intros Hn Hk Hr Hc. apply mat_empty_false in Hk.
  rewrite pix_correlate by assumption.
  apply (@fold_nan (fun k => pix kernel (fst k) (snd k))
           (fun k => pix_reflect src (Z.of_nat r + Z.of_nat (fst k) - Z.of_nat (rows kernel / 2))
                                     (Z.of_nat c + Z.of_nat (snd k) - Z.of_nat (cols kernel / 2)))).
  - apply coords_nonempty; tauto.
  - intros p _. unfold pix_reflect. apply Hn; apply reflect101_lt; lia.
Qed.

Lemma tensor_fields_nan (d : CornerDetector) (image : Mat) :
  nan_field image ->
  mat_empty (g_kernel_ d) = false -> mat_empty (dg_kernel_ d) = false ->
  mat_empty (win_kernel_ d) = false ->
  let '(A, B, C) := tensor_fields d image in
  forall r c, r < rows image -> c < cols image ->
    pix A r c = F.nan /\ pix B r c = F.nan /\ pix C r c = F.nan.
Proof.
  intros Hn Hg Hdg Hwin. unfold tensor_fields. cbv zeta.
  assert (P : forall X Y, nan_field Y ->
            rows Y = rows image -> cols Y = cols image ->
            nan_field (build (depth image) (channels image) (rows image) (cols image)
                         (fun r c => F.mul (pix X r c) (pix Y r c)))).
  { intros X Y HY Hr Hc r c Hlr Hlc. autorewrite with shape in Hlr, Hlc.
    rewrite pix_build by assumption. rewrite F_mul_nan_r; [reflexivity|].
    apply HY; congruence. }
  assert (G : forall k, mat_empty k = false -> nan_field (correlate image k)).
  { intros k Hk r c Hlr Hlc. autorewrite with shape in Hlr, Hlc.
    rewrite correlate_nan_field by assumption. reflexivity. }
  intros r c Hlr Hlc.
  repeat split; apply correlate_nan_field;
    try (autorewrite with shape; assumption);
    apply P; try (autorewrite with shape; reflexivity); apply G; assumption.
Qed.

Lemma harris_at_nan (vector : bool) :
  harris_at vector F.nan F.nan F.nan = if vector then F.zero else F.nan.
Proof. destruct vector; vm_compute; reflexivity. Qed.

Lemma harmonic_at_nan : harmonic_at F.nan F.nan = F.nan.
Proof. vm_compute. reflexivity. Qed.

(** An image whose pixels are all NaN passes through every stage without
    an exception.  With the harris or the harmonic-mean metric, the image
    having pixels and the kernels having taps, every pixel of the response
    is NaN, or 0 where the Harris clamp runs in the vector loop of
    [cv::max]; no pixel passes the threshold, and [detect] returns no key
    point. *)
Theorem nan_image_yields_no_key_points
        (solver : Mat -> Mat) (lane : nat -> nat -> bool) (d : CornerDetector) (image : Mat) :
  metric_type_ d <> min_eigen ->
  nan_field image ->
  nonempty_input d image = true ->
  (exists R,
      (let '(A, B, C) := tensor_fields d image in corner_response solver lane d A B C) = Ok R /\
      rows R = rows image /\ cols R = cols image /\
      forall r c, r < rows R -> c < cols R ->
        pix R r c = F.nan \/
        (metric_type_ d = harris /\ lane r c = true /\ pix R r c = F.zero)) /\
  detect solver lane d image = Ok [].
Proof.
  intros Hm Hn Hne. rewrite detect_spec, Hne.
  unfold nonempty_input in Hne.
  repeat (apply andb_true_iff in Hne; destruct Hne as [Hne ?]).
  repeat match goal with H : negb _ = true |- _ => apply negb_true_iff in H end.
  pose proof (@tensor_fields_nan d image Hn) as HT.
  destruct d as [m v q ws g dg win]. cbn [metric_type_ g_kernel_ dg_kernel_ win_kernel_] in *.
  specialize (HT ltac:(assumption) ltac:(assumption) ltac:(assumption)).
  destruct m; [| |congruence].
  - pose proof (harris_response_ok solver lane v q ws g dg win image) as H'. cbv zeta in H'.
    destruct (tensor_fields _ image) as [[A B] C].
    destruct H' as [R (HR & Hr & Hc & Hpix)]. rewrite HR. cbn [bind].
    assert (HP : forall r c, r < rows R -> c < cols R ->
                   pix R r c = if lane r c then F.zero else F.nan).
    { intros r c Hlr Hlc. rewrite Hr in Hlr. rewrite Hc in Hlc.
      destruct (HT r c Hlr Hlc) as (EA & EB & EC).
      rewrite Hpix, EA, EB, EC by assumption. apply harris_at_nan. }
    split.
    + exists R. split; [reflexivity|]. split; [exact Hr|]. split; [exact Hc|].
      intros r c Hlr Hlc. rewrite (HP r c Hlr Hlc).
      destruct (lane r c); [right | left]; auto.
    + rewrite null_field_no_locations; [reflexivity|].
      intros r c Hlr Hlc. rewrite (HP r c Hlr Hlc).
      destruct (lane r c); [left | right]; reflexivity.
  - pose proof (harmonic_response_ok solver lane v q ws g dg win image) as H'. cbv zeta in H'.
    destruct (tensor_fields _ image) as [[A B] C].
    destruct H' as [R (HR & Hr & Hc & Hpix)]. rewrite HR. cbn [bind].
    assert (HP : forall r c, r < rows R -> c < cols R -> pix R r c = F.nan).
    { intros r c Hlr Hlc. rewrite Hr in Hlr. rewrite Hc in Hlc.
      destruct (HT r c Hlr Hlc) as (EA & EB & EC).
      rewrite Hpix, EA, EC by assumption. apply harmonic_at_nan. }
    split.
    + exists R. split; [reflexivity|]. split; [exact Hr|]. split; [exact Hc|].
      intros r c Hlr Hlc. left. apply HP; assumption.
    + rewrite nan_field_no_locations; [reflexivity | exact HP].
Qed.

(** Witness: the 3x3 image of NaN with three-tap kernels. *)
Lemma nan_image_witness :
  (exists R,
      (let '(A, B, C) := tensor_fields (sample_detector harmonic_mean tenth)
                                       (flat_image 3 3 F.nan) in
       corner_response identity_solver vector_lanes
                       (sample_detector harmonic_mean tenth) A B C) = Ok R /\
      rows R = rows (flat_image 3 3 F.nan) /\ cols R = cols (flat_image 3 3 F.nan) /\
      forall r c, r < rows R -> c < cols R ->
        pix R r c = F.nan \/
        (metric_type_ (sample_detector harmonic_mean tenth) = harris /\
         vector_lanes r c = true /\ pix R r c = F.zero)) /\
  detect identity_solver vector_lanes (sample_detector harmonic_mean tenth)
         (flat_image 3 3 F.nan) = Ok [].
Proof.
  apply (@nan_image_yields_no_key_points identity_solver vector_lanes
           (sample_detector harmonic_mean tenth) (flat_image 3 3 F.nan)).
  - cbn. discriminate.
  - intros r c Hr Hc. cbn in Hr, Hc.
    do 3 (destruct r as [|r]; [do 3 (destruct c as [|c]; [reflexivity|]); lia|]). lia.
  - vm_compute. reflexivity.
Defined.

(* ================================================================== *)
(** ** The coordinates of a key point *)

Local Open Scope Z_scope.

Lemma digits_below_24 (p : positive) : Zpos p < 2 ^ 24 -> 1 <= Zpos (digits2_pos p) <= 24.
Proof.
  intros H. pose proof (digits2_pos_bounds p) as [Hlo _].
  split; [lia|].
  destruct (Z_le_gt_dec (Zpos (digits2_pos p)) 24) as [|Hgt]; [assumption|].
  assert (2 ^ 24 <= 2 ^ (Zpos (digits2_pos p) - 1)) by (apply Z.pow_le_mono_r; lia).
  lia.
Qed.

Lemma of_int_decode (p : positive) :
  Zpos p < 2 ^ 24 ->
  exists mz : positive,
    F.decode (F.of_int (Zpos p))
    = S754_finite false mz (Zpos (digits2_pos p) - 24) /\
    Zpos mz = Zpos p * 2 ^ (24 - Zpos (digits2_pos p)).
Proof.
  intros H. pose proof (digits_below_24 H) as Hd.
  unfold F.of_int. cbn [binary_normalize]. unfold binary_round.
  set (d := Zpos (digits2_pos p)) in *.
  assert (Hf : fexp F.prec F.emax (d + 0) = d - 24).
  { unfold fexp, emin, F.prec, F.emax. lia. }
  rewrite Hf. unfold shl_align.
  assert (G : forall mz : positive,
             Zpos mz = Zpos p * 2 ^ (24 - d) ->
             F.decode (F.encode (binary_round_aux F.prec F.emax false (Zpos mz) (d - 24) loc_Exact))
             = S754_finite false mz (d - 24)).
  { intros mz Hz.
    assert (Hdz : Zpos (digits2_pos mz) = 24).
    { pose proof (Zdigits2_shift p (n := 24 - d) ltac:(lia)) as Hs.
      rewrite <- Hz in Hs. cbn [Zdigits2] in Hs. fold d in Hs. lia. }
    pose proof (binary_round_aux_exact F.prec F.emax false mz (d - 24)
                  (n := 0) ltac:(lia)) as Hr.
    rewrite Z.mul_1_r, Z.add_0_r in Hr. rewrite Hr.
    - unfold F.emax, F.prec.
      destruct (Z.leb_spec (d - 24) (128 - 24)); [|lia].
      apply decode_encode. cbn [valid_binary]. apply bounded32_intro; lia.
    - unfold canonical_mantissa. rewrite Hdz. apply Z.eqb_eq.
      unfold fexp, emin, F.prec, F.emax. lia. }
  destruct (d - 24 - 0) as [|k|k] eqn:Ek; try lia.
  - exists p. assert (E24 : d - 24 = 0) by lia.
    assert (Hz : Zpos p = Zpos p * 2 ^ (24 - d)) by (replace (24 - d) with 0 by lia; lia).
    split; [|exact Hz]. rewrite <- (G p Hz), E24. reflexivity.
  - exists (Pos.iter xO p k).
    assert (Hz : Zpos (Pos.iter xO p k) = Zpos p * 2 ^ (24 - d)).
    { rewrite Pos_iter_xO. f_equal. f_equal. lia. }
    split; [|exact Hz]. apply G, Hz.
Qed.

Lemma of_int_value (n : Z) : 0 <= n < 2 ^ 24 -> fval (F.of_int n) = EFin (n * 2 ^ scale).
Proof.
  intros [H0 H1]. destruct n as [|p|p]; [reflexivity| |lia].
  destruct (of_int_decode H1) as [mz [E Hz]].
  pose proof (digits_below_24 H1) as Hd.
  unfold fval. rewrite E. cbn [value cond_Zopp]. rewrite Hz. f_equal.
  rewrite <- Z.mul_assoc, <- Z.pow_add_r by (unfold scale; lia).
  f_equal. f_equal. lia.
Qed.

Local Close Scope Z_scope.

Lemma NoDup_map_on {A B : Type} (f : A -> B) (l : list A) :
  NoDup l ->
  (forall a b, In a l -> In b l -> f a = f b -> a = b) ->
  NoDup (map f l).
Proof.
  intros Hn. induction Hn as [|a l Ha Hl IH]; intros Hinj; cbn [map]; constructor.
  - intros Hin. apply in_map_iff in Hin. destruct Hin as [b [Hb Hin]].
    assert (b = a) by (apply Hinj; [right; exact Hin | left; reflexivity | exact Hb]).
    subst b. contradiction.
  - apply IH. intros x y Hx Hy. apply Hinj; right; assumption.
Qed.

Lemma of_nat_value_inj (m n : nat) :
  (Z.of_nat m < 2 ^ 24)%Z -> (Z.of_nat n < 2 ^ 24)%Z ->
  F.of_int (Z.of_nat m) = F.of_int (Z.of_nat n) -> m = n.
Proof.
  intros Hm Hn E. apply (f_equal fval) in E.
  rewrite !of_int_value in E by lia.
  pose proof pow_scale_gt0. inversion E. nia.
Qed.

(** In an image of at most 2^24 rows and columns the coordinates of a key
    point are the indices of its pixel exactly (the conversion from [int]
    to [float] does not round), so different pixels give different key
    points: the returned sequence has no duplicates. *)
Theorem key_point_coordinates_are_exact (d : CornerDetector) (response : Mat) :
  (Z.of_nat (rows response) <= 2 ^ 24)%Z ->
  (Z.of_nat (cols response) <= 2 ^ 24)%Z ->
  exists locations : list Point,
    extract_keypoints d response = Ok (map (make_keypoint d response) locations) /\
    (forall p, In p locations ->
       fval (kp_x (make_keypoint d response p)) = EFin (Z.of_nat (pt_x p) * 2 ^ scale) /\
       fval (kp_y (make_keypoint d response p)) = EFin (Z.of_nat (pt_y p) * 2 ^ scale)) /\
    NoDup (map (make_keypoint d response) locations).
Proof.
  intros Hr Hc. exists (max_locations d response).
  split; [apply extract_keypoints_spec|].
  assert (Hin : forall p, In p (max_locations d response) ->
                  (Z.of_nat (pt_x p) < 2 ^ 24)%Z /\ (Z.of_nat (pt_y p) < 2 ^ 24)%Z).
  { intros [x y] Hp. apply max_locations_In in Hp. cbn [pt_x pt_y]. lia. }
  split.
  - intros p Hp. destruct (Hin p Hp). cbn [make_keypoint kp_x kp_y].
    split; apply of_int_value; lia.
  - apply NoDup_map_on; [apply max_locations_NoDup|].
    intros [x y] [x' y'] Hp Hq E.
    destruct (Hin _ Hp) as [Hx Hy]. destruct (Hin _ Hq) as [Hx' Hy'].
    cbn [pt_x pt_y] in *.
    assert (Ex : kp_x (make_keypoint d response (mkPoint x y))
                 = kp_x (make_keypoint d response (mkPoint x' y'))) by (rewrite E; reflexivity).
    assert (Ey : kp_y (make_keypoint d response (mkPoint x y))
                 = kp_y (make_keypoint d response (mkPoint x' y'))) by (rewrite E; reflexivity).
    cbn [make_keypoint kp_x kp_y pt_x pt_y] in Ex, Ey.
    apply of_nat_value_inj in Ex; [|assumption|assumption].
    apply of_nat_value_inj in Ey; [|assumption|assumption].
    congruence.
Qed.

(** Witness: the corner image read as a response field. *)
Lemma key_point_coordinates_witness :
  exists locations : list Point,
    extract_keypoints (sample_detector harris tenth) corner_image
    = Ok (map (make_keypoint (sample_detector harris tenth) corner_image) locations) /\
    (forall p, In p locations ->
       fval (kp_x (make_keypoint (sample_detector harris tenth) corner_image p))
       = EFin (Z.of_nat (pt_x p) * 2 ^ scale) /\
       fval (kp_y (make_keypoint (sample_detector harris tenth) corner_image p))
       = EFin (Z.of_nat (pt_y p) * 2 ^ scale)) /\
    NoDup (map (make_keypoint (sample_detector harris tenth) corner_image) locations).
Proof.
  apply (@key_point_coordinates_are_exact (sample_detector harris tenth) corner_image).
  - cbn. lia.
  - cbn. lia.
Defined.

(* ================================================================== *)
(** ** The sign of a gradient kernel *)

Lemma fold_add_related (rel : spec_float -> spec_float -> Prop) (t t' : nat * nat -> Z)
      (l : list (nat * nat)) (acc acc' : F.f32) :
  (forall a a' u u', rel a a' -> rel u u' ->
     rel (SFadd F.prec F.emax a u) (SFadd F.prec F.emax a' u')) ->
  (forall X X', rel X X' -> rel (F.decode (F.encode X)) (F.decode (F.encode X'))) ->
  (forall p, In p l -> rel (F.decode (t p)) (F.decode (t' p))) ->
  rel (F.decode acc) (F.decode acc') ->
  rel (F.decode (fold_left (fun a p => F.add a (t p)) l acc))
      (F.decode (fold_left (fun a p => F.add a (t' p)) l acc')).
Proof.
  intros Hadd Henc. revert acc acc'.
  induction l as [|p l IH]; intros acc acc' Ht Hacc; cbn [fold_left]; [exact Hacc|].
  apply IH; [intros q Hq; apply Ht; right; exact Hq|].
  unfold F.add. apply Henc, Hadd; [exact Hacc|]. apply Ht. left. reflexivity.
Qed.

Lemma F_mul_opposite_l (k k' x : F.f32) :
  opposite (F.decode k) (F.decode k') ->
  opposite (F.decode (F.mul k x)) (F.decode (F.mul k' x)).
Proof.
  intros H. rewrite (F_mul_comm k x), (F_mul_comm k' x). unfold F.mul.
  apply encode_opposite, SFmul_opposite, H.
Qed.

Lemma F_mul_opposite_r (k x x' : F.f32) :
  opposite (F.decode x) (F.decode x') ->
  opposite (F.decode (F.mul k x)) (F.decode (F.mul k x')).
Proof. intros H. unfold F.mul. apply encode_opposite, SFmul_opposite, H. Qed.

Lemma correlate_neg_kernel (src kernel : Mat) (y x : nat) :
  y < rows src -> x < cols src ->
  opposite (F.decode (pix (correlate src kernel) y x))
           (F.decode (pix (correlate src (mat_neg kernel)) y x)).
Proof.
  intros Hy Hx. rewrite !pix_correlate by assumption.
  assert (Hr : rows (mat_neg kernel) = rows kernel) by (unfold mat_neg; autorewrite with shape; reflexivity).
  assert (Hc : cols (mat_neg kernel) = cols kernel) by (unfold mat_neg; autorewrite with shape; reflexivity).
  rewrite Hr, Hc.
  apply (@fold_add_related opposite
           (fun k => F.mul (pix kernel (fst k) (snd k))
                       (pix_reflect src (Z.of_nat y + Z.of_nat (fst k) - Z.of_nat (rows kernel / 2))
                                        (Z.of_nat x + Z.of_nat (snd k) - Z.of_nat (cols kernel / 2))))
           (fun k => F.mul (pix (mat_neg kernel) (fst k) (snd k))
                       (pix_reflect src (Z.of_nat y + Z.of_nat (fst k) - Z.of_nat (rows kernel / 2))
                                        (Z.of_nat x + Z.of_nat (snd k) - Z.of_nat (cols kernel / 2))))).
  - apply SFadd_opposite.
  - apply encode_opposite.
  - intros [i j] Hin. apply coords_In in Hin. cbn [fst snd].
    apply F_mul_opposite_l. unfold mat_neg. rewrite pix_build by tauto.
    apply float_neg_opposite.
  - exact I.
Qed.

(** The window stage for two pairs of gradient fields whose squares agree
    and whose products are opposite. *)
Lemma tensor_stage_opposite (dp : Depth) (ch r c : nat) (win X Y X' Y' : Mat) :
  (forall i j, i < r -> j < c ->
     F.mul (pix X' i j) (pix X' i j) = F.mul (pix X i j) (pix X i j)) ->
  (forall i j, i < r -> j < c ->
     F.mul (pix Y' i j) (pix Y' i j) = F.mul (pix Y i j) (pix Y i j)) ->
  (forall i j, i < r -> j < c ->
     opposite (F.decode (F.mul (pix X i j) (pix Y i j)))
              (F.decode (F.mul (pix X' i j) (pix Y' i j)))) ->
  let prod U V := build dp ch r c (fun i j => F.mul (pix U i j) (pix V i j)) in
  correlate (prod X' X') win = correlate (prod X X) win /\
  correlate (prod Y' Y') win = correlate (prod Y Y) win /\
  same_shape (correlate (prod X' Y') win) (correlate (prod X Y) win) = true /\
  forall i j, i < r -> j < c ->
    opposite (F.decode (pix (correlate (prod X Y) win) i j))
             (F.decode (pix (correlate (prod X' Y') win) i j)).
Proof.
  intros HX HY HXY prod. unfold prod.
  rewrite (@build_ext dp ch r c _ _ HX), (@build_ext dp ch r c _ _ HY).
  split; [reflexivity|]. split; [reflexivity|]. split; [shape|].
  intros i j Hi Hj. apply correlate_related.
  - apply SFmul_opposite.
  - apply SFadd_opposite.
  - apply encode_opposite.
  - exact I.
  - autorewrite with shape. reflexivity.
  - autorewrite with shape. reflexivity.
  - autorewrite with shape. intros i' j' Hi' Hj'. rewrite !pix_build by assumption.
    apply HXY; assumption.
  - autorewrite with shape. exact Hi.
  - autorewrite with shape. exact Hj.
Qed.

Lemma corner_response_opposite_B (solver : Mat -> Mat) (lane : nat -> nat -> bool)
      (d d' : CornerDetector) (A B B' C : Mat) :
  metric_type_ d' = metric_type_ d ->
  same_shape B' B = true ->
  (forall i j, i < rows B -> j < cols B ->
     opposite (F.decode (pix B i j)) (F.decode (pix B' i j))) ->
  corner_response solver lane d' A B' C = corner_response solver lane d A B C.
Proof.
  intros Hm Hs Hopp.
  assert (EB : mat_mul B' B' = mat_mul B B).
  { unfold mat_mul, binop. rewrite !same_shape_refl.
    apply same_shape_spec in Hs. destruct Hs as (Hr & Hc & Hd & Hch).
    rewrite Hr, Hc, Hd, Hch. f_equal.
    apply build_ext. intros i j Hi Hj. unfold F.mul. f_equal.
    apply SFmul_square_opposite, Hopp; assumption. }
  unfold corner_response. rewrite Hm. destruct (metric_type_ d).
  - unfold harrisMetric. rewrite EB. reflexivity.
  - reflexivity.
  - rewrite !minEigenMetric_raises. reflexivity.
Qed.

Lemma detect_same_tensor (solver : Mat -> Mat) (lane : nat -> nat -> bool)
      (d d' : CornerDetector) (image : Mat) (A B B' C : Mat) :
  nonempty_input d' image = nonempty_input d image ->
  metric_type_ d' = metric_type_ d ->
  quality_level_ d' = quality_level_ d ->
  window_sigma_ d' = window_sigma_ d ->
  tensor_fields d image = (A, B, C) ->
  tensor_fields d' image = (A, B', C) ->
  same_shape B' B = true ->
  (forall i j, i < rows B -> j < cols B ->
     opposite (F.decode (pix B i j)) (F.decode (pix B' i j))) ->
  detect solver lane d' image = detect solver lane d image.
Proof.
  intros Hne Hm Hq Hw E E' Hs Hopp. rewrite !detect_spec, E, E', Hne.
  destruct (nonempty_input d image); [|reflexivity].
  rewrite (@corner_response_opposite_B solver lane d d' A B B' C Hm Hs Hopp).
  destruct (corner_response solver lane d A B C) as [R|e]; cbn [bind]; [|reflexivity].
  f_equal. unfold max_locations, is_strong_local_max_at, threshold_of. rewrite Hq.
  apply map_ext. intros p. unfold make_keypoint. rewrite Hw. reflexivity.
Qed.

(** The orientation of a gradient kernel does not matter: with the
    derivative kernel negated (the derivative taken the other way round),
    or the smoothing kernel negated, [detect] returns the same key points,
    bit for bit, or raises the same exception.  The gradient image changes
    sign, its square does not, and B only changes sign, which the metrics
    square away. *)
Theorem detect_ignores_the_sign_of_a_gradient_kernel
        (solver : Mat -> Mat) (lane : nat -> nat -> bool)
        (m : CornerMetric) (v : bool) (q ws : F.f32) (g dg win image : Mat) :
  detect solver lane (mkCornerDetector m v q ws g (mat_neg dg) win) image
  = detect solver lane (mkCornerDetector m v q ws g dg win) image /\
  detect solver lane (mkCornerDetector m v q ws (mat_neg g) dg win) image
  = detect solver lane (mkCornerDetector m v q ws g dg win) image.
Proof.
  split.
  - pose proof (@tensor_stage_opposite (depth image) (channels image) (rows image) (cols image)
                  win (correlate image g) (correlate image dg)
                  (correlate image g) (correlate image (mat_neg dg))) as H.
    cbv zeta in H.
    destruct H as (EA & EC & Hs & Hopp).
    + reflexivity.
    + intros i j Hi Hj. unfold F.mul. f_equal.
      apply SFmul_square_opposite, correlate_neg_kernel; assumption.
    + intros i j Hi Hj. apply F_mul_opposite_r, correlate_neg_kernel; assumption.
    + eapply detect_same_tensor; try reflexivity.
      * unfold tensor_fields. cbv zeta. cbn [g_kernel_ dg_kernel_ win_kernel_].
        rewrite EC. reflexivity.
      * exact Hs.
      * intros i j Hi Hj. autorewrite with shape in Hi, Hj. apply Hopp; assumption.
  - pose proof (@tensor_stage_opposite (depth image) (channels image) (rows image) (cols image)
                  win (correlate image g) (correlate image dg)
                  (correlate image (mat_neg g)) (correlate image dg)) as H.
    cbv zeta in H.
    destruct H as (EA & EC & Hs & Hopp).
    + intros i j Hi Hj. unfold F.mul. f_equal.
      apply SFmul_square_opposite, correlate_neg_kernel; assumption.
    + reflexivity.
    + intros i j Hi Hj. apply F_mul_opposite_l, correlate_neg_kernel; assumption.
    + eapply detect_same_tensor; try reflexivity.
      * unfold tensor_fields. cbv zeta. cbn [g_kernel_ dg_kernel_ win_kernel_].
        rewrite EA. reflexivity.
      * exact Hs.
      * intros i j Hi Hj. autorewrite with shape in Hi, Hj. apply Hopp; assumption.
Qed.
